(** * tuipe: the terminal time-series plotting engine (internal/stats/plot.go)

    A shallow embedding of the resampler, the Braille rasterizer, the cell
    compositor and the text renderer, and the properties stated about them.

    Conventions of the embedding.
    - Go [int] values are modelled by [Z]; the arithmetic of [drawLine] wraps
      around at 64 bits as Go's does ([wrap64]).  Slice lengths and canvas
      sizes are bounded by what the Go runtime can allocate, far below
      [2^53]; the theorems that need such a bound carry it as a hypothesis.
    - Go [float64] values are modelled by [spec_float] at precision 53 and
      maximal exponent 1024, i.e. IEEE 754 binary64 with round to nearest
      even, with the Standard Library's executable operations.
    - Go strings are byte strings: [string] is a list of 8-bit characters.
    - A slice expression or an index out of range panics in Go; the functions
      that contain one return an [option], [None] standing for the panic. *)

From Stdlib Require Import ZArith List Lia Bool String Ascii.
From Stdlib Require Import SpecFloat DecimalString.
From Stdlib Require Import Reals Lra.
Import ListNotations.

Open Scope Z_scope.

(** ** float64 *)

Module F64.

Definition prec : Z := 53.
Definition emax : Z := 1024.

Definition float64 : Type := spec_float.

(** [float64(z)] for an [int] z: the nearest binary64 value. *)
Definition of_int (z : Z) : float64 := binary_normalize prec emax z 0 false.

Definition zero : float64 := S754_zero false.
Definition one : float64 := of_int 1.

Definition add : float64 -> float64 -> float64 := SFadd prec emax.
Definition sub : float64 -> float64 -> float64 := SFsub prec emax.
Definition mul : float64 -> float64 -> float64 := SFmul prec emax.
Definition div : float64 -> float64 -> float64 := SFdiv prec emax.

(** Go's [<], [>] and [==] on float64 (all false on NaN). *)
Definition ltb : float64 -> float64 -> bool := SFltb.
Definition gtb (x y : float64) : bool := SFltb y x.
Definition eqb : float64 -> float64 -> bool := SFeqb.

(** [math.Abs], [math.Inf(1)], [math.Inf(-1)]. *)
Definition abs : float64 -> float64 := SFabs.
Definition pos_inf : float64 := S754_infinity false.
Definition neg_inf : float64 := S754_infinity true.

(** The integer part of a finite value, rounded toward zero. *)
Definition trunc (x : float64) : Z :=
  match x with
  | S754_finite s m e =>
      let a := match e with
               | Zneg p => Z.shiftr (Zpos m) (Zpos p)
               | _ => Z.shiftl (Zpos m) e
               end in
      if s then - a else a
  | _ => 0
  end.

Definition int64_min : Z := - 2 ^ 63.
Definition int64_max : Z := 2 ^ 63 - 1.

(** [int(x)]: truncation toward zero.  When the value does not fit (or is NaN
    or infinite) Go leaves the result to the implementation; amd64's
    conversion instruction yields the most negative integer, which is the
    value taken here. *)
Definition to_int (x : float64) : Z :=
  match x with
  | S754_zero _ => 0
  | S754_finite _ _ _ =>
      let t := trunc x in
      if (int64_min <=? t) && (t <=? int64_max) then t else int64_min
  | _ => int64_min
  end.

(** [math.Floor]. *)
Definition floor (x : float64) : float64 :=
  match x with
  | S754_finite s m (Zneg p) =>
      binary_normalize prec emax
        (Z.shiftr (if s then Zneg m else Zpos m) (Zpos p)) 0 s
  | _ => x
  end.

(** [math.Round]: nearest integer, halves away from zero. *)
Definition round (x : float64) : float64 :=
  match x with
  | S754_finite s m (Zneg p) =>
      let a := (Z.shiftr (Zpos m) (Zpos p - 1) + 1) / 2 in
      binary_normalize prec emax (if s then - a else a) 0 s
  | _ => x
  end.

(** The constant [1e-9] as a float64: 0x3E112E0BE826D695. *)
Definition eps_1e9 : float64 := S754_finite false 4835703278458517 (-82).

End F64.

Import F64.

(** ** Slices *)

(** [l[i]]; [None] is the run-time panic for an index out of range. *)
Definition index {A : Type} (l : list A) (i : Z) : option A :=
  if i <? 0 then None else nth_error l (Z.to_nat i).

(** [l[lo:hi]] for a slice whose capacity is its length. *)
Definition slice {A : Type} (l : list A) (lo hi : Z) : option (list A) :=
  if (0 <=? lo) && (lo <=? hi) && (hi <=? Z.of_nat (List.length l))
  then Some (firstn (Z.to_nat (hi - lo)) (skipn (Z.to_nat lo) l))
  else None.

(** [for i := from; i < from + n; i++ { out[i] = f(i) }], stopping at the
    first panic. *)
Fixpoint for_each {A : Type} (f : Z -> option A) (from : Z) (n : nat)
  : option (list A) :=
  match n with
  | O => Some []
  | S k =>
      match f from with
      | None => None
      | Some a =>
          match for_each f (from + 1) k with
          | None => None
          | Some r => Some (a :: r)
          end
      end
  end.

(** ** Resampler *)

(** [var sum float64; for _, v := range block { sum += v }]. *)
Definition sumBlock (block : list float64) : float64 :=
  fold_left add block zero.

(** [int(float64(i) * float64(len(values)) / float64(width))]. *)
Definition blockEdge (n width i : Z) : Z :=
  to_int (div (mul (of_int i) (of_int n)) (of_int width)).

(** The [start] and [end] of block [i] after the two guards of the
    downsampling loop. *)
Definition blockBounds (n width i : Z) : Z * Z :=
  let start := blockEdge n width i in
  let end0 := blockEdge n width (i + 1) in
  let end1 := if end0 <=? start then start + 1 else end0 in
  let end2 := if end1 >? n then n else end1 in
  (start, end2).

Definition downsampleAt (values : list float64) (width i : Z)
  : option float64 :=
  let '(start, end_) := blockBounds (Z.of_nat (List.length values)) width i in
  match slice values start end_ with
  | None => None
  | Some block => Some (div (sumBlock block) (of_int (end_ - start)))
  end.

Definition upsampleAt (values : list float64) (width i : Z)
  : option float64 :=
  let n := Z.of_nat (List.length values) in
  let pos := div (mul (of_int i) (of_int (n - 1))) (of_int (width - 1)) in
  let idx0 := to_int (floor pos) in
  let idx := if idx0 <? 0 then 0 else idx0 in
  if idx >=? n - 1 then index values (n - 1)
  else
    let frac := sub pos (of_int idx) in
    match index values idx, index values (idx + 1) with
    | Some a, Some b => Some (add (mul a (sub one frac)) (mul b frac))
    | _, _ => None
    end.

Definition resampleSeries (values : list float64) (width : Z)
  : option (list float64) :=
  let n := Z.of_nat (List.length values) in
  if (n =? 0) || (width <=? 0) then Some []
  else if n =? width then Some values
  else if n >? width then
    for_each (downsampleAt values width) 0 (Z.to_nat width)
  else if width =? 1 then
    match index values 0 with
    | Some v => Some [v]
    | None => None
    end
  else if n =? 1 then
    match index values 0 with
    | Some v => Some (repeat v (Z.to_nat width))
    | None => None
    end
  else for_each (upsampleAt values width) 0 (Z.to_nat width).

(** ** Per-series range *)

(** The running minimum and maximum, from [+Inf] and [-Inf]; an untouched
    bound is reported as 0. *)
Definition seriesMinMaxSingle (values : list float64) : float64 * float64 :=
  let '(minVal, maxVal) :=
    fold_left
      (fun (acc : float64 * float64) (v : float64) =>
         let '(mn, mx) := acc in
         let mn' := if ltb v mn then v else mn in
         let mx' := if gtb v mx then v else mx in
         (mn', mx'))
      values (pos_inf, neg_inf) in
  let minVal := if eqb minVal pos_inf then zero else minVal in
  let maxVal := if eqb maxVal neg_inf then zero else maxVal in
  (minVal, maxVal).

Record seriesMinMaxRange : Type := mkRange { rmin : float64; rmax : float64 }.

(** The body of the second loop of [plotSeries]: the range of one resampled
    series, widened by one on each side when it is degenerate. *)
Definition seriesRange (values : list float64) : seriesMinMaxRange :=
  let '(minVal, maxVal) := seriesMinMaxSingle values in
  if ltb (abs (sub maxVal minVal)) eps_1e9
  then mkRange (sub minVal one) (add maxVal one)
  else mkRange minVal maxVal.

Definition valueToRow (v minVal maxVal : float64) (height : Z) : Z :=
  if height <=? 1 then 0
  else
    let pos := div (sub v minVal) (sub maxVal minVal) in
    let row := to_int (round (mul (sub one pos) (of_int (height - 1)))) in
    let row := if row <? 0 then 0 else row in
    if row >=? height then height - 1 else row.

(** ** Dash styles *)

Record lineStyle : Type := mkStyle { sname : string; period : Z; on : Z }.

Definition lineStyles : list lineStyle :=
  [ mkStyle "solid" 1 1; mkStyle "dashed" 6 3;
    mkStyle "dotted" 4 1; mkStyle "dashdot" 8 3 ].

Definition solidStyle : lineStyle := mkStyle "solid" 1 1.

(** [lineStyles[i % len(lineStyles)]]; the index is never negative. *)
Definition styleOf (i : Z) : lineStyle :=
  nth (Z.to_nat (Z.rem i 4)) lineStyles solidStyle.

Definition shouldPlot (ls : lineStyle) (x : Z) : bool :=
  if period ls <=? 1 then true
  else
    let x := if x <? 0 then - x else x in
    Z.rem x (period ls) <? on ls.

(** ** Braille dot grids *)

(** A grid of cells: [height] rows of [width] 8-bit masks. *)
Definition grid : Type := list (list Z).

Definition makeCells (height width : Z) : grid :=
  repeat (repeat 0 (Z.to_nat width)) (Z.to_nat height).

Definition brailleDotMask (x y : Z) : Z :=
  if (x =? 0) && (y =? 0) then 1
  else if (x =? 0) && (y =? 1) then 2
  else if (x =? 0) && (y =? 2) then 4
  else if (x =? 0) && (y =? 3) then 64
  else if (x =? 1) && (y =? 0) then 8
  else if (x =? 1) && (y =? 1) then 16
  else if (x =? 1) && (y =? 2) then 32
  else if (x =? 1) && (y =? 3) then 128
  else 0.

(** [l[n] = f(l[n])] for an index known to be in range. *)
Fixpoint update_nth {A : Type} (n : nat) (f : A -> A) (l : list A) : list A :=
  match l with
  | [] => []
  | a :: r =>
      match n with
      | O => f a :: r
      | S k => a :: update_nth k f r
      end
  end.

Definition setBrailleDot (cells : grid) (x y : Z) : grid :=
  if (y <? 0) || (x <? 0) then cells
  else
    let cellY := Z.quot y 4 in
    let cellX := Z.quot x 2 in
    if (cellY <? 0) || (cellY >=? Z.of_nat (List.length cells)) then cells
    else
      let row := nth (Z.to_nat cellY) cells [] in
      if (cellX <? 0) || (cellX >=? Z.of_nat (List.length row)) then cells
      else
        let dotMask := brailleDotMask (Z.rem x 2) (Z.rem y 4) in
        update_nth (Z.to_nat cellY)
          (update_nth (Z.to_nat cellX) (fun m => Z.lor m dotMask)) cells.

(** ** Line drawing *)

(** Go's [int] is a 64-bit two's complement integer; [wrap64] is the value
    an arithmetic result is reduced to. *)
Definition wrap64 (z : Z) : Z := (z + 2 ^ 63) mod 2 ^ 64 - 2 ^ 63.

Record lineState : Type := mkLine { lx : Z; ly : Z; lerr : Z }.

(** [int(math.Abs(float64(d)))]. *)
Definition absDelta (d : Z) : Z := to_int (abs (of_int d)).

(** One pass through the body of the loop of [drawLine] after the call of
    [plot]: [None] when the loop is left by one of its three [break]s,
    otherwise the state at the start of the next iteration. *)
Definition lineStep (dx dy sx sy x1 y1 : Z) (s : lineState)
  : option lineState :=
  if (lx s =? x1) && (ly s =? y1) then None
  else
    let e2 := wrap64 (2 * lerr s) in
    if e2 >=? dy then
      if lx s =? x1 then None
      else
        let err := wrap64 (lerr s + dy) in
        let x0 := wrap64 (lx s + sx) in
        if e2 <=? dx then
          if ly s =? y1 then None
          else Some (mkLine x0 (wrap64 (ly s + sy)) (wrap64 (err + dx)))
        else Some (mkLine x0 (ly s) err)
    else if e2 <=? dx then
      if ly s =? y1 then None
      else Some (mkLine (lx s) (wrap64 (ly s + sy)) (wrap64 (lerr s + dx)))
    else Some s.

(** The loop of [drawLine], run for at most [fuel] iterations; [None] when
    the loop is still running after that many. *)
Fixpoint lineLoop {A : Type} (plot : Z -> Z -> A -> A)
  (dx dy sx sy x1 y1 : Z) (fuel : nat) (s : lineState) (acc : A)
  : option A :=
  match fuel with
  | O => None
  | S k =>
      let acc := plot (lx s) (ly s) acc in
      match lineStep dx dy sx sy x1 y1 s with
      | None => Some acc
      | Some s' => lineLoop plot dx dy sx sy x1 y1 k s' acc
      end
  end.

Definition lineDx (x0 x1 : Z) : Z := absDelta (wrap64 (x1 - x0)).
Definition lineDy (y0 y1 : Z) : Z := wrap64 (- absDelta (wrap64 (y1 - y0))).
Definition lineSx (x0 x1 : Z) : Z := if x0 <? x1 then 1 else -1.
Definition lineSy (y0 y1 : Z) : Z := if y0 <? y1 then 1 else -1.

(** [drawLine] run for at most [fuel] iterations of its loop. *)
Definition drawLineFuel {A : Type} (fuel : nat) (x0 y0 x1 y1 : Z)
  (plot : Z -> Z -> A -> A) (acc : A) : option A :=
  let dx := lineDx x0 x1 in
  let dy := lineDy y0 y1 in
  lineLoop plot dx dy (lineSx x0 x1) (lineSy y0 y1) x1 y1 fuel
    (mkLine x0 y0 (wrap64 (dx + dy))) acc.

(** The number of iterations granted to [drawLine] where it is called: one
    more than the number of unit steps between the two dots. *)
Definition lineFuel (x0 y0 x1 y1 : Z) : nat :=
  S (Z.to_nat (Z.abs (x1 - x0) + Z.abs (y1 - y0))).

(** [drawLine]; [None] when the loop has not been left after [lineFuel]
    iterations. *)
Definition drawLine {A : Type} (x0 y0 x1 y1 : Z)
  (plot : Z -> Z -> A -> A) (acc : A) : option A :=
  drawLineFuel (lineFuel x0 y0 x1 y1) x0 y0 x1 y1 plot acc.

(** The dots the loop of [drawLine] passes to [plot], in order. *)
Fixpoint linePoints (dx dy sx sy x1 y1 : Z) (fuel : nat) (s : lineState)
  : option (list (Z * Z)) :=
  match fuel with
  | O => None
  | S k =>
      match lineStep dx dy sx sy x1 y1 s with
      | None => Some [(lx s, ly s)]
      | Some s' =>
          match linePoints dx dy sx sy x1 y1 k s' with
          | None => None
          | Some pts => Some ((lx s, ly s) :: pts)
          end
      end
  end.

(** The dots [drawLine] passes to [plot] between two endpoints. *)
Definition lineTrace (x0 y0 x1 y1 : Z) : option (list (Z * Z)) :=
  let dx := lineDx x0 x1 in
  let dy := lineDy y0 y1 in
  linePoints dx dy (lineSx x0 x1) (lineSy y0 y1) x1 y1
    (lineFuel x0 y0 x1 y1) (mkLine x0 y0 (wrap64 (dx + dy))).

(** The callback handed to [drawLine] by [plotSeries]. *)
Definition plotDot (style : lineStyle) (dx dy : Z) (cells : grid) : grid :=
  if shouldPlot style dx then setBrailleDot cells dx dy else cells.

(** The inner loop of the rasterization in [plotSeries]: the samples from
    index [x] on, the previous dot being [(prevX, prevY)] ([prevX < 0] before
    the first sample).  [None] when a call of [drawLine] does not return. *)
Fixpoint rasterFrom (style : lineStyle) (mm : seriesMinMaxRange) (height : Z)
  (x : Z) (values : list float64) (prevX prevY : Z) (cells : grid)
  : option grid :=
  match values with
  | [] => Some cells
  | v :: rest =>
      let row := valueToRow v (rmin mm) (rmax mm) (height * 4) in
      let row := if row <? 0 then 0 else row in
      let row := if row >=? height * 4 then height * 4 - 1 else row in
      let px := x * 2 in
      let py := row in
      let drawn :=
        if prevX >=? 0 then drawLine prevX prevY px py (plotDot style) cells
        else if shouldPlot style px then Some (setBrailleDot cells px py)
        else Some cells in
      match drawn with
      | None => None
      | Some cells' => rasterFrom style mm height (x + 1) rest px py cells'
      end
  end.

Definition rasterSeries (si : Z) (mm : seriesMinMaxRange) (height width : Z)
  (values : list float64) : option grid :=
  rasterFrom (styleOf si) mm height 0 values (-1) (-1)
    (makeCells height width).

(** ** Cell compositor *)

(** The loop of [composeCell] from series index [i] on. *)
Fixpoint composeFrom (seriesCells : list grid) (x y : Z) (i : Z)
  (mask colorIdx : Z) : Z * Z :=
  match seriesCells with
  | [] => (mask, colorIdx)
  | cells :: rest =>
      if (y <? 0) || (y >=? Z.of_nat (List.length cells))
      then composeFrom rest x y (i + 1) mask colorIdx
      else
        let row := nth (Z.to_nat y) cells [] in
        if (x <? 0) || (x >=? Z.of_nat (List.length row))
        then composeFrom rest x y (i + 1) mask colorIdx
        else
          let cellMask := nth (Z.to_nat x) row 0 in
          if cellMask =? 0
          then composeFrom rest x y (i + 1) mask colorIdx
          else
            let colorIdx := if colorIdx =? -1 then i else colorIdx in
            composeFrom rest x y (i + 1) (Z.lor mask cellMask) colorIdx
  end.

Definition composeCell (seriesCells : list grid) (x y : Z) : Z * Z :=
  composeFrom seriesCells x y 0 0 (-1).

(** ** Text *)

Definition byte (b : Z) : string :=
  String (ascii_of_N (Z.to_N b)) EmptyString.

(** The UTF-8 encoding of a rune, as written by [WriteRune] and [%c]. *)
Definition utf8 (r : Z) : string :=
  if r <? 128 then byte r
  else if r <? 2048 then
    (byte (192 + Z.shiftr r 6) ++ byte (128 + Z.land r 63))%string
  else if r <? 65536 then
    (byte (224 + Z.shiftr r 12) ++ byte (128 + Z.land (Z.shiftr r 6) 63)
       ++ byte (128 + Z.land r 63))%string
  else
    (byte (240 + Z.shiftr r 18) ++ byte (128 + Z.land (Z.shiftr r 12) 63)
       ++ byte (128 + Z.land (Z.shiftr r 6) 63)
       ++ byte (128 + Z.land r 63))%string.

Definition brailleFromMask (mask : Z) : Z := 10240 + mask.

Definition esc : ascii := "027"%char.
Definition newline : string := String "010"%char EmptyString.

Definition defaultPlotHeight : Z := 10.
Definition minPlotWidth : Z := 10.
Definition axisLabelTop : string := "100%".
Definition axisLabelMid : string := "50%".
Definition axisLabelBottom : string := "0%".
(** [" │ "]: a space, U+2502, a space. *)
Definition axisSeparator : string := (" " ++ utf8 9474 ++ " ")%string.
Definition scaleNote : string := "Scaled per series; see min/max below.".
Definition colorReset : string := String esc "[0m".
Definition terminalWidthBackup : Z := 80.

Record ansiColor : Type := mkColor { cname : string; code : string }.

Definition colorPalette : list ansiColor :=
  [ mkColor "cyan" (String esc "[36m"); mkColor "magenta" (String esc "[35m");
    mkColor "yellow" (String esc "[33m"); mkColor "green" (String esc "[32m");
    mkColor "blue" (String esc "[34m") ].

(** [colorPalette[i % len(colorPalette)].code]. *)
Definition colorCode (i : Z) : string :=
  code (nth (Z.to_nat (Z.rem i 5)) colorPalette
          (mkColor EmptyString EmptyString)).

(** A non-negative integer in decimal. *)
Definition decimal (n : Z) : string :=
  NilZero.string_of_uint (N.to_uint (Z.to_N n)).

(** The value of a finite float64 in hundredths, rounded to the nearest
    integer, halves to even: the digits [strconv] produces for [%.2f]. *)
Definition hundredths (m : positive) (e : Z) : Z :=
  match e with
  | Zneg p =>
      let n := Zpos m * 100 in
      let d := 2 ^ Zpos p in
      let q := n / d in
      match (2 * (n mod d)) ?= d with
      | Lt => q
      | Gt => q + 1
      | Eq => if Z.even q then q else q + 1
      end
  | _ => Zpos m * 100 * 2 ^ e
  end.

(** The verb [%.2f] of package fmt. *)
Definition fmt_f2 (x : float64) : string :=
  match x with
  | S754_nan => "NaN"
  | S754_infinity false => "+Inf"
  | S754_infinity true => "-Inf"
  | S754_zero s => ((if s then "-" else EmptyString) ++ "0.00")%string
  | S754_finite s m e =>
      let c := hundredths m e in
      ((if s then "-" else EmptyString) ++ decimal (c / 100) ++ "."
         ++ decimal (c mod 100 / 10) ++ decimal (c mod 10))%string
  end.

(** [fmt.Sprintf("%*s", width, s)] for an ASCII [s]. *)
Definition padLeft (width : nat) (s : string) : string :=
  (string_of_list_ascii (repeat " "%char (width - String.length s)) ++ s)%string.

Definition makeAxisLabels (height : Z) : list string :=
  let labels := repeat EmptyString (Z.to_nat height) in
  if height <=? 0 then labels
  else
    let labels := update_nth 0 (fun _ => axisLabelTop) labels in
    let labels :=
      if height >? 2
      then update_nth (Z.to_nat (Z.quot height 2)) (fun _ => axisLabelMid) labels
      else labels in
    if height >? 1
    then update_nth (Z.to_nat (height - 1)) (fun _ => axisLabelBottom) labels
    else labels.

(** ** Renderer *)

Record Series : Type := mkSeries { Name : string; Values : list float64 }.

Definition filterSeries (series : list Series) : list Series :=
  filter (fun s => negb (Z.of_nat (List.length (Values s)) =? 0)) series.

Definition maxSeriesLen (series : list Series) : Z :=
  fold_left
    (fun maxLen s =>
       if Z.of_nat (List.length (Values s)) >? maxLen
       then Z.of_nat (List.length (Values s)) else maxLen)
    series 0.

(** What a call reads from its surroundings: the value of the environment
    variable [NO_COLOR], the size [term.GetSize] reports for standard output
    ([None] when it fails), and whether the sink is an [*os.File] that is a
    terminal. *)
Record Env : Type := mkEnv {
  NO_COLOR : string;
  stdoutWidth : option Z;
  sinkIsTerminal : bool
}.

Definition terminalWidth (env : Env) : Z :=
  match stdoutWidth env with
  | Some width => if width <=? 0 then terminalWidthBackup else width
  | None => terminalWidthBackup
  end.

Definition PlotWidthFor (totalWidth : Z) : Z :=
  if totalWidth <=? 0 then minPlotWidth
  else
    let axisWidth := 4 + 3 in
    let plotWidth := totalWidth - axisWidth in
    let plotWidth :=
      if plotWidth <? minPlotWidth then minPlotWidth else plotWidth in
    if plotWidth <? 1 then 1 else plotWidth.

Definition autoPlotWidth (env : Env) : Z := PlotWidthFor (terminalWidth env).

Definition shouldUseColor (env : Env) (force : bool) : bool :=
  if negb (String.eqb (NO_COLOR env) EmptyString) then false
  else if force then true
  else sinkIsTerminal env.

(** The width [plotSeries] draws at, from the [width] it is called with. *)
Definition plotWidth (env : Env) (width : Z) : Z :=
  let width := if width <=? 0 then autoPlotWidth env else width in
  let width := if width <? minPlotWidth then minPlotWidth else width in
  if width <? 1 then 1 else width.

Definition plotHeight (height : Z) : Z :=
  if height <=? 0 then defaultPlotHeight else height.

(** The first loop of [plotSeries]. *)
Fixpoint resampleAll (series : list Series) (width : Z)
  : option (list Series) :=
  match series with
  | [] => Some []
  | s :: rest =>
      match resampleSeries (Values s) width with
      | None => None
      | Some vs =>
          match resampleAll rest width with
          | None => None
          | Some r => Some (mkSeries (Name s) vs :: r)
          end
      end
  end.

(** The rasterization loop of [plotSeries], from series index [si] on. *)
Fixpoint rasterAll (si : Z) (scaled : list Series) (height width : Z)
  : option (list grid) :=
  match scaled with
  | [] => Some []
  | s :: rest =>
      match rasterSeries si (seriesRange (Values s)) height width (Values s) with
      | None => None
      | Some g =>
          match rasterAll (si + 1) rest height width with
          | None => None
          | Some r => Some (g :: r)
          end
      end
  end.

(** ["%s: min=%.2f max=%.2f"] for one resampled series. *)
Definition rangeLine (s : Series) : string :=
  let mm := seriesRange (Values s) in
  (Name s ++ ": min=" ++ fmt_f2 (rmin mm) ++ " max=" ++ fmt_f2 (rmax mm))%string.

(** The text of one cell of a data row. *)
Definition renderCell (useColor : bool) (seriesCells : list grid) (y x : Z)
  : string :=
  let '(mask, colorIdx) := composeCell seriesCells x y in
  let ch := utf8 (brailleFromMask mask) in
  if useColor && (colorIdx >=? 0)
  then (colorCode colorIdx ++ ch ++ colorReset)%string
  else ch.

(** The integers [0, 1, ..., n-1]. *)
Definition upto (n : Z) : list Z := map Z.of_nat (seq 0 (Z.to_nat n)).

Definition rowCells (useColor : bool) (seriesCells : list grid)
  (width y : Z) : list string :=
  map (renderCell useColor seriesCells y) (upto width).

Definition rowPrefix (axisLabels : list string) (y : Z) : string :=
  (padLeft 4 (nth (Z.to_nat y) axisLabels EmptyString) ++ axisSeparator)%string.

Definition dataRow (useColor : bool) (seriesCells : list grid)
  (axisLabels : list string) (width y : Z) : string :=
  (rowPrefix axisLabels y
     ++ String.concat EmptyString (rowCells useColor seriesCells width y))%string.

(** The loop of [renderLegend], from series index [i] on. *)
Fixpoint legendParts (i : Z) (series : list Series) (useColor : bool)
  : list string :=
  match series with
  | [] => []
  | s :: rest =>
      let label :=
        (utf8 (brailleFromMask 1) ++ " " ++ Name s
           ++ " (" ++ sname (styleOf i) ++ ")")%string in
      let label :=
        if useColor then (colorCode i ++ label ++ colorReset)%string
        else label in
      label :: legendParts (i + 1) rest useColor
  end.

Definition renderLegend (series : list Series) (useColor : bool) : string :=
  ("Legend: " ++ String.concat "  " (legendParts 0 series useColor))%string.

(** The lines [plotSeries] prints, in order, each by one [Fprintln] or
    [Fprintf] ending in a newline. *)
Definition plotLines (title : string) (scaled : list Series)
  (seriesCells : list grid) (width height : Z) (useColor : bool)
  : list string :=
  (if String.eqb title EmptyString then [] else [title])
    ++ [scaleNote]
    ++ map rangeLine scaled
    ++ map (dataRow useColor seriesCells (makeAxisLabels height) width)
         (upto height)
    ++ [renderLegend scaled useColor; EmptyString].

(** How a call of [plotSeries] ends. *)
Inductive outcome (W E : Type) : Type :=
| Returns (w : W) (err : option E)
| Panics
| Loops.

Arguments Returns {W E} w err.
Arguments Panics {W E}.
Arguments Loops {W E}.

Section Sink.

(** The output sink: an [io.Writer] with states [W] whose [Write] may fail
    with an error of [E]. *)
Variables W E : Type.
Variable write : W -> string -> W * option E.

(** [fmt.Fprintln(w, line)]: one [Write] of the line and a newline. *)
Definition Fprintln (w : W) (line : string) : W * option E :=
  write w (line ++ newline)%string.

(** Print the lines in order; the first error is returned at once. *)
Fixpoint writeLines (lines : list string) (w : W) : W * option E :=
  match lines with
  | [] => (w, None)
  | line :: rest =>
      match Fprintln w line with
      | (w', None) => writeLines rest w'
      | (w', Some err) => (w', Some err)
      end
  end.

Definition plotSeries (env : Env) (w : W) (title : string)
  (series : list Series) (width height : Z) (forceColor : bool)
  : outcome W E :=
  let series := filterSeries series in
  if Z.of_nat (List.length series) =? 0 then Returns w None
  else if maxSeriesLen series =? 0 then Returns w None
  else
    let height := plotHeight height in
    let width := plotWidth env width in
    match resampleAll series width with
    | None => Panics
    | Some scaled =>
        match rasterAll 0 scaled height width with
        | None => Loops
        | Some seriesCells =>
            let useColor := shouldUseColor env forceColor in
            let '(w', err) :=
              writeLines
                (plotLines title scaled seriesCells width height useColor) w in
            Returns w' err
        end
    end.

End Sink.

Arguments Fprintln {W E} write w line.
Arguments writeLines {W E} write lines w.
Arguments plotSeries {W E} write env w title series width height forceColor.

(** A [bytes.Buffer] as sink: every write appends and succeeds. *)
Definition bufferWrite (buf : string) (p : string) : string * option unit :=
  ((buf ++ p)%string, None).


(** [PlotSeries] into an empty buffer: the text produced. *)
Definition renderToBuffer (env : Env) (title : string) (series : list Series)
  (width height : Z) (forceColor : bool) : outcome string unit :=
  plotSeries bufferWrite env EmptyString title series width height forceColor.

(** Sample values. *)
Definition two : float64 := of_int 2.
Definition three : float64 := of_int 3.
Definition four : float64 := of_int 4.
Definition five : float64 := of_int 5.
Definition ten : float64 := of_int 10.

Definition quietEnv : Env := mkEnv EmptyString None false.

Definition seriesA : Series := mkSeries "A" [one; two; three; two; one].
Definition seriesB : Series := mkSeries "B" [one; one; two; three; four].

(** ** Notions used to state the properties of float64 arithmetic *)

Definition roundsUp (n m : Z) (loc : location) : Prop :=
  (n = 0 /\ (loc = loc_Inexact Eq \/ loc = loc_Inexact Gt)) \/
  (0 < n /\ Z.testbit m (n - 1) = true).

(** A positive float64 in normal form whose value is the integer [z]. *)
Definition isInt (x : float64) (z : Z) : Prop :=
  exists (m : positive) (e : Z),
    x = S754_finite false m e /\ 2 ^ 52 <= Zpos m < 2 ^ 53 /\
    -52 <= e <= 0 /\ Zpos m = z * 2 ^ (- e).

(** The real number a float64 stands for (0 for NaN and the infinities). *)
Definition B2R (x : float64) : R :=
  match x with
  | S754_finite s m e =>
      ((if s then -1 else 1) * IZR (Zpos m) * powerRZ 2 e)%R
  | _ => 0%R
  end.

(** The relative rounding error bound used below: one unit in the last
    place of a 53-digit mantissa. *)
Definition ulp52 : R := (/ IZR (2 ^ 52))%R.

(** A positive float64 in normal form with its exponent in a range. *)
Definition normalPos (x : float64) (lo hi : Z) : Prop :=
  exists (m : positive) (e : Z),
    x = S754_finite false m e /\ 2 ^ 52 <= Zpos m < 2 ^ 53 /\ lo <= e <= hi.

(** ** The downsampling blocks as the specification words them *)

(** [floor(i * len / width)]. *)
Definition specEdge (n width i : Z) : Z := i * n / width.

(** [start = floor(i*len/width)], [end = floor((i+1)*len/width)], with [end]
    forced to [start + 1] when [end <= start] and capped at [len]. *)
Definition specBounds (n width i : Z) : Z * Z :=
  let start := specEdge n width i in
  let end0 := specEdge n width (i + 1) in
  let end1 := if end0 <=? start then start + 1 else end0 in
  let end2 := if end1 >? n then n else end1 in
  (start, end2).

(** Index [j] lies in the block with bounds [b]. *)
Definition inBlock (b : Z * Z) (j : Z) : Prop := fst b <= j < snd b.

(** The downsampling pass of [resampleSeries] on [values] at [width]:
    the blocks are the ones of the specification, their bounds never
    decrease, every input index lies in exactly one block, the last block
    ends at the end of the input, and every output sample is the mean of
    its block. *)
Definition downsampleCoverage (values : list float64) (width : Z) : Prop :=
  let n := Z.of_nat (List.length values) in
  let block := blockBounds n width in
  (forall i, 0 <= i < width -> block i = specBounds n width i) /\
  (forall i, 0 <= i < width -> fst (block i) <= snd (block i)) /\
  (forall i, 0 <= i < width - 1 -> snd (block i) <= fst (block (i + 1))) /\
  (forall j, 0 <= j < n ->
     exists i, 0 <= i < width /\ inBlock (block i) j /\
       forall i', 0 <= i' < width -> inBlock (block i') j -> i' = i) /\
  snd (block (width - 1)) = n /\
  exists out,
    resampleSeries values width = Some out /\
    Z.of_nat (List.length out) = width /\
    forall i, 0 <= i < width ->
      exists blk,
        slice values (fst (block i)) (snd (block i)) = Some blk /\
        blk <> [] /\
        index out i
        = Some (div (sumBlock blk) (of_int (Z.of_nat (List.length blk)))).

(** ** Notions used to state the properties of the rasterizer *)

(** Two dots next to each other: a step of at most one in each direction,
    and not the same dot. *)
Definition adjacent (p q : Z * Z) : Prop :=
  Z.abs (fst q - fst p) <= 1 /\ Z.abs (snd q - snd p) <= 1 /\ p <> q.

(** A path without gaps: each dot is next to its successor. *)
Fixpoint connected (pts : list (Z * Z)) : Prop :=
  match pts with
  | p :: (q :: _) as rest => adjacent p q /\ connected rest
  | _ => True
  end.

(** The mask of the cell at column [cx] of row [cy] (0 outside the grid). *)
Definition cellAt (cells : grid) (cx cy : Z) : Z :=
  if (cy <? 0) || (cx <? 0) then 0
  else nth (Z.to_nat cx) (nth (Z.to_nat cy) cells []) 0.

(** The dot [(x, y)] lies on the canvas of [cells]. *)
Definition onCanvas (cells : grid) (x y : Z) : Prop :=
  0 <= x /\ 0 <= y /\
  Z.quot y 4 < Z.of_nat (List.length cells) /\
  Z.quot x 2 < Z.of_nat (List.length (nth (Z.to_nat (Z.quot y 4)) cells [])).


(** The coordinates of a dot are in the range where none of the [int]
    operations of [drawLine] overflows. *)
Definition dotRange (x y : Z) : Prop :=
  Z.abs x <= 2 ^ 51 /\ Z.abs y <= 2 ^ 51.


(** The state of the loop of [drawLine] after [a] steps along x and [b]
    steps along y from the first endpoint. *)
Definition lineBox (x0 y0 x1 y1 a b : Z) (s : lineState) : Prop :=
  0 <= a <= Z.abs (x1 - x0) /\ 0 <= b <= Z.abs (y1 - y0) /\
  lx s = x0 + a * lineSx x0 x1 /\ ly s = y0 + b * lineSy y0 y1.

(** The same with the error term the algorithm maintains, which stays
    within twice the lengths of the segment along the axes. *)
Definition lineInv (x0 y0 x1 y1 a b : Z) (s : lineState) : Prop :=
  lineBox x0 y0 x1 y1 a b s /\
  lerr s = (b + 1) * Z.abs (x1 - x0) - (a + 1) * Z.abs (y1 - y0) /\
  - 2 * Z.abs (y1 - y0) <= lerr s <= 2 * Z.abs (x1 - x0).

(** A value of Go's type [int]. *)
Definition inInt64 (z : Z) : Prop := - 2 ^ 63 <= z < 2 ^ 63.

(** The number of unit steps from a state of the loop of [drawLine] to the
    second endpoint. *)
Definition stepsLeft (x1 y1 : Z) (s : lineState) : Z :=
  Z.abs (x1 - lx s) + Z.abs (y1 - ly s).

(** A callback that leaves its argument as it is. *)
Definition plotNothing (x y : Z) (u : unit) : unit := u.

(** ** Notions used to state the properties of the compositor and renderer *)

(** The bitwise OR of the masks of all series at one cell. *)
Definition orOfMasks (seriesCells : list grid) (x y : Z) : Z :=
  fold_left Z.lor (map (fun cells => cellAt cells x y) seriesCells) 0.

(** [i] is the lowest index of a series with a nonzero mask at the cell, or
    -1 when there is none. *)
Definition lowestOwner (seriesCells : list grid) (x y : Z) (i : Z) : Prop :=
  (i = -1 /\ Forall (fun cells => cellAt cells x y = 0) seriesCells) \/
  (0 <= i < Z.of_nat (List.length seriesCells) /\
   cellAt (nth (Z.to_nat i) seriesCells []) x y <> 0 /\
   forall j, 0 <= j < i -> cellAt (nth (Z.to_nat j) seriesCells []) x y = 0).

(** The string contains the escape byte 0x1b. *)
Fixpoint hasEsc (s : string) : bool :=
  match s with
  | EmptyString => false
  | String c rest => Ascii.eqb c esc || hasEsc rest
  end.

(** All the masks of a grid are 8-bit values. *)
Definition byteGrid (cells : grid) : Prop :=
  Forall (Forall (fun m => 0 <= m < 256)) cells.

(** The text of a row of Braille glyphs, from their masks. *)
Definition glyphs (masks : list Z) : string :=
  String.concat EmptyString (map (fun m => utf8 (brailleFromMask m)) masks).

(** The text that ends up in the sink when every line is written. *)
Definition textOf (lines : list string) : string :=
  String.concat EmptyString (map (fun l => (l ++ newline)%string) lines).

(** The byte can be the second byte of the UTF-8 encoding of a Braille
    pattern: U+2800 to U+28FF are the sequences E2, A0..A3, 80..BF. *)
Definition brailleSecond (c : ascii) : bool :=
  (160 <=? Z.of_N (N_of_ascii c)) && (Z.of_N (N_of_ascii c) <=? 163).

Definition startsBrailleSecond (s : string) : bool :=
  match s with
  | String c _ => brailleSecond c
  | EmptyString => false
  end.

(** The number of Braille patterns (the cells of a data row) in a UTF-8
    text: its bytes E2 that are followed by a byte A0..A3. *)
Fixpoint brailleCells (s : string) : Z :=
  match s with
  | EmptyString => 0
  | String c rest =>
      (if Ascii.eqb c "226"%char && startsBrailleSecond rest then 1 else 0)
      + brailleCells rest
  end.

(** * The rest of package stats: metrics, moving average, sparkline, report
      windows, tables and the callers of the plot engine *)

(** ** Sessions (internal/model/types.go) *)

(** [model.SessionAggregate]; the time stamp [EndedAt] is not read by the
    functions embedded here. *)
Record SessionAggregate : Type := mkSession {
  SessionID : Z;
  Correct : Z;
  Incorrect : Z;
  DurationMs : Z
}.

(** ** Metrics and moving average (internal/stats, render file) *)

(** Go's [<=] on float64 (false on NaN). *)
Definition fle : float64 -> float64 -> bool := SFleb.

(** [SessionMetrics]: words per minute, characters per minute, accuracy. *)
Definition SessionMetrics (correct incorrect durationMs : Z)
  : float64 * float64 * float64 :=
  if durationMs <=? 0 then (zero, zero, zero)
  else
    let minutes := div (of_int durationMs) (of_int 60000) in
    if fle minutes zero then (zero, zero, zero)
    else
      let wpm := div (div (of_int correct) (of_int 5)) minutes in
      let cpm := div (of_int correct) minutes in
      let den := of_int (wrap64 (correct + incorrect)) in
      let accuracy := if gtb den zero then div (of_int correct) den else zero in
      (wpm, cpm, accuracy).

(** The body of the loop of [MovingAverage] at index [i], entered with the
    running sum [sum]: the sum it leaves and the value of [out[i]]. *)
Definition movingStep (values : list float64) (window i : Z) (sum : float64)
  : option (float64 * float64) :=
  match index values i with
  | None => None
  | Some v =>
      let sum1 := add sum v in
      let sum2 :=
        if i >=? window then
          match index values (i - window) with
          | Some u => Some (sub sum1 u)
          | None => None
          end
        else Some sum1 in
      match sum2 with
      | None => None
      | Some s =>
          let den := if i >=? window then of_int window else of_int (i + 1) in
          Some (s, div s den)
      end
  end.

(** The loop of [MovingAverage] from index [i] on, for [n] iterations. *)
Fixpoint movingLoop (values : list float64) (window : Z) (i : Z) (n : nat)
  (sum : float64) : option (list float64) :=
  match n with
  | O => Some []
  | S k =>
      match movingStep values window i sum with
      | None => None
      | Some (sum', o) =>
          match movingLoop values window (i + 1) k sum' with
          | None => None
          | Some r => Some (o :: r)
          end
      end
  end.

(** [MovingAverage]; [None] is an index panic. *)
Definition MovingAverage (values : list float64) (window : Z)
  : option (list float64) :=
  if (window <=? 1) || (Z.of_nat (List.length values) =? 0) then Some values
  else movingLoop values window 0 (List.length values) zero.

(** ** Sparkline *)

(** [" .:-=+*#%@"]. *)
Definition sparkChars : list ascii :=
  list_ascii_of_string " .:-=+*#%@".

(** The loop that keeps the running minimum and maximum, in [Sparkline] as
    in [seriesMinMaxSingle]. *)
Definition runningRange (values : list float64) (acc : float64 * float64)
  : float64 * float64 :=
  fold_left
    (fun (acc : float64 * float64) (v : float64) =>
       let '(mn, mx) := acc in
       let mn' := if ltb v mn then v else mn in
       let mx' := if gtb v mx then v else mx in
       (mn', mx'))
    values acc.

(** The running minimum and maximum of [Sparkline], from [values[0]]. *)
Definition sparkRange (first : float64) (rest : list float64)
  : float64 * float64 :=
  runningRange rest (first, first).

(** The index into [sparkChars] for one value. *)
Definition sparkIndex (v minVal maxVal : float64) : Z :=
  let n := Z.of_nat (List.length sparkChars) in
  let pos := div (sub v minVal) (sub maxVal minVal) in
  let idx := to_int (round (mul pos (of_int (n - 1)))) in
  let idx := if idx <? 0 then 0 else idx in
  if idx >=? n then n - 1 else idx.

(** The second loop of [Sparkline]. *)
Fixpoint sparkBytes (values : list float64) (minVal maxVal : float64)
  : option (list ascii) :=
  match values with
  | [] => Some []
  | v :: rest =>
      match index sparkChars (sparkIndex v minVal maxVal),
            sparkBytes rest minVal maxVal with
      | Some c, Some r => Some (c :: r)
      | _, _ => None
      end
  end.

(** [Sparkline]; [None] is an index panic. *)
Definition Sparkline (values : list float64) : option string :=
  match values with
  | [] => Some EmptyString
  | first :: rest =>
      let '(minVal, maxVal) := sparkRange first rest in
      if ltb (abs (sub maxVal minVal)) eps_1e9 then
        match index sparkChars (Z.quot (Z.of_nat (List.length sparkChars)) 2) with
        | Some c =>
            Some (string_of_list_ascii (repeat c (List.length values)))
        | None => None
        end
      else
        match sparkBytes values minVal maxVal with
        | Some bytes => Some (string_of_list_ascii bytes)
        | None => None
        end
  end.

(** ** Report windows (internal/stats/report.go) *)

Definition sessionIDs (sessions : list SessionAggregate) : list Z :=
  map SessionID sessions.

(** [lastSessionIDs]; [None] is a slice panic. *)
Definition lastSessionIDs (sessions : list SessionAggregate) (window : Z)
  : option (list Z) :=
  let n := Z.of_nat (List.length sessions) in
  if (window <=? 0) || (n <=? window) then Some (sessionIDs sessions)
  else
    match slice sessions (n - window) n with
    | Some s => Some (sessionIDs s)
    | None => None
    end.

(** ** Learning curves: the caller of the plot engine *)

Section Curves.

Variables W E : Type.
Variable write : W -> string -> W * option E.

(** [RenderCurvesWithSize]. *)
Definition RenderCurvesWithSize (env : Env) (w : W)
  (sessions : list SessionAggregate) (window totalWidth height : Z)
  (useColor : bool) : outcome W E :=
  if Z.of_nat (List.length sessions) =? 0 then Returns w None
  else
    let wpms :=
      map (fun s =>
             let '(wpm, _, _) :=
               SessionMetrics (Correct s) (Incorrect s) (DurationMs s) in
             wpm) sessions in
    let accs :=
      map (fun s =>
             let '(_, _, acc) :=
               SessionMetrics (Correct s) (Incorrect s) (DurationMs s) in
             mul acc (of_int 100)) sessions in
    match MovingAverage wpms window, MovingAverage accs window with
    | Some wpms', Some accs' =>
        let width := if totalWidth >? 0 then PlotWidthFor totalWidth else 0 in
        plotSeries write env w "Learning Curves"
          [mkSeries "WPM" wpms'; mkSeries "Accuracy" accs']
          width height useColor
    | _, _ => Panics
    end.

(** [RenderCurves]. *)
Definition RenderCurves (env : Env) (w : W)
  (sessions : list SessionAggregate) (window : Z) : outcome W E :=
  RenderCurvesWithSize env w sessions window 0 10 false.

End Curves.

Arguments RenderCurvesWithSize {W E} write env w sessions window totalWidth
  height useColor.
Arguments RenderCurves {W E} write env w sessions window.

(** ** Tables (internal/stats, table file) *)

(** [strings.Repeat(" ", n)] for [n >= 0]. *)
Definition spaces (n : Z) : string :=
  string_of_list_ascii (repeat " "%char (Z.to_nat n)).

(** [row[i]] when [i < len(row)], the empty string otherwise. *)
Definition cellOf (row : list string) (i : Z) : string :=
  if i <? Z.of_nat (List.length row)
  then nth (Z.to_nat i) row EmptyString else EmptyString.

Section Table.

(** [utf8.RuneCountInString], of the Go library. *)
Variable displayWidth : string -> Z.

(** [rightAlignCols[i]]: a missing key reads as [false]. *)
Variable rightAlignCols : Z -> bool.

Definition padCell (value : string) (width : Z) (rightAlign : bool)
  : string :=
  let valueWidth := displayWidth value in
  if valueWidth >=? width then value
  else
    let padding := width - valueWidth in
    if rightAlign then (spaces padding ++ value)%string
    else (value ++ spaces padding)%string.

(** The loop of [formatRow] from column [i] on, over the remaining
    [widths]. *)
Fixpoint formatCells (row : list string) (i : Z) (widths : list Z)
  : string :=
  match widths with
  | [] => EmptyString
  | wd :: rest =>
      ((if i >? 0 then " " else EmptyString)
         ++ padCell (cellOf row i) wd (rightAlignCols i)
         ++ formatCells row (i + 1) rest)%string
  end.

Definition formatRow (row : list string) (widths : list Z) : string :=
  formatCells row 0 widths.

(** The first loop of [formatTable]: the number of columns. *)
Definition columnCount (headers : list string) (rows : list (list string))
  : Z :=
  fold_left
    (fun colCount row =>
       if Z.of_nat (List.length row) >? colCount
       then Z.of_nat (List.length row) else colCount)
    rows (Z.of_nat (List.length headers)).

(** The widths after the loop over the headers: the width of the header
    where there is one, 0 elsewhere. *)
Definition headerWidths (headers : list string) (colCount : Z) : list Z :=
  map (fun i =>
         if i <? Z.of_nat (List.length headers)
         then displayWidth (cellOf headers i) else 0)
    (upto colCount).

(** The inner loop over the columns of one row, from column [i] on. *)
Fixpoint widenFrom (row : list string) (i : Z) (widths : list Z) : list Z :=
  match widths with
  | [] => []
  | wd :: rest =>
      let c := displayWidth (cellOf row i) in
      (if c >? wd then c else wd) :: widenFrom row (i + 1) rest
  end.

Definition columnWidths (headers : list string) (rows : list (list string))
  : list Z :=
  fold_left (fun widths row => widenFrom row 0 widths) rows
    (headerWidths headers (columnCount headers rows)).

Definition formatTable (headers : list string) (rows : list (list string))
  : list string :=
  if columnCount headers rows =? 0 then []
  else
    let widths := columnWidths headers rows in
    (if Z.of_nat (List.length headers) >? 0
     then [formatRow headers widths] else [])
      ++ map (fun row => formatRow row widths) rows.

End Table.

(** ** Notions used to state the properties of these functions *)

(** The number of characters of a well-formed UTF-8 text: its bytes that
    are not continuation bytes (10xxxxxx). *)
Fixpoint codePoints (s : string) : Z :=
  match s with
  | EmptyString => 0
  | String c rest =>
      (if (Z.of_N (N_of_ascii c) <? 128) || (192 <=? Z.of_N (N_of_ascii c))
       then 1 else 0) + codePoints rest
  end.

(** The number of line breaks (bytes 0x0a) of a text. *)
Fixpoint lineBreaks (s : string) : Z :=
  match s with
  | EmptyString => 0
  | String c rest =>
      (if Ascii.eqb c "010"%char then 1 else 0) + lineBreaks rest
  end.

(** A value that is neither NaN nor infinite. *)
Definition isFinite (x : float64) : bool :=
  match x with
  | S754_zero _ | S754_finite _ _ _ => true
  | _ => false
  end.

(** A value that is zero or positive (and not NaN). *)
Definition notNegative (x : float64) : bool :=
  match x with
  | S754_nan => false
  | S754_zero _ => true
  | S754_infinity s | S754_finite s _ _ => negb s
  end.

(** A float64 in normal form: a mantissa of exactly 53 digits, as every
    finite value of magnitude [2^-1022] or more has. *)
Definition isNormal (x : float64) : bool :=
  match x with
  | S754_finite _ m _ => (2 ^ 52 <=? Zpos m) && (Zpos m <? 2 ^ 53)
  | _ => false
  end.

(** A sink that counts the writes it receives and fails at write number
    [k] (counted from 0). *)
Definition failingWrite (k : nat) (n : nat) (p : string)
  : nat * option unit :=
  (S n, if Nat.eqb n k then Some tt else None).

(** The sum of a list of widths. *)
Definition sumZ (l : list Z) : Z := fold_right Z.add 0 l.

(** The number of columns [from, from + n) that a style plots. *)
Fixpoint plottedIn (style : lineStyle) (from : Z) (n : nat) : Z :=
  match n with
  | O => 0
  | S k => (if shouldPlot style from then 1 else 0)
           + plottedIn style (from + 1) k
  end.
(** * Properties of float64 arithmetic *)

Lemma digits2_pos_bounds (p : positive) :
  2 ^ (Zpos (digits2_pos p) - 1) <= Zpos p < 2 ^ Zpos (digits2_pos p).
Proof.
  induction p as [p IH | p IH | ]; simpl digits2_pos.
  - rewrite Pos2Z.inj_succ, (Pos2Z.inj_xI p).
    replace (Z.succ (Zpos (digits2_pos p)) - 1) with (Z.succ (Zpos (digits2_pos p) - 1)) by lia.
    rewrite !Z.pow_succ_r by lia.
    destruct IH as [IH1 IH2]. revert IH1 IH2.
    generalize (2 ^ (Zpos (digits2_pos p) - 1)) (2 ^ Zpos (digits2_pos p)). lia.
  - rewrite Pos2Z.inj_succ, (Pos2Z.inj_xO p).
    replace (Z.succ (Zpos (digits2_pos p)) - 1) with (Z.succ (Zpos (digits2_pos p) - 1)) by lia.
    rewrite !Z.pow_succ_r by lia.
    destruct IH as [IH1 IH2]. revert IH1 IH2.
    generalize (2 ^ (Zpos (digits2_pos p) - 1)) (2 ^ Zpos (digits2_pos p)). lia.
  - simpl. lia.
Qed.

Lemma digits2_pos_unique (p : positive) (d : Z) :
  2 ^ (d - 1) <= Zpos p < 2 ^ d -> Zpos (digits2_pos p) = d.
Proof.
  intros [Hlo Hhi].
  pose proof (digits2_pos_bounds p) as [Blo Bhi].
  assert (0 < d).
  { destruct (Z_lt_le_dec 0 d); [assumption|].
    assert (2 ^ d <= 1).
    { destruct (Z.eq_dec d 0) as [->|]; [simpl; lia|].
      rewrite Z.pow_neg_r by lia. lia. }
    lia. }
  destruct (Z_lt_le_dec (Zpos (digits2_pos p)) d) as [Hlt|Hge].
  - assert (2 ^ Zpos (digits2_pos p) <= 2 ^ (d - 1)) by (apply Z.pow_le_mono_r; lia). lia.
  - destruct (Z_lt_le_dec d (Zpos (digits2_pos p))) as [Hlt|Hge'].
    + assert (2 ^ d <= 2 ^ (Zpos (digits2_pos p) - 1)) by (apply Z.pow_le_mono_r; lia). lia.
    + lia.
Qed.

Lemma iter_pos_nat {A : Type} (f : A -> A) (p : positive) (x : A) :
  SpecFloat.iter_pos f p x = Nat.iter (Pos.to_nat p) f x.
Proof.
  revert x. induction p as [p IH | p IH | ]; intro x; simpl SpecFloat.iter_pos.
  - rewrite !IH, Pos2Nat.inj_xI.
    replace (S (2 * Pos.to_nat p))%nat with (Pos.to_nat p + S (Pos.to_nat p))%nat by lia.
    rewrite Nat.iter_add. f_equal. now rewrite Nat.iter_succ_r.
  - rewrite !IH, Pos2Nat.inj_xO.
    replace (2 * Pos.to_nat p)%nat with (Pos.to_nat p + Pos.to_nat p)%nat by lia.
    now rewrite Nat.iter_add.
  - reflexivity.
Qed.

Lemma shr_1_spec (r : shr_record) :
  0 <= shr_m r ->
  shr_m (shr_1 r) = shr_m r / 2 /\ shr_r (shr_1 r) = Z.odd (shr_m r).
Proof.
  destruct r as [m r s]; simpl shr_m. intro Hm.
  destruct m as [ | p | p ]; [ | | lia ].
  - simpl. auto.
  - destruct p as [p | p | ]; simpl shr_1; simpl shr_m; simpl shr_r.
    + split; [ | reflexivity ].
      rewrite (Pos2Z.inj_xI p). apply Z.div_unique with 1; lia.
    + split; [ | reflexivity ].
      rewrite (Pos2Z.inj_xO p). apply Z.div_unique with 0; lia.
    + split; reflexivity.
Qed.

Lemma shr_iter_spec (n : nat) (r : shr_record) :
  0 <= shr_m r ->
  shr_m (Nat.iter (S n) shr_1 r) = shr_m r / 2 ^ Z.of_nat (S n) /\
  shr_r (Nat.iter (S n) shr_1 r) = Z.testbit (shr_m r) (Z.of_nat n).
Proof.
  revert r. induction n as [ | n IH ]; intros r Hm.
  - simpl Nat.iter. destruct (shr_1_spec r Hm) as [H1 H2].
    rewrite H1, H2. split; [ reflexivity | ].
    now rewrite Z.bit0_odd.
  - rewrite Nat.iter_succ_r.
    destruct (shr_1_spec r Hm) as [H1 H2].
    assert (H0 : 0 <= shr_m (shr_1 r)).
    { rewrite H1. apply Z.div_pos; lia. }
    destruct (IH (shr_1 r) H0) as [I1 I2].
    rewrite I1, I2, H1. split.
    + rewrite Z.div_div by lia.
      f_equal. rewrite (Nat2Z.inj_succ (S n)), Z.pow_succ_r by lia. reflexivity.
    + rewrite (Nat2Z.inj_succ n).
      apply Z.div2_bits. lia.
Qed.

(** The shift of [shr] by a positive amount. *)
Lemma shr_pos_spec (r : shr_record) (e n : Z) :
  0 <= shr_m r -> 0 < n ->
  shr_m (fst (shr r e n)) = shr_m r / 2 ^ n /\
  shr_r (fst (shr r e n)) = Z.testbit (shr_m r) (n - 1) /\
  snd (shr r e n) = e + n.
Proof.
  intros Hm Hn. destruct n as [ | p | p ]; try lia.
  unfold shr. simpl fst. simpl snd. rewrite iter_pos_nat.
  destruct (Pos2Nat.is_succ p) as [k Hk]. rewrite Hk.
  destruct (shr_iter_spec k r Hm) as [H1 H2].
  rewrite H1, H2.
  assert (Z.of_nat (S k) = Zpos p) by (rewrite <- Hk; apply positive_nat_Z).
  repeat split.
  - now rewrite H.
  - f_equal. lia.
Qed.

Lemma fexp_normal (x : Z) : -1074 <= x - 53 -> fexp prec emax x = x - 53.
Proof. unfold fexp, emin, prec, emax. lia. Qed.

Lemma Zdigits2_unique (m d : Z) :
  0 < m -> 2 ^ (d - 1) <= m < 2 ^ d -> Zdigits2 m = d.
Proof.
  intros Hm H. destruct m as [ | p | p ]; try lia.
  simpl. now apply digits2_pos_unique.
Qed.

Lemma loc_of_shr_record_of_loc (m : Z) (loc : location) :
  loc_of_shr_record (shr_record_of_loc m loc) = loc.
Proof. destruct loc as [ | [ | | ] ]; reflexivity. Qed.

Lemma shr_m_of_loc (m : Z) (loc : location) :
  shr_m (shr_record_of_loc m loc) = m.
Proof. destruct loc as [ | [ | | ] ]; reflexivity. Qed.

Lemma round_nearest_even_r (r : shr_record) :
  round_nearest_even (shr_m r) (loc_of_shr_record r) = shr_m r \/
  (round_nearest_even (shr_m r) (loc_of_shr_record r) = shr_m r + 1 /\
   shr_r r = true).
Proof.
  destruct r as [m [ | ] [ | ] ]; simpl; auto.
  destruct (Z.even m); auto.
Qed.

Lemma first_shift (m e : Z) (loc : location) (n : Z) :
  0 < m -> 0 <= n ->
  2 ^ (52 + n) <= m < 2 ^ (53 + n) -> -1074 <= e + n ->
  exists r1,
    shr_fexp prec emax m e loc = (r1, e + n) /\
    (round_nearest_even (shr_m r1) (loc_of_shr_record r1) = m / 2 ^ n \/
     (round_nearest_even (shr_m r1) (loc_of_shr_record r1) = m / 2 ^ n + 1 /\
      roundsUp n m loc)).
Proof.
  intros Hm Hn Hd He. unfold shr_fexp.
  rewrite (Zdigits2_unique m (53 + n)) by (try assumption; now replace (53 + n - 1) with (52 + n) by lia).
  rewrite fexp_normal by lia.
  replace (53 + n + e - 53 - e) with n by lia.
  destruct (Z.eq_dec n 0) as [-> | Hn0].
  - exists (shr_record_of_loc m loc). split.
    + simpl. f_equal. lia.
    + rewrite loc_of_shr_record_of_loc, shr_m_of_loc, Z.pow_0_r, Z.div_1_r.
      destruct loc as [ | [ | | ] ]; simpl; auto.
      * destruct (Z.even m); auto.
        right. split; auto. left. auto.
      * right. split; auto. left; auto.
  - pose proof (shr_pos_spec (shr_record_of_loc m loc) e n) as H.
    rewrite shr_m_of_loc in H.
    destruct H as (H1 & H2 & H3); try lia.
    destruct (shr (shr_record_of_loc m loc) e n) as [r1 e1]. simpl in H1, H2, H3.
    subst e1. exists r1. split; [ reflexivity | ].
    destruct (round_nearest_even_r r1) as [R | [R Rr] ]; rewrite R, H1; auto.
    right. split; auto. right. split; [ lia | ]. now rewrite <- H2.
Qed.

Lemma div_pow2_bounds (m n : Z) :
  0 <= n -> 2 ^ (52 + n) <= m < 2 ^ (53 + n) ->
  2 ^ 52 <= m / 2 ^ n < 2 ^ 53.
Proof.
  intros Hn [Hlo Hhi].
  rewrite Z.pow_add_r in Hlo, Hhi by lia.
  assert (0 < 2 ^ n) by (apply Z.pow_pos_nonneg; lia).
  split.
  - apply Z.div_le_lower_bound; lia.
  - apply Z.div_lt_upper_bound; lia.
Qed.

Lemma second_shift_same (m2 e2 : Z) :
  2 ^ 52 <= m2 < 2 ^ 53 -> -1074 <= e2 ->
  shr_fexp prec emax m2 e2 loc_Exact = (Build_shr_record m2 false false, e2).
Proof.
  intros Hm He. unfold shr_fexp.
  rewrite (Zdigits2_unique m2 53) by (simpl in *; lia).
  rewrite fexp_normal by lia.
  replace (53 + e2 - 53 - e2) with 0 by lia. reflexivity.
Qed.

Lemma second_shift_carry (e2 : Z) :
  -1074 <= e2 ->
  shr_fexp prec emax (2 ^ 53) e2 loc_Exact
  = (Build_shr_record (2 ^ 52) false false, e2 + 1).
Proof.
  intros He. unfold shr_fexp.
  rewrite (Zdigits2_unique (2 ^ 53) 54) by (simpl; lia).
  rewrite fexp_normal by lia.
  replace (54 + e2 - 53 - e2) with 1 by lia. reflexivity.
Qed.

Lemma round_aux_normal (s : bool) (m e : Z) (loc : location) (n : Z) :
  0 < m -> 0 <= n ->
  2 ^ (52 + n) <= m < 2 ^ (53 + n) ->
  -1074 <= e + n -> e + n + 1 <= 971 ->
  exists (m' : positive) (e' : Z),
    binary_round_aux prec emax s m e loc = S754_finite s m' e' /\
    2 ^ 52 <= Zpos m' < 2 ^ 53 /\
    ((e' = e + n /\ Zpos m' = m / 2 ^ n) \/
     (roundsUp n m loc /\
      ((e' = e + n /\ Zpos m' = m / 2 ^ n + 1) \/
       (e' = e + n + 1 /\ Zpos m' = 2 ^ 52 /\ m / 2 ^ n + 1 = 2 ^ 53)))).
Proof.
  intros Hm Hn Hd He1 He2.
  destruct (first_shift m e loc n Hm Hn Hd He1) as (r1 & S1 & R).
  pose proof (div_pow2_bounds m n Hn Hd) as B.
  unfold binary_round_aux. rewrite S1.
  set (m2 := round_nearest_even (shr_m r1) (loc_of_shr_record r1)) in *.
  assert (Hcase : m2 < 2 ^ 53 \/ m2 = 2 ^ 53) by (destruct R as [R | [R _] ]; lia).
  destruct Hcase as [Hlt | Heq].
  - rewrite second_shift_same by (try lia; destruct R as [R | [R _] ]; lia).
    simpl shr_m.
    destruct m2 as [ | p2 | p2 ] eqn:E2; try (destruct R as [R | [R _] ]; lia).
    replace (e + n <=? emax - prec) with true
      by (symmetry; apply Z.leb_le; unfold emax, prec; lia).
    exists p2, (e + n). split; [ reflexivity | ].
    split; [ destruct R as [R | [R _] ]; lia | ].
    destruct R as [R | [R U] ]; [ left | right ]; auto.
  - rewrite Heq, second_shift_carry by lia.
    simpl shr_m.
    replace (e + n + 1 <=? emax - prec) with true
      by (symmetry; apply Z.leb_le; unfold emax, prec; lia).
    exists (Z.to_pos (2 ^ 52)), (e + n + 1). split; [ reflexivity | ].
    split; [ simpl; lia | ].
    destruct R as [R | [R U] ]; [ lia | ].
    right. split; auto. right. repeat split. lia.
Qed.

Lemma iter_xO_spec (p k : positive) :
  Zpos (Pos.iter xO p k) = Zpos p * 2 ^ Zpos k.
Proof.
  induction k as [ | k IH ] using Pos.peano_ind.
  - simpl. lia.
  - rewrite Pos.iter_succ, Pos2Z.inj_xO, IH, Pos2Z.inj_succ, Z.pow_succ_r by lia.
    lia.
Qed.

Lemma exact_not_roundsUp (m : Z) : ~ roundsUp 0 m loc_Exact.
Proof. intros [ [_ [H | H] ] | [H _] ]; try discriminate; lia. Qed.

Lemma pow2_pos (k : Z) : 0 <= k -> 0 < 2 ^ k.
Proof. intros. apply Z.pow_pos_nonneg; lia. Qed.

(** The conversion of an integer below [2^53] is exact, whatever its
    sign. *)
Lemma binary_round_int (s : bool) (p : positive) :
  Zpos p < 2 ^ 53 ->
  exists (m : positive) (e : Z),
    binary_round prec emax s p 0 = S754_finite s m e /\
    2 ^ 52 <= Zpos m < 2 ^ 53 /\ -52 <= e <= 0 /\
    Zpos m = Zpos p * 2 ^ (- e).
Proof.
  intros Hz1.
  unfold binary_round.
  pose proof (digits2_pos_bounds p) as [Dlo Dhi].
  set (d := Zpos (digits2_pos p)) in *.
  assert (Hd : 1 <= d <= 53).
  { split; [ unfold d; lia | ].
    destruct (Z_lt_le_dec 53 d); [ | assumption ].
    assert (2 ^ 53 <= 2 ^ (d - 1)) by (apply Z.pow_le_mono_r; lia). lia. }
  rewrite Z.add_0_r, fexp_normal by lia.
  unfold shl_align. rewrite Z.sub_0_r.
  assert (Hshift : exists mz : positive,
             (match d - 53 with
              | Zneg k => (Pos.iter xO p k, d - 53)
              | _ => (p, 0)
              end) = (mz, d - 53) /\ Zpos mz = Zpos p * 2 ^ (53 - d)).
  { destruct (d - 53) as [ | k | k ] eqn:E; try lia.
    - exists p. split; [ reflexivity | ]. replace (53 - d) with 0 by lia. lia.
    - exists (Pos.iter xO p k). split; [ reflexivity | ].
      rewrite iter_xO_spec. f_equal. f_equal. lia. }
  destruct Hshift as (mz & -> & Hmz).
  assert (Hb : 2 ^ (52 + 0) <= Zpos mz < 2 ^ (53 + 0)).
  { assert (P52 : 2 ^ 52 = 2 ^ (d - 1) * 2 ^ (53 - d))
      by (rewrite <- Z.pow_add_r by lia; f_equal; lia).
    assert (P53 : 2 ^ 53 = 2 ^ d * 2 ^ (53 - d))
      by (rewrite <- Z.pow_add_r by lia; f_equal; lia).
    rewrite Hmz. change (52 + 0) with 52. change (53 + 0) with 53.
    rewrite P52, P53.
    pose proof (pow2_pos (53 - d) ltac:(lia)). nia. }
  destruct (round_aux_normal s (Zpos mz) (d - 53) loc_Exact 0)
    as (m' & e' & HR & B & C); try lia.
  rewrite HR. exists m', e'. split; [ reflexivity | ]. split; [ exact B | ].
  destruct C as [ [-> Hm'] | [U _] ]; [ | now apply exact_not_roundsUp in U ].
  rewrite Z.pow_0_r, Z.div_1_r in Hm'.
  split; [ lia | ]. rewrite Hm', Hmz. f_equal. f_equal. lia.
Qed.

Lemma of_int_isInt (z : Z) : 0 < z < 2 ^ 53 -> isInt (of_int z) z.
Proof.
  intros [Hz0 Hz1]. destruct z as [ | p | p ]; try lia.
  exact (binary_round_int false p Hz1).
Qed.


(** The digits dropped by a right shift of an exact multiple are zero. *)
Lemma testbit_mul_pow2 (a n : Z) :
  0 < n -> Z.testbit (a * 2 ^ n) (n - 1) = false.
Proof. intro Hn. apply Z.mul_pow2_bits_low. lia. Qed.

Lemma mul_isInt (x y : float64) (a b : Z) :
  isInt x a -> isInt y b -> a * b < 2 ^ 53 -> isInt (mul x y) (a * b).
Proof.
  intros (m1 & e1 & -> & B1 & E1 & V1) (m2 & e2 & -> & B2 & E2 & V2) Hab.
  unfold mul, SFmul. simpl xorb. rewrite Pos2Z.inj_mul.
  assert (Ha : 0 < a) by (pose proof (pow2_pos (- e1) ltac:(lia)); nia).
  assert (Hb : 0 < b) by (pose proof (pow2_pos (- e2) ltac:(lia)); nia).
  (* the product of the mantissas is [a * b] shifted left by [k] places *)
  set (k := - e1 - e2).
  assert (Hk : Zpos m1 * Zpos m2 = a * b * 2 ^ k).
  { rewrite V1, V2. unfold k. replace (- e1 - e2) with (- e1 + - e2) by lia.
    rewrite Z.pow_add_r by lia. ring. }
  (* the number of digits of [a * b] *)
  assert (Hab0 : 0 < a * b) by nia.
  destruct (a * b) as [ | pab | pab ] eqn:Eab; try lia.
  pose proof (digits2_pos_bounds pab) as [Dlo Dhi].
  set (d := Zpos (digits2_pos pab)) in *.
  assert (Hd : 1 <= d <= 53).
  { split; [ unfold d; lia | ].
    destruct (Z_lt_le_dec 53 d); [ | assumption ].
    assert (2 ^ 53 <= 2 ^ (d - 1)) by (apply Z.pow_le_mono_r; lia). lia. }
  (* the shift that normalizes the product *)
  set (n := d + k - 53).
  assert (Hlo : 2 ^ 104 <= Zpos m1 * Zpos m2) by nia.
  assert (Hn : 0 < n).
  { unfold n. destruct (Z_lt_le_dec 53 (d + k)); [ lia | ].
    assert (Zpos pab * 2 ^ k < 2 ^ d * 2 ^ k) by (pose proof (pow2_pos k ltac:(lia)); nia).
    rewrite <- Z.pow_add_r in H by lia.
    assert (2 ^ (d + k) <= 2 ^ 53) by (apply Z.pow_le_mono_r; lia).
    lia. }
  assert (Hbn : 2 ^ (52 + n) <= Zpos m1 * Zpos m2 < 2 ^ (53 + n)).
  { rewrite Hk. unfold n.
    replace (52 + (d + k - 53)) with ((d - 1) + k) by lia.
    replace (53 + (d + k - 53)) with (d + k) by lia.
    rewrite !Z.pow_add_r by lia. pose proof (pow2_pos k ltac:(lia)). nia. }
  assert (Hkn : k = n + (53 - d)) by (unfold n; lia).
  assert (Hdiv : Zpos m1 * Zpos m2 / 2 ^ n = Zpos pab * 2 ^ (53 - d)).
  { rewrite Hk, Hkn, Z.pow_add_r by lia.
    replace (Zpos pab * (2 ^ n * 2 ^ (53 - d))) with (Zpos pab * 2 ^ (53 - d) * 2 ^ n) by ring.
    apply Z.div_mul. pose proof (pow2_pos n ltac:(lia)). lia. }
  destruct (round_aux_normal false (Zpos m1 * Zpos m2) (e1 + e2) loc_Exact n)
    as (m' & e' & R & B & C); try lia.
  rewrite R. exists m', e'. split; [ reflexivity | ]. split; [ exact B | ].
  assert (Hnot : ~ roundsUp n (Zpos m1 * Zpos m2) loc_Exact).
  { intros [ [H0 _] | [_ Hbit] ]; [ lia | ].
    rewrite Hk, Hkn, Z.pow_add_r, Z.mul_assoc in Hbit by lia.
    replace (Zpos pab * 2 ^ n * 2 ^ (53 - d)) with (Zpos pab * 2 ^ (53 - d) * 2 ^ n) in Hbit by ring.
    rewrite testbit_mul_pow2 in Hbit by lia. discriminate. }
  destruct C as [ [-> Hm'] | [U _] ]; [ | contradiction ].
  split; [ unfold n, k; lia | ].
  rewrite Hm', Hdiv. f_equal. f_equal. unfold n, k. lia.
Qed.

Lemma div_core_normal (m1 m2 : positive) (e1 e2 : Z) :
  2 ^ 52 <= Zpos m1 < 2 ^ 53 -> 2 ^ 52 <= Zpos m2 < 2 ^ 53 ->
  -1074 <= e1 - e2 - 53 ->
  SFdiv_core_binary prec emax (Zpos m1) e1 (Zpos m2) e2
  = (Zpos m1 * 2 ^ 53 / Zpos m2, e1 - e2 - 53,
     new_location (Zpos m2) (Zpos m1 * 2 ^ 53 mod Zpos m2)).
Proof.
  intros B1 B2 He. unfold SFdiv_core_binary.
  rewrite (Zdigits2_unique (Zpos m1) 53), (Zdigits2_unique (Zpos m2) 53)
    by (try lia; assumption).
  rewrite fexp_normal by lia.
  replace (Z.min (53 + e1 - (53 + e2) - 53) (e1 - e2)) with (e1 - e2 - 53) by lia.
  replace (e1 - e2 - (e1 - e2 - 53)) with 53 by lia.
  rewrite Z.shiftl_mul_pow2 by lia.
  unfold Z.div, Z.modulo.
  destruct (Z.div_eucl (Zpos m1 * 2 ^ 53) (Zpos m2)) as [q r]. reflexivity.
Qed.

Lemma div_quotient_bounds (m1 m2 : Z) :
  2 ^ 52 <= m1 < 2 ^ 53 -> 2 ^ 52 <= m2 < 2 ^ 53 ->
  2 ^ 52 <= m1 * 2 ^ 53 / m2 < 2 ^ 54.
Proof.
  intros B1 B2. split.
  - apply Z.div_le_lower_bound; [ lia | ]. nia.
  - apply Z.div_lt_upper_bound; [ lia | ]. nia.
Qed.

(** The integer part of a positive float64 that lies between two
    consecutive integers. *)
Lemma trunc_bounds (m : positive) (e k s j : Z) :
  0 <= s -> 0 <= j -> e = j - s ->
  k * 2 ^ s <= Zpos m * 2 ^ j < (k + 1) * 2 ^ s ->
  trunc (S754_finite false m e) = k.
Proof.
  intros Hs Hj He [Hlo Hhi]. unfold trunc.
  destruct (Z_lt_le_dec e 0) as [Hneg | Hpos].
  - destruct e as [ | p | p ]; try lia.
    rewrite Z.shiftr_div_pow2 by lia.
    assert (Es : 2 ^ s = 2 ^ Zpos p * 2 ^ j)
      by (rewrite <- Z.pow_add_r by lia; f_equal; lia).
    rewrite Es in Hlo, Hhi.
    pose proof (pow2_pos j Hj). pose proof (pow2_pos (Zpos p) ltac:(lia)).
    symmetry. apply Z.div_unique with (Zpos m - k * 2 ^ Zpos p); nia.
  - assert (Ej : 2 ^ j = 2 ^ e * 2 ^ s)
      by (rewrite <- Z.pow_add_r by lia; f_equal; lia).
    rewrite Ej in Hlo, Hhi.
    pose proof (pow2_pos s Hs). pose proof (pow2_pos e Hpos).
    assert (Zpos m * 2 ^ e = k) by nia.
    destruct e as [ | p | p ]; try lia; rewrite Z.shiftl_mul_pow2 by lia; assumption.
Qed.

Lemma testbit0_odd (q : Z) : Z.testbit q 0 = true -> q = 2 * (q / 2) + 1.
Proof.
  intro H. pose proof (Z.bit0_mod q) as B. rewrite H in B. simpl in B.
  pose proof (Z.div_mod q 2 ltac:(lia)). lia.
Qed.

(** [int(x / y)] for two positive integers held exactly is the integer
    quotient. *)
Lemma div_isInt (x y : float64) (a w : Z) :
  isInt x a -> isInt y w -> to_int (div x y) = a / w.
Proof.
  intros (m1 & e1 & -> & B1 & E1 & V1) (m2 & e2 & -> & B2 & E2 & V2).
  assert (Ha : 0 < a) by (pose proof (pow2_pos (- e1) ltac:(lia)); nia).
  assert (Hw : 0 < w) by (pose proof (pow2_pos (- e2) ltac:(lia)); nia).
  unfold div, SFdiv. rewrite div_core_normal by (try assumption; lia).
  simpl xorb.
  set (q := Zpos m1 * 2 ^ 53 / Zpos m2).
  set (loc := new_location (Zpos m2) (Zpos m1 * 2 ^ 53 mod Zpos m2)).
  pose proof (div_quotient_bounds (Zpos m1) (Zpos m2) B1 B2) as Bq. fold q in Bq.
  set (s := 53 - e1 + e2).
  assert (Hs : 1 <= s) by (unfold s; lia).
  set (k := a / w).
  (* the quotient of the mantissas is that of [a * 2 ^ s] by [w] *)
  assert (Hq : q = a * 2 ^ s / w).
  { unfold q. rewrite V1, V2.
    replace (a * 2 ^ (- e1) * 2 ^ 53) with (a * 2 ^ s * 2 ^ (- e2)).
    - rewrite Z.div_mul_cancel_r; [ reflexivity | lia | ].
      pose proof (pow2_pos (- e2) ltac:(lia)). lia.
    - rewrite <- !Z.mul_assoc, <- !Z.pow_add_r by (unfold s; lia).
      f_equal. f_equal. unfold s. lia. }
  pose proof (pow2_pos s ltac:(lia)) as Ps.
  assert (Hk : k * w <= a < (k + 1) * w).
  { unfold k. pose proof (Z.div_mod a w ltac:(lia)).
    pose proof (Z.mod_pos_bound a w Hw). nia. }
  assert (Hws : w < 2 ^ s).
  { assert (w * 2 ^ (- e2) < 2 ^ 53) by lia.
    assert (2 ^ 53 <= 2 ^ s * 2 ^ (- e2)).
    { rewrite <- Z.pow_add_r by lia. apply Z.pow_le_mono_r; unfold s; lia. }
    pose proof (pow2_pos (- e2) ltac:(lia)). nia. }
  assert (F1 : k * 2 ^ s <= q).
  { rewrite Hq. apply Z.div_le_lower_bound; [ lia | ]. nia. }
  assert (F2 : q + 1 < (k + 1) * 2 ^ s).
  { assert (q * w <= a * 2 ^ s).
    { rewrite Hq. pose proof (Z.mul_div_le (a * 2 ^ s) w Hw). lia. }
    assert (a * 2 ^ s <= (k + 1) * w * 2 ^ s - 2 ^ s) by nia.
    destruct (Z_lt_le_dec (q + 1) ((k + 1) * 2 ^ s)); [ assumption | ].
    assert ((k + 1) * 2 ^ s * w - w <= q * w) by nia. nia. }
  assert (Hs2 : 2 ^ s = 2 * 2 ^ (s - 1)).
  { rewrite <- Z.pow_succ_r by lia. f_equal. lia. }
  assert (Hk0 : 0 <= k) by (unfold k; apply Z.div_pos; lia).
  assert (Hka : k < 2 ^ 53).
  { assert (k <= a) by nia.
    assert (a * 1 <= a * 2 ^ (- e1)) by (pose proof (pow2_pos (- e1) ltac:(lia)); nia).
    lia. }
  assert (Hres : forall (m' : positive) (e' : Z),
             trunc (S754_finite false m' e') = k ->
             to_int (S754_finite false m' e') = k).
  { intros m' e' T. unfold to_int. rewrite T.
    replace ((int64_min <=? k) && (k <=? int64_max)) with true; [ reflexivity | ].
    symmetry. apply andb_true_intro.
    unfold int64_min, int64_max.
    assert (2 ^ 53 < 2 ^ 63) by (apply Z.pow_lt_mono_r; lia).
    split; apply Z.leb_le; lia. }
  destruct (Z_lt_le_dec q (2 ^ 53)) as [Hq53 | Hq53].
  - (* the quotient has 53 digits *)
    destruct (round_aux_normal false q (e1 - e2 - 53) loc 0)
      as (m' & e' & R & B & C); try lia.
    rewrite R. apply Hres.
    rewrite Z.pow_0_r, Z.div_1_r in C.
    destruct C as [ [E' M'] | [_ [ [E' M'] | (E' & M' & Hc) ] ] ].
    + apply trunc_bounds with s 0; try lia; try (unfold s; lia); nia.
    + apply trunc_bounds with s 0; try lia; try (unfold s; lia); nia.
    + apply trunc_bounds with s 1; try lia; try (unfold s; lia); nia.
  - (* the quotient has 54 digits *)
    destruct (round_aux_normal false q (e1 - e2 - 53) loc 1)
      as (m' & e' & R & B & C); try lia.
    rewrite R. apply Hres.
    change (2 ^ 1) with 2 in C.
    pose proof (Z.div_mod q 2 ltac:(lia)) as Dq.
    pose proof (Z.mod_pos_bound q 2 ltac:(lia)) as Mq.
    destruct C as [ [E' M'] | [U [ [E' M'] | (E' & M' & Hc) ] ] ].
    + apply trunc_bounds with s 1; try lia; try (unfold s; lia); nia.
    + destruct U as [ [U _] | [_ U] ]; [ lia | ].
      apply testbit0_odd in U.
      apply trunc_bounds with s 1; try lia; try (unfold s; lia); nia.
    + destruct U as [ [U _] | [_ U] ]; [ lia | ].
      apply testbit0_odd in U.
      apply trunc_bounds with s 2; try lia; try (unfold s; lia); nia.
Qed.

(** The block edge computed through float64 is the exact integer quotient
    as long as the product fits in 53 bits. *)
Lemma blockEdge_exact (n width i : Z) :
  0 <= i -> 0 < width < 2 ^ 53 -> 0 < n < 2 ^ 53 -> i * n < 2 ^ 53 ->
  blockEdge n width i = i * n / width.
Proof.
  intros Hi Hw Hn Hin. unfold blockEdge.
  destruct (Z.eq_dec i 0) as [-> | Hi0].
  - assert (isInt (of_int n) n) as (m & e & -> & _) by (apply of_int_isInt; lia).
    assert (isInt (of_int width) width) as (mw & ew & -> & _) by (apply of_int_isInt; lia).
    reflexivity.
  - assert (i <= i * n /\ n <= i * n) as [Hi1 Hn1] by nia.
    apply div_isInt.
    + apply mul_isInt; try lia; apply of_int_isInt; lia.
    + apply of_int_isInt; lia.
Qed.

Lemma powerRZ2_IZR (k : Z) : 0 <= k -> powerRZ 2 k = IZR (2 ^ k).
Proof.
  intro Hk. destruct k as [ | p | p ]; try lia.
  - reflexivity.
  - change (2 ^ Zpos p) with (Z.pow_pos 2 p).
    now rewrite Zpower_pos_powerRZ.
Qed.

Lemma powerRZ2_pos (k : Z) : (0 < powerRZ 2 k)%R.
Proof. apply powerRZ_lt. lra. Qed.

Lemma powerRZ2_add (a b : Z) : (powerRZ 2 (a + b) = powerRZ 2 a * powerRZ 2 b)%R.
Proof. apply powerRZ_add. lra. Qed.

Lemma round_aux_value (s : bool) (m e : Z) (loc : location) (n : Z) :
  0 < m -> 0 <= n ->
  2 ^ (52 + n) <= m < 2 ^ (53 + n) ->
  -1074 <= e + n -> e + n + 1 <= 971 ->
  exists (m' : positive) (e' : Z),
    binary_round_aux prec emax s m e loc = S754_finite s m' e' /\
    2 ^ 52 <= Zpos m' < 2 ^ 53 /\
    e + n <= e' <= e + n + 1 /\
    (IZR (Zpos m') * powerRZ 2 e' <= IZR m * powerRZ 2 e * (1 + ulp52))%R.
Proof.
  intros Hm Hn Hd He1 He2.
  destruct (round_aux_normal s m e loc n Hm Hn Hd He1 He2)
    as (m' & e' & HR & B & C).
  exists m', e'. split; [ exact HR | ]. split; [ exact B | ].
  pose proof (pow2_pos n Hn) as Pn.
  assert (D1 : m / 2 ^ n * 2 ^ n <= m).
  { pose proof (Z.mul_div_le m (2 ^ n) Pn). lia. }
  assert (D2 : 2 ^ 52 * 2 ^ n <= m).
  { rewrite <- Z.pow_add_r by lia. lia. }
  apply IZR_le in D1, D2. rewrite mult_IZR in D1, D2.
  assert (P52 : (0 < IZR (2 ^ 52))%R) by (apply IZR_lt; lia).
  assert (PN : (0 < IZR (2 ^ n))%R) by (apply IZR_lt; lia).
  assert (Pe : (0 < powerRZ 2 e)%R) by apply powerRZ2_pos.
  assert (Hen : powerRZ 2 (e + n) = (powerRZ 2 e * IZR (2 ^ n))%R)
    by (rewrite powerRZ2_add, (powerRZ2_IZR n) by lia; reflexivity).
  assert (Hu : (IZR (2 ^ 52) * ulp52 = 1)%R)
    by (unfold ulp52; apply Rinv_r; lra).
  assert (Hup : (0 < ulp52)%R) by (unfold ulp52; apply Rinv_0_lt_compat; lra).
  (* the common bound: (m / 2^n + 1) * 2^(e+n) *)
  assert (K : ((IZR (m / 2 ^ n) + 1) * (powerRZ 2 e * IZR (2 ^ n))
               <= IZR m * powerRZ 2 e * (1 + ulp52))%R).
  { assert (IZR (2 ^ n) <= IZR m * ulp52)%R.
    { replace (IZR (2 ^ n)) with (IZR (2 ^ 52) * IZR (2 ^ n) * ulp52)%R
        by (rewrite (Rmult_comm (IZR (2 ^ 52))), Rmult_assoc, Hu; ring).
      apply Rmult_le_compat_r; lra. }
    nra. }
  assert (Hm0 : (0 <= IZR (m / 2 ^ n))%R).
  { apply IZR_le. apply Z.div_pos; lia. }
  destruct C as [ [-> M'] | [_ [ [-> M'] | (-> & M' & Hc) ] ] ].
  - split; [ lia | ]. rewrite M', Hen. nra.
  - split; [ lia | ]. rewrite M', plus_IZR, Hen. exact K.
  - split; [ lia | ].
    replace (e + n + 1) with (e + n + 1) by lia.
    rewrite powerRZ2_add, Hen, M'.
    replace (powerRZ 2 1) with 2%R by (simpl; ring).
    assert (E : (IZR (2 ^ 52) * 2 = IZR (m / 2 ^ n) + 1)%R).
    { rewrite <- plus_IZR, Hc. rewrite <- mult_IZR. f_equal. }
    nra.
Qed.

Lemma isInt_normal (x : float64) (z : Z) :
  isInt x z -> normalPos x (-52) 0 /\ B2R x = IZR z.
Proof.
  intros (m & e & -> & B & E & V). split.
  - exists m, e. auto.
  - simpl. rewrite V, mult_IZR, <- (powerRZ2_IZR (- e)) by lia.
    rewrite Rmult_1_l, Rmult_assoc, <- powerRZ2_add.
    replace (- e + e) with 0 by lia. simpl. ring.
Qed.

Lemma B2R_pos (x : float64) (lo hi : Z) : normalPos x lo hi -> (0 < B2R x)%R.
Proof.
  intros (m & e & -> & B & E). simpl.
  assert (0 < IZR (Zpos m))%R by (apply IZR_lt; lia).
  pose proof (powerRZ2_pos e). nra.
Qed.

Lemma mul_value (x y : float64) (lo1 hi1 lo2 hi2 : Z) :
  normalPos x lo1 hi1 -> normalPos y lo2 hi2 ->
  -1074 <= lo1 + lo2 + 52 -> hi1 + hi2 + 54 <= 971 ->
  normalPos (mul x y) (lo1 + lo2 + 52) (hi1 + hi2 + 54) /\
  (B2R (mul x y) <= B2R x * B2R y * (1 + ulp52))%R.
Proof.
  intros (m1 & e1 & -> & B1 & E1) (m2 & e2 & -> & B2 & E2) Hlo Hhi.
  unfold mul, SFmul. simpl xorb. rewrite Pos2Z.inj_mul.
  assert (Hm : 2 ^ 104 <= Zpos m1 * Zpos m2 < 2 ^ 106).
  { change (2 ^ 104) with (2 ^ 52 * 2 ^ 52).
    change (2 ^ 106) with (2 ^ 53 * 2 ^ 53). nia. }
  assert (Hn : exists n, 52 <= n <= 53 /\
                 2 ^ (52 + n) <= Zpos m1 * Zpos m2 < 2 ^ (53 + n)).
  { destruct (Z_lt_le_dec (Zpos m1 * Zpos m2) (2 ^ 105)).
    - exists 52. simpl (52 + 52). simpl (53 + 52). lia.
    - exists 53. simpl (52 + 53). simpl (53 + 53). lia. }
  destruct Hn as (n & Hn & Hbn).
  destruct (round_aux_value false (Zpos m1 * Zpos m2) (e1 + e2) loc_Exact n)
    as (m' & e' & HR & B & E & V); try lia.
  rewrite HR. split.
  - exists m', e'. split; [ reflexivity | ]. split; [ exact B | lia ].
  - simpl B2R. rewrite mult_IZR, powerRZ2_add in V.
    rewrite !Rmult_1_l.
    replace (IZR (Zpos m1) * powerRZ 2 e1 * (IZR (Zpos m2) * powerRZ 2 e2))%R
      with (IZR (Zpos m1) * IZR (Zpos m2) * (powerRZ 2 e1 * powerRZ 2 e2))%R
      by ring.
    exact V.
Qed.

Lemma div_value (x y : float64) (lo1 hi1 lo2 hi2 : Z) :
  normalPos x lo1 hi1 -> normalPos y lo2 hi2 ->
  -1074 <= lo1 - hi2 - 53 -> hi1 - lo2 - 51 <= 971 ->
  normalPos (div x y) (lo1 - hi2 - 53) (hi1 - lo2 - 51) /\
  (B2R (div x y) <= B2R x / B2R y * (1 + ulp52))%R.
Proof.
  intros (m1 & e1 & -> & B1 & E1) (m2 & e2 & -> & B2 & E2) Hlo Hhi.
  unfold div, SFdiv. rewrite div_core_normal by (try assumption; lia).
  simpl xorb.
  set (q := Zpos m1 * 2 ^ 53 / Zpos m2).
  set (loc := new_location (Zpos m2) (Zpos m1 * 2 ^ 53 mod Zpos m2)).
  pose proof (div_quotient_bounds (Zpos m1) (Zpos m2) B1 B2) as Bq. fold q in Bq.
  assert (Hn : exists n, 0 <= n <= 1 /\ 2 ^ (52 + n) <= q < 2 ^ (53 + n)).
  { destruct (Z_lt_le_dec q (2 ^ 53)).
    - exists 0. simpl (52 + 0). simpl (53 + 0). lia.
    - exists 1. simpl (52 + 1). simpl (53 + 1). lia. }
  destruct Hn as (n & Hn & Hbn).
  destruct (round_aux_value false q (e1 - e2 - 53) loc n)
    as (m' & e' & HR & B & E & V); try lia.
  rewrite HR. split.
  - exists m', e'. split; [ reflexivity | ]. split; [ exact B | lia ].
  - simpl B2R. rewrite !Rmult_1_l.
    eapply Rle_trans; [ exact V | ].
    assert (Hu : (0 < 1 + ulp52)%R).
    { unfold ulp52.
      assert (0 < / IZR (2 ^ 52))%R by (apply Rinv_0_lt_compat, IZR_lt; lia). lra. }
    apply Rmult_le_compat_r; [ lra | ].
    (* q * 2^(e1-e2-53) <= (m1 * 2^e1) / (m2 * 2^e2) *)
    assert (Hq : q * Zpos m2 <= Zpos m1 * 2 ^ 53).
    { unfold q. pose proof (Z.mul_div_le (Zpos m1 * 2 ^ 53) (Zpos m2) ltac:(lia)). lia. }
    apply IZR_le in Hq. rewrite !mult_IZR in Hq.
    replace (e1 - e2 - 53) with (e1 + (- e2 + - (53))) by lia.
    rewrite !powerRZ2_add, !powerRZ_neg', (powerRZ2_IZR 53) by lia.
    assert (P1 : (0 < powerRZ 2 e1)%R) by apply powerRZ2_pos.
    assert (P2 : (0 < powerRZ 2 e2)%R) by apply powerRZ2_pos.
    assert (P3 : (0 < IZR (2 ^ 53))%R) by (apply IZR_lt; lia).
    assert (P4 : (0 < IZR (Zpos m2))%R) by (apply IZR_lt; lia).
    assert (P5 : (0 < IZR (Zpos m1))%R) by (apply IZR_lt; lia).
    assert (P6 : (0 <= IZR q)%R) by (apply IZR_le; lia).
    unfold Rdiv.
    apply Rmult_le_reg_r with (IZR (Zpos m2) * powerRZ 2 e2 * IZR (2 ^ 53))%R;
      [ nra | ].
    field_simplify; try lra.
    nra.
Qed.

Lemma trunc_upper (m : positive) (e L : Z) :
  (B2R (S754_finite false m e) < IZR (L + 1))%R ->
  0 <= trunc (S754_finite false m e) <= L.
Proof.
  simpl B2R. rewrite Rmult_1_l. intro H. unfold trunc.
  destruct e as [ | p | p ].
  - simpl in H. rewrite Rmult_1_r in H. apply lt_IZR in H.
    rewrite Z.shiftl_0_r. lia.
  - rewrite powerRZ2_IZR, <- mult_IZR in H by lia. apply lt_IZR in H.
    rewrite Z.shiftl_mul_pow2 by lia.
    pose proof (pow2_pos (Zpos p) ltac:(lia)). nia.
  - rewrite Z.shiftr_div_pow2 by lia.
    pose proof (pow2_pos (Zpos p) ltac:(lia)) as Pp.
    change (Zneg p) with (- Zpos p) in H.
    rewrite powerRZ_neg', powerRZ2_IZR in H by lia.
    assert (PR : (0 < IZR (2 ^ Zpos p))%R) by (apply IZR_lt; lia).
    assert (H' : (IZR (Zpos m) < IZR (L + 1) * IZR (2 ^ Zpos p))%R).
    { apply Rmult_lt_reg_r with (/ IZR (2 ^ Zpos p))%R.
      - now apply Rinv_0_lt_compat.
      - rewrite Rmult_assoc, Rinv_r by lra. lra. }
    rewrite <- mult_IZR in H'. apply lt_IZR in H'.
    split.
    + apply Z.div_pos; lia.
    + assert (Zpos m / 2 ^ Zpos p < L + 1); [ | lia ].
      apply Z.div_lt_upper_bound; lia.
Qed.

(** For every index up to the width, the block edge computed through
    float64 stays within the input, whatever the rounding. *)
Lemma blockEdge_range (n width i : Z) :
  0 <= i <= width -> 0 < width -> 0 < n <= 2 ^ 50 -> width < 2 ^ 53 ->
  0 <= blockEdge n width i <= n.
Proof.
  intros Hi Hw Hn Hw53. unfold blockEdge.
  assert (H5053 : 2 ^ 50 < 2 ^ 53) by (apply Z.pow_lt_mono_r; lia).
  destruct (Z.eq_dec i 0) as [-> | Hi0].
  - assert (isInt (of_int n) n) as (m & e & -> & _) by (apply of_int_isInt; lia).
    assert (isInt (of_int width) width) as (mw & ew & -> & _) by (apply of_int_isInt; lia).
    simpl. lia.
  - destruct (isInt_normal _ _ (of_int_isInt i ltac:(lia))) as [Ni Vi].
    destruct (isInt_normal _ _ (of_int_isInt n ltac:(lia))) as [Nn Vn].
    destruct (isInt_normal _ _ (of_int_isInt width ltac:(lia))) as [Nw Vw].
    destruct (mul_value _ _ _ _ _ _ Ni Nn) as [Np Vp]; try lia.
    destruct (div_value _ _ _ _ _ _ Np Nw) as [Nq Vq]; try lia.
    pose proof (B2R_pos _ _ _ Np) as Pp.
    rewrite Vi, Vn in Vp. rewrite Vw in Vq.
    destruct Nq as (mq & eq & Eq & Bq & Eeq).
    rewrite Eq in *.
    assert (PW : (0 < IZR width)%R) by (apply IZR_lt; lia).
    assert (PN : (0 < IZR n)%R) by (apply IZR_lt; lia).
    assert (PI : (0 < IZR i)%R) by (apply IZR_lt; lia).
    assert (IW : (IZR i <= IZR width)%R) by (apply IZR_le; lia).
    assert (N50 : (IZR n <= IZR (2 ^ 50))%R) by (apply IZR_le; lia).
    assert (U : (ulp52 * IZR (2 ^ 50) * 4 = 1)%R).
    { unfold ulp52. change (2 ^ 52) with (2 ^ 50 * 4). rewrite mult_IZR.
      assert (0 < IZR (2 ^ 50))%R by (apply IZR_lt; lia).
      field. lra. }
    assert (Up : (0 < ulp52)%R).
    { unfold ulp52. apply Rinv_0_lt_compat, IZR_lt. lia. }
    assert (P50 : (1 <= IZR (2 ^ 50))%R) by (apply IZR_le; lia).
    assert (Ubound : (B2R (S754_finite false mq eq) < IZR (n + 1))%R).
    { rewrite plus_IZR.
      eapply Rle_lt_trans; [ exact Vq | ].
      (* the product is at most i * n * (1 + u), the quotient by the
         width at most n * (1 + u) *)
      assert (Q1 : (B2R (mul (of_int i) (of_int n)) / IZR width
                    <= IZR n * (1 + ulp52))%R).
      { unfold Rdiv. apply Rmult_le_reg_r with (IZR width); [ exact PW | ].
        rewrite Rmult_assoc, Rinv_l by lra. nra. }
      assert (Q2 : (IZR n * ulp52 <= / 4)%R).
      { assert (IZR n * ulp52 <= IZR (2 ^ 50) * ulp52)%R
          by (apply Rmult_le_compat_r; lra).
        lra. }
      assert (Q3 : (ulp52 <= / 4)%R) by nra.
      nra. }
    apply trunc_upper in Ubound.
    unfold to_int.
    replace ((int64_min <=? trunc (S754_finite false mq eq))
             && (trunc (S754_finite false mq eq) <=? int64_max)) with true;
      [ lia | ].
    symmetry. apply andb_true_intro. unfold int64_min, int64_max.
    assert (2 ^ 50 < 2 ^ 63) by (apply Z.pow_lt_mono_r; lia).
    split; apply Z.leb_le; lia.
Qed.

(** [int(x)] of an integer held exactly gives it back. *)
Lemma isInt_to_int (x : float64) (z : Z) : isInt x z -> to_int x = z.
Proof.
  intros (m & e & -> & B & E & V).
  pose proof (pow2_pos (- e) ltac:(lia)) as P.
  assert (Hz : 0 < z < 2 ^ 53) by nia.
  assert (T : trunc (S754_finite false m e) = z).
  { apply trunc_bounds with (- e) 0; lia. }
  unfold to_int. rewrite T.
  replace ((int64_min <=? z) && (z <=? int64_max)) with true; [ reflexivity | ].
  symmetry. apply andb_true_intro. unfold int64_min, int64_max.
  assert (2 ^ 53 < 2 ^ 63) by (apply Z.pow_lt_mono_r; lia).
  split; apply Z.leb_le; lia.
Qed.

(** [int(math.Abs(float64(d)))] is the absolute value of [d] as long as
    [d] is held exactly by a float64. *)
Lemma absDelta_exact (d : Z) : Z.abs d < 2 ^ 53 -> absDelta d = Z.abs d.
Proof.
  intro Hd. unfold absDelta. destruct d as [ | p | p ].
  - reflexivity.
  - apply isInt_to_int.
    destruct (binary_round_int false p Hd) as (m & e & HR & H).
    unfold of_int, binary_normalize. rewrite HR. simpl abs.
    exists m, e. split; [ reflexivity | exact H ].
  - apply isInt_to_int.
    destruct (binary_round_int true p Hd) as (m & e & HR & H).
    unfold of_int, binary_normalize. rewrite HR. simpl abs.
    exists m, e. split; [ reflexivity | exact H ].
Qed.

(** * The resampler *)

Lemma index_some {A : Type} (l : list A) (i : Z) :
  0 <= i < Z.of_nat (List.length l) -> exists a, index l i = Some a.
Proof.
  intros Hi. unfold index.
  replace (i <? 0) with false by (symmetry; apply Z.ltb_ge; lia).
  destruct (nth_error l (Z.to_nat i)) as [a | ] eqn:E.
  - now exists a.
  - apply nth_error_None in E. lia.
Qed.

Lemma for_each_some {A : Type} (f : Z -> option A) (n : nat) (from : Z) :
  (forall k, (k < n)%nat -> exists a, f (from + Z.of_nat k) = Some a) ->
  exists out,
    for_each f from n = Some out /\ List.length out = n /\
    forall k, (k < n)%nat -> nth_error out k = f (from + Z.of_nat k).
Proof.
  revert from. induction n as [ | n IH ]; intros from H.
  - exists []. repeat split; intros; lia.
  - destruct (H 0%nat ltac:(lia)) as [a Ha].
    rewrite Z.add_0_r in Ha.
    destruct (IH (from + 1)) as (r & Hr & Hlen & Hnth).
    { intros k Hk. destruct (H (S k) ltac:(lia)) as [b Hb]. exists b.
      rewrite <- Hb. f_equal. lia. }
    exists (a :: r). simpl. rewrite Ha, Hr. repeat split.
    + simpl. now rewrite Hlen.
    + intros [ | k ] Hk; simpl.
      * now rewrite Z.add_0_r.
      * rewrite Hnth by lia. f_equal. lia.
Qed.

Lemma slice_some {A : Type} (l : list A) (lo hi : Z) :
  0 <= lo <= hi -> hi <= Z.of_nat (List.length l) ->
  exists blk, slice l lo hi = Some blk /\ Z.of_nat (List.length blk) = hi - lo.
Proof.
  intros H1 H2. unfold slice.
  replace ((0 <=? lo) && (lo <=? hi) && (hi <=? Z.of_nat (List.length l)))
    with true.
  - eexists. split; [ reflexivity | ].
    rewrite length_firstn, length_skipn. lia.
  - symmetry. rewrite !andb_true_iff, !Z.leb_le. lia.
Qed.

(** The two guards of the downsampling loop keep the slice expression in
    range as soon as the start of the block lies within the input. *)
Lemma blockBounds_slice (n width i : Z) :
  0 <= fst (blockBounds n width i) <= n ->
  fst (blockBounds n width i) <= snd (blockBounds n width i) <= n.
Proof.
  unfold blockBounds. simpl fst. simpl snd.
  set (start := blockEdge n width i). set (end0 := blockEdge n width (i + 1)).
  intros Hs.
  destruct (end0 <=? start) eqn:E1;
    [ apply Z.leb_le in E1 | apply Z.leb_gt in E1 ].
  - destruct (Z.gtb_spec (start + 1) n); lia.
  - destruct (Z.gtb_spec end0 n); lia.
Qed.

Lemma downsampleAt_some (values : list float64) (width i : Z) :
  0 <= i < width -> width < Z.of_nat (List.length values) <= 2 ^ 50 ->
  exists v, downsampleAt values width i = Some v.
Proof.
  intros Hi Hn. unfold downsampleAt.
  assert (2 ^ 50 < 2 ^ 53) by (apply Z.pow_lt_mono_r; lia).
  pose proof (blockEdge_range (Z.of_nat (List.length values)) width i
                ltac:(lia) ltac:(lia) ltac:(lia) ltac:(lia)) as Hs.
  pose proof (blockBounds_slice (Z.of_nat (List.length values)) width i) as Hb.
  destruct (blockBounds (Z.of_nat (List.length values)) width i) as [start end_] eqn:E.
  simpl in Hb.
  assert (start = blockEdge (Z.of_nat (List.length values)) width i)
    by (unfold blockBounds in E; congruence).
  destruct (slice_some values start end_) as (blk & -> & _); try lia.
  eexists. reflexivity.
Qed.

Lemma upsampleAt_some (values : list float64) (width i : Z) :
  2 <= Z.of_nat (List.length values) ->
  exists v, upsampleAt values width i = Some v.
Proof.
  intros Hn. unfold upsampleAt.
  set (n := Z.of_nat (List.length values)) in *.
  set (idx0 := to_int _).
  set (idx := if idx0 <? 0 then 0 else idx0).
  assert (Hidx : 0 <= idx) by (unfold idx; destruct (Z.ltb_spec idx0 0); lia).
  destruct (Z.geb_spec idx (n - 1)) as [Hge | Hlt].
  - apply index_some. lia.
  - destruct (index_some values idx ltac:(lia)) as [a ->].
    destruct (index_some values (idx + 1) ltac:(lia)) as [b ->].
    eexists. reflexivity.
Qed.

Lemma for_each_length {A : Type} (f : Z -> option A) (n : nat) (from : Z)
  (out : list A) :
  for_each f from n = Some out -> List.length out = n.
Proof.
  revert from out. induction n as [ | n IH ]; intros from out; simpl.
  - intro H. injection H as <-. reflexivity.
  - destruct (f from); [ | discriminate ].
    destruct (for_each f (from + 1) n) as [r | ] eqn:E; [ | discriminate ].
    intro H. injection H as <-. simpl. f_equal. eapply IH. exact E.
Qed.

(** Whenever [resampleSeries] returns, it returns [width] samples, or none
    when there is no value or no column. *)
Lemma resampleSeries_out_length (values : list float64) (width : Z)
  (out : list float64) :
  resampleSeries values width = Some out ->
  (out = [] /\ (values = [] \/ width <= 0)) \/
  Z.of_nat (List.length out) = width.
Proof.
  unfold resampleSeries.
  destruct (Z.eqb_spec (Z.of_nat (List.length values)) 0) as [Hn | Hn].
  { intro Hr. injection Hr as <-. left. split; [ reflexivity | left ].
    destruct values; [ reflexivity | simpl in Hn; lia ]. }
  destruct (Z.leb_spec width 0) as [Hw | Hw];
    [ intro Hr; injection Hr as <-; auto | ]. simpl orb.
  destruct (Z.eqb_spec (Z.of_nat (List.length values)) width) as [E | NE].
  - intro Hr. injection Hr as <-. auto.
  - destruct (Z.of_nat (List.length values) >? width).
    + intro Hr. apply for_each_length in Hr. right. lia.
    + destruct (Z.eqb_spec width 1) as [W1 | W1].
      * destruct (index values 0); [ | discriminate ].
        intro Hr. injection Hr as <-. right. simpl. lia.
      * destruct (Z.of_nat (List.length values) =? 1).
        -- destruct (index values 0); [ | discriminate ].
           intro Hr. injection Hr as <-. right. rewrite repeat_length. lia.
        -- intro Hr. apply for_each_length in Hr. right. lia.
Qed.

(** [resampleSeries] does not panic on a non-empty sequence of a length a
    Go slice can have: every index it reads is in range. *)
Lemma resampleSeries_some (values : list float64) (width : Z) :
  values <> [] -> 1 <= width ->
  Z.of_nat (List.length values) <= 2 ^ 50 ->
  exists out, resampleSeries values width = Some out.
Proof.
  intros Hne Hw Hn. unfold resampleSeries.
  set (n := Z.of_nat (List.length values)) in *.
  assert (Hn1 : 1 <= n) by (destruct values; [ congruence | unfold n; simpl; lia ]).
  replace ((n =? 0) || (width <=? 0)) with false
    by (symmetry; apply orb_false_intro; [ apply Z.eqb_neq | apply Z.leb_gt ]; lia).
  destruct (Z.eqb_spec n width) as [E | NE].
  - exists values. reflexivity.
  - destruct (Z.gtb_spec n width) as [Hgt | Hle].
    + destruct (for_each_some (downsampleAt values width) (Z.to_nat width) 0)
        as (out & -> & _).
      { intros k Hk. apply downsampleAt_some; fold n; lia. }
      exists out. reflexivity.
    + destruct (Z.eqb_spec width 1) as [W1 | W1]; [ lia | ].
      destruct (Z.eqb_spec n 1) as [N1 | N1].
      * destruct (index_some values 0 ltac:(fold n; lia)) as [v ->].
        eexists. reflexivity.
      * destruct (for_each_some (upsampleAt values width) (Z.to_nat width) 0)
          as (out & -> & _).
        { intros k Hk. apply upsampleAt_some. fold n. lia. }
        exists out. reflexivity.
Qed.

(** ** C4 *)



(** ** C1 *)

Lemma Zgtb_false (a b : Z) : a <= b -> (a >? b) = false.
Proof. intro H. destruct (Z.gtb_spec a b); [ lia | reflexivity ]. Qed.

(** With more input values than blocks no guard of the block bounds
    fires: consecutive edges are strictly increasing and stay within the
    input. *)
Lemma specBounds_plain (n width i : Z) :
  0 < width < n -> 0 <= i < width ->
  specBounds n width i = (i * n / width, (i + 1) * n / width) /\
  i * n / width < (i + 1) * n / width <= n.
Proof.
  intros Hw Hi.
  assert (Hstep : i * n / width + 1 <= (i + 1) * n / width).
  { replace (i * n / width + 1) with ((i * n + 1 * width) / width)
      by (rewrite Z.div_add by lia; reflexivity).
    apply Z.div_le_mono; nia. }
  assert (Hcap : (i + 1) * n / width <= n).
  { apply Z.div_le_upper_bound; nia. }
  split; [ | lia ].
  unfold specBounds, specEdge.
  replace ((i + 1) * n / width <=? i * n / width) with false
    by (symmetry; apply Z.leb_gt; lia).
  now rewrite Zgtb_false by lia.
Qed.

(** The block an index falls in. *)
Lemma block_of_index (n width j : Z) :
  0 < width < n -> 0 <= j < n ->
  exists i, 0 <= i < width /\
    (i * n / width <= j < (i + 1) * n / width) /\
    forall i', 0 <= i' < width ->
      i' * n / width <= j < (i' + 1) * n / width -> i' = i.
Proof.
  intros Hw Hj.
  set (t := (j + 1) * width - 1).
  assert (Ht : 0 <= t < n * width) by (unfold t; nia).
  exists (t / n).
  pose proof (Z.div_mod t n ltac:(lia)) as Dt.
  pose proof (Z.mod_pos_bound t n ltac:(lia)) as Mt.
  assert (Hi0 : 0 <= t / n) by (apply Z.div_pos; lia).
  assert (Hi1 : t / n < width) by (apply Z.div_lt_upper_bound; lia).
  split; [ lia | ]. split.
  - split.
    + assert (t / n * n / width < j + 1); [ | lia ].
      apply Z.div_lt_upper_bound; [ lia | ]. unfold t in *. nia.
    + assert (j + 1 <= (t / n + 1) * n / width); [ | lia ].
      apply Z.div_le_lower_bound; [ lia | ]. unfold t in *. nia.
  - intros i' Hi' [Hlo Hhi].
    pose proof (Z.div_mod (i' * n) width ltac:(lia)) as D1.
    pose proof (Z.mod_pos_bound (i' * n) width ltac:(lia)) as M1.
    pose proof (Z.div_mod ((i' + 1) * n) width ltac:(lia)) as D2.
    pose proof (Z.mod_pos_bound ((i' + 1) * n) width ltac:(lia)) as M2.
    assert (A1 : i' * n <= t) by (unfold t; nia).
    assert (A2 : t < (i' + 1) * n) by (unfold t; nia).
    assert (i' <= t / n) by (apply Z.div_le_lower_bound; lia).
    assert (t / n < i' + 1) by (apply Z.div_lt_upper_bound; lia).
    lia.
Qed.

Lemma blockBounds_exact (n width i : Z) :
  0 < width < n -> n * width < 2 ^ 53 -> 0 <= i < width ->
  blockBounds n width i = specBounds n width i.
Proof.
  intros Hw Hnw Hi.
  assert (n < 2 ^ 53 /\ width < 2 ^ 53) as [Hn53 Hw53] by nia.
  unfold blockBounds, specBounds, specEdge.
  rewrite !blockEdge_exact by (try lia; nia).
  reflexivity.
Qed.

(** C1, as amended (downsample coverage).  For every sequence of values
    and every width with [1 <= width < len(values)] and
    [len(values) * width < 2^53], the downsampling pass partitions the
    input into [width] contiguous blocks with the bounds of the
    specification: the bounds never decrease, every input index lies in
    exactly one block, the last block ends at [len(values)], and each
    output sample is the mean of its block. *)
Theorem downsample_coverage (values : list float64) (width : Z) :
  1 <= width < Z.of_nat (List.length values) ->
  Z.of_nat (List.length values) * width < 2 ^ 53 ->
  downsampleCoverage values width.
Proof.
  intros Hw Hnw. unfold downsampleCoverage.
  set (n := Z.of_nat (List.length values)) in *.
  assert (HB : forall i, 0 <= i < width ->
             blockBounds n width i = (i * n / width, (i + 1) * n / width) /\
             i * n / width < (i + 1) * n / width <= n).
  { intros i Hi. rewrite blockBounds_exact by lia.
    apply specBounds_plain; lia. }
  assert (Hpos : forall i, 0 <= i -> 0 <= i * n / width).
  { intros i Hi. apply Z.div_pos; nia. }
  split; [ intros i Hi; apply blockBounds_exact; lia | ].
  split; [ intros i Hi; destruct (HB i Hi) as [-> ?]; simpl; lia | ].
  split.
  { intros i Hi. destruct (HB i ltac:(lia)) as [-> ?].
    destruct (HB (i + 1) ltac:(lia)) as [-> ?]. simpl. lia. }
  split.
  { intros j Hj.
    destruct (block_of_index n width j ltac:(lia) Hj) as (i & Hi & Hin & Huniq).
    exists i. split; [ exact Hi | ]. split.
    - unfold inBlock. destruct (HB i Hi) as [-> ?]. simpl. lia.
    - intros i' Hi' Hin'. apply Huniq; [ exact Hi' | ].
      unfold inBlock in Hin'. destruct (HB i' Hi') as [E ?].
      rewrite E in Hin'. simpl in Hin'. lia. }
  split.
  { destruct (HB (width - 1) ltac:(lia)) as [-> ?]. simpl.
    replace (width - 1 + 1) with width by lia.
    rewrite Z.mul_comm. apply Z.div_mul. lia. }
  assert (Hn50 : n <= 2 ^ 50 \/ 2 ^ 50 < n) by lia.
  assert (Hall : forall i, 0 <= i < width ->
             exists blk,
               slice values (fst (blockBounds n width i))
                 (snd (blockBounds n width i)) = Some blk /\
               blk <> [] /\
               downsampleAt values width i
               = Some (div (sumBlock blk) (of_int (Z.of_nat (List.length blk))))).
  { intros i Hi. destruct (HB i Hi) as [E Hlt].
    unfold downsampleAt. fold n. rewrite E. simpl fst. simpl snd.
    destruct (slice_some values (i * n / width) ((i + 1) * n / width))
      as (blk & Hs & Hlen).
    { split; [ apply Hpos | ]; lia. }
    { fold n. lia. }
    exists blk. rewrite Hs, Hlen. repeat split.
    intro Hnil. rewrite Hnil in Hlen. simpl in Hlen. lia. }
  destruct (for_each_some (downsampleAt values width) (Z.to_nat width) 0)
    as (out & Hout & Hlen & Hnth).
  { intros k Hk. destruct (Hall (0 + Z.of_nat k) ltac:(lia)) as (blk & _ & _ & ->).
    eexists. reflexivity. }
  exists out. split.
  { unfold resampleSeries. fold n.
    replace ((n =? 0) || (width <=? 0)) with false
      by (symmetry; apply orb_false_intro; [ apply Z.eqb_neq | apply Z.leb_gt ]; lia).
    replace (n =? width) with false by (symmetry; apply Z.eqb_neq; lia).
    replace (n >? width) with true
      by (symmetry; destruct (Z.gtb_spec n width); [ reflexivity | lia ]).
    exact Hout. }
  split; [ lia | ].
  intros i Hi. destruct (Hall i Hi) as (blk & Hs & Hne & Hd).
  exists blk. split; [ exact Hs | ]. split; [ exact Hne | ].
  unfold index. replace (i <? 0) with false by (symmetry; apply Z.ltb_ge; lia).
  rewrite (Hnth (Z.to_nat i)) by lia.
  rewrite <- Hd. f_equal. lia.
Qed.

(** An instance: five values at width 2. *)
Lemma downsample_coverage_witness :
  downsampleCoverage [one; two; five; ten; ten] 2.
Proof.
  apply (downsample_coverage [one; two; five; ten; ten] 2).
  - simpl. lia.
  - simpl. lia.
Defined.

(** C1 as stated fails: with 100000001 values and 99999997 blocks the
    product [width * len] is not a float64, the last edge is computed as
    100000000 and the last value lies in no block. *)
Lemma downsample_coverage_counterexample :
  blockBounds 100000001 99999997 99999996 = (99999999, 100000000) /\
  ~ (forall (values : list float64) (width : Z),
       1 <= width < Z.of_nat (List.length values) ->
       downsampleCoverage values width).
Proof.
  assert (E : blockBounds 100000001 99999997 99999996 = (99999999, 100000000))
    by (vm_compute; reflexivity).
  split; [ exact E | ].
  intro H.
  specialize (H (repeat zero (Z.to_nat 100000001)) 99999997).
  unfold downsampleCoverage in H. cbv zeta in H.
  rewrite repeat_length, Z2Nat.id in H by lia.
  destruct (H ltac:(lia)) as (_ & _ & _ & _ & Hlast & _).
  change (99999997 - 1) with 99999996 in Hlast.
  rewrite E in Hlast. simpl in Hlast. discriminate.
Qed.

(** * The rasterizer: [drawLine] *)

Lemma wrap64_id (z : Z) : - 2 ^ 63 <= z < 2 ^ 63 -> wrap64 z = z.
Proof. intro H. unfold wrap64. rewrite Z.mod_small; lia. Qed.

Lemma lineSx_cases (x0 x1 : Z) :
  (lineSx x0 x1 = 1 /\ Z.abs (x1 - x0) = x1 - x0 /\ x0 < x1) \/
  (lineSx x0 x1 = -1 /\ Z.abs (x1 - x0) = x0 - x1 /\ x1 <= x0).
Proof. unfold lineSx. destruct (Z.ltb_spec x0 x1); lia. Qed.

Lemma lineSy_cases (y0 y1 : Z) :
  (lineSy y0 y1 = 1 /\ Z.abs (y1 - y0) = y1 - y0 /\ y0 < y1) \/
  (lineSy y0 y1 = -1 /\ Z.abs (y1 - y0) = y0 - y1 /\ y1 <= y0).
Proof. exact (lineSx_cases y0 y1). Qed.

(** The arithmetic at the heart of the algorithm: on the last column the
    error term forbids a step along x, on the last row a step along y. *)
Lemma line_error_sign (DX DY a b : Z) :
  0 <= a <= DX -> 0 <= b <= DY ->
  (a = DX -> b < DY -> 2 * ((b + 1) * DX - (a + 1) * DY) < - DY) /\
  (b = DY -> a < DX -> DX < 2 * ((b + 1) * DX - (a + 1) * DY)).
Proof.
  intros Ha Hb. split.
  - intros -> Hlt.
    assert ((b + 1) * DX <= DY * DX) by (apply Z.mul_le_mono_nonneg_r; lia).
    lia.
  - intros -> Hlt.
    assert ((a + 1) * DY <= DX * DY) by (apply Z.mul_le_mono_nonneg_r; lia).
    lia.
Qed.

(** Along one axis: the position after [a] steps is the target exactly
    when [a] is the distance, and one more step does not overflow. *)
Lemma line_axis (x0 x1 a x : Z) :
  Z.abs x0 <= 2 ^ 51 -> Z.abs x1 <= 2 ^ 51 ->
  0 <= a <= Z.abs (x1 - x0) -> x = x0 + a * lineSx x0 x1 ->
  Z.abs (x1 - x0) <= 2 ^ 52 /\
  (x = x1 <-> a = Z.abs (x1 - x0)) /\
  wrap64 (x + lineSx x0 x1) = x + lineSx x0 x1 /\
  x + lineSx x0 x1 = x0 + (a + 1) * lineSx x0 x1.
Proof.
  intros H0 H1 Ha Hx.
  destruct (lineSx_cases x0 x1) as [(E1 & E2 & E3) | (E1 & E2 & E3)];
    rewrite E1, E2 in *;
    (split; [ lia | split; [ lia | split; [ apply wrap64_id; lia | lia ] ] ]).
Qed.

(** One iteration in the range without overflow: either the loop is left
    at the second endpoint, or it advances by one step along x, along y,
    or along both, and keeps its invariant. *)
Lemma lineStep_inv (x0 y0 x1 y1 a b : Z) (s : lineState) :
  dotRange x0 y0 -> dotRange x1 y1 ->
  lineInv x0 y0 x1 y1 a b s ->
  (lineStep (Z.abs (x1 - x0)) (- Z.abs (y1 - y0))
     (lineSx x0 x1) (lineSy y0 y1) x1 y1 s = None /\
   a = Z.abs (x1 - x0) /\ b = Z.abs (y1 - y0)) \/
  (exists a' b' s',
     lineStep (Z.abs (x1 - x0)) (- Z.abs (y1 - y0))
       (lineSx x0 x1) (lineSy y0 y1) x1 y1 s = Some s' /\
     lineInv x0 y0 x1 y1 a' b' s' /\
     a <= a' <= a + 1 /\ b <= b' <= b + 1 /\ a + b < a' + b').
Proof.
  intros [R0x R0y] [R1x R1y] [(Ha & Hb & Hx & Hy) [He Berr]].
  destruct s as [x y err]. cbn [lx ly lerr] in Hx, Hy, He, Berr.
  unfold lineInv, lineBox. simpl lx. simpl ly. simpl lerr.
  destruct (line_axis x0 x1 a x R0x R1x Ha Hx) as (HDX & Ex & Wx & Nx).
  destruct (line_axis y0 y1 b y R0y R1y Hb Hy) as (HDY & Ey & Wy & Ny).
  change (lineSx y0 y1) with (lineSy y0 y1) in Wy, Ny.
  pose proof (line_error_sign _ _ a b Ha Hb) as [F1 F2].
  rewrite <- He in F1, F2.
  set (DX := Z.abs (x1 - x0)) in *. set (DY := Z.abs (y1 - y0)) in *.
  set (sx := lineSx x0 x1) in *. set (sy := lineSy y0 y1) in *.
  clearbody DX DY sx sy.
  clear R0x R0y R1x R1y Hx Hy.
  unfold lineStep. simpl lx. simpl ly. simpl lerr.
  rewrite Wx, Wy.
  rewrite (wrap64_id (2 * err)) by lia.
  rewrite (wrap64_id (err + - DY)) by lia.
  rewrite (wrap64_id (err + - DY + DX)) by lia.
  rewrite (wrap64_id (err + DX)) by lia.
  assert (E11 : err + - DY + DX = (b + 1 + 1) * DX - (a + 1 + 1) * DY) by lia.
  assert (E10 : err + - DY = (b + 1) * DX - (a + 1 + 1) * DY) by lia.
  assert (E01 : err + DX = (b + 1 + 1) * DX - (a + 1) * DY) by lia.
  clear He Wx Wy.
  destruct (Z.eqb_spec x x1) as [Hxe | Hxe];
    destruct (Z.eqb_spec y y1) as [Hye | Hye]; simpl andb.
  - left. split; [ reflexivity | ]. tauto.
  - (* on the last column: only a step along y is possible *)
    assert (a = DX) by tauto. assert (b < DY) by (assert (b <> DY) by tauto; lia).
    destruct (Z.geb_spec (2 * err) (- DY)) as [C1 | C1]; [ exfalso; lia | ].
    destruct (Z.leb_spec (2 * err) DX) as [C2 | C2]; [ | exfalso; lia ].
    right. exists a, (b + 1), (mkLine x (y + sy) (err + DX)).
    split; [ reflexivity | ]. cbn [lx ly lerr]. rewrite E01, Ny.
    repeat split; lia.
  - (* on the last row: only a step along x is possible *)
    assert (b = DY) by tauto. assert (a < DX) by (assert (a <> DX) by tauto; lia).
    destruct (Z.geb_spec (2 * err) (- DY)) as [C1 | C1]; [ | exfalso; lia ].
    destruct (Z.leb_spec (2 * err) DX) as [C2 | C2]; [ exfalso; lia | ].
    right. exists (a + 1), b, (mkLine (x + sx) y (err + - DY)).
    split; [ reflexivity | ]. cbn [lx ly lerr]. rewrite E10, Nx.
    repeat split; lia.
  - assert (a < DX) by (assert (a <> DX) by tauto; lia).
    assert (b < DY) by (assert (b <> DY) by tauto; lia).
    destruct (Z.geb_spec (2 * err) (- DY)) as [C1 | C1];
      destruct (Z.leb_spec (2 * err) DX) as [C2 | C2].
    + right. exists (a + 1), (b + 1), (mkLine (x + sx) (y + sy) (err + - DY + DX)).
      split; [ reflexivity | ]. cbn [lx ly lerr]. rewrite E11, Nx, Ny.
      repeat split; lia.
    + right. exists (a + 1), b, (mkLine (x + sx) y (err + - DY)).
      split; [ reflexivity | ]. cbn [lx ly lerr]. rewrite E10, Nx.
      repeat split; lia.
    + right. exists a, (b + 1), (mkLine x (y + sy) (err + DX)).
      split; [ reflexivity | ]. cbn [lx ly lerr]. rewrite E01, Ny.
      repeat split; lia.
    + exfalso. lia.
Qed.

(** The loop with any callback computes the fold of the callback over the
    dots of [linePoints]. *)
Lemma lineLoop_points {A : Type} (plot : Z -> Z -> A -> A)
  (dx dy sx sy x1 y1 : Z) (fuel : nat) (s : lineState) (acc : A) :
  lineLoop plot dx dy sx sy x1 y1 fuel s acc
  = match linePoints dx dy sx sy x1 y1 fuel s with
    | Some pts => Some (fold_left (fun c p => plot (fst p) (snd p) c) pts acc)
    | None => None
    end.
Proof.
  revert s acc. induction fuel as [ | k IH ]; intros s acc; simpl.
  - reflexivity.
  - destruct (lineStep dx dy sx sy x1 y1 s) as [s' | ].
    + rewrite IH. destruct (linePoints dx dy sx sy x1 y1 k s'); reflexivity.
    + reflexivity.
Qed.

Lemma last_nonempty {A : Type} (l : list A) (a d d' : A) :
  last (a :: l) d = last (a :: l) d'.
Proof.
  revert a. induction l as [ | b l IH ]; intro a.
  - reflexivity.
  - change (last (b :: l) d = last (b :: l) d'). apply IH.
Qed.

(** From a state that satisfies the invariant the loop reaches the second
    endpoint along a path without gaps, in at most as many iterations as
    there are steps left, plus one. *)
Lemma linePoints_path (x0 y0 x1 y1 : Z) :
  dotRange x0 y0 -> dotRange x1 y1 ->
  forall (fuel : nat) (a b : Z) (s : lineState),
    lineInv x0 y0 x1 y1 a b s ->
    (Z.abs (x1 - x0) - a) + (Z.abs (y1 - y0) - b) < Z.of_nat fuel ->
    exists pts,
      linePoints (Z.abs (x1 - x0)) (- Z.abs (y1 - y0))
        (lineSx x0 x1) (lineSy y0 y1) x1 y1 fuel s = Some pts /\
      hd_error pts = Some (lx s, ly s) /\
      last pts (lx s, ly s) = (x1, y1) /\
      connected pts /\
      Z.of_nat (List.length pts)
      <= (Z.abs (x1 - x0) - a) + (Z.abs (y1 - y0) - b) + 1.
Proof.
  intros R0 R1. induction fuel as [ | k IH ]; intros a b s Hinv Hfuel.
  - destruct Hinv as [(Ha & Hb & _) _]. lia.
  - destruct (lineStep_inv x0 y0 x1 y1 a b s R0 R1 Hinv)
      as [(Hstep & Ea & Eb) | (a' & b' & s' & Hstep & Hinv' & Ha' & Hb' & Hprog)].
    + exists [(lx s, ly s)]. simpl. rewrite Hstep.
      destruct Hinv as [(Ha & Hb & Hx & Hy) _].
      destruct R0 as [R0x R0y], R1 as [R1x R1y].
      destruct (line_axis x0 x1 a (lx s) R0x R1x Ha Hx) as (_ & Ex & _).
      destruct (line_axis y0 y1 b (ly s) R0y R1y Hb Hy) as (_ & Ey & _).
      repeat split; try lia.
      f_equal; tauto.
    + destruct (IH a' b' s' Hinv' ltac:(lia)) as (pts & Hpts & Hhd & Hlast & Hconn & Hlen).
      exists ((lx s, ly s) :: pts). simpl. rewrite Hstep, Hpts.
      destruct pts as [ | q rest ]; [ discriminate | ].
      simpl in Hhd. injection Hhd as Hq.
      split; [ reflexivity | ]. split; [ reflexivity | ].
      split.
      { rewrite <- Hlast.
        change (last (q :: rest) (lx s, ly s) = last (q :: rest) (lx s', ly s')).
        apply last_nonempty. }
      split.
      { split; [ | exact Hconn ].
        destruct Hinv as [(_ & _ & Hx & Hy) _].
        destruct Hinv' as [(_ & _ & Hx' & Hy') _].
        subst q. unfold adjacent. simpl.
        rewrite Hx, Hy, Hx', Hy'.
        destruct (lineSx_cases x0 x1) as [(E1 & _) | (E1 & _)];
          destruct (lineSy_cases y0 y1) as [(E2 & _) | (E2 & _)];
          rewrite E1, E2;
          (split; [ lia | split; [ lia | intro Heq; injection Heq; lia ] ]). }
      simpl List.length in *. lia.
Qed.

(** * The rasterizer: dot grids *)

Lemma length_update_nth {A : Type} (n : nat) (f : A -> A) (l : list A) :
  List.length (update_nth n f l) = List.length l.
Proof.
  revert n. induction l as [ | a l IH ]; intros [ | n ]; simpl; auto.
Qed.

Lemma nth_update_nth_eq {A : Type} (n : nat) (f : A -> A) (l : list A) (d : A) :
  (n < List.length l)%nat -> nth n (update_nth n f l) d = f (nth n l d).
Proof.
  revert n. induction l as [ | a l IH ]; intros [ | n ] H; simpl in *;
    try lia; auto.
  apply IH. lia.
Qed.

Lemma nth_update_nth_neq {A : Type} (n k : nat) (f : A -> A) (l : list A) (d : A) :
  k <> n -> nth k (update_nth n f l) d = nth k l d.
Proof.
  revert n k. induction l as [ | a l IH ]; intros [ | n ] [ | k ] H; simpl;
    try congruence; auto.
Qed.



(** Off the canvas [setBrailleDot] changes nothing. *)
Lemma setBrailleDot_off (cells : grid) (x y : Z) :
  ~ onCanvas cells x y -> setBrailleDot cells x y = cells.
Proof.
  intro H. unfold setBrailleDot, onCanvas in *.
  destruct (Z.ltb_spec y 0); [ reflexivity | ].
  destruct (Z.ltb_spec x 0); [ reflexivity | ]. simpl orb.
  assert (0 <= Z.quot y 4) by (apply Z.quot_pos; lia).
  assert (0 <= Z.quot x 2) by (apply Z.quot_pos; lia).
  replace (Z.quot y 4 <? 0) with false by (symmetry; apply Z.ltb_ge; lia).
  replace (Z.quot x 2 <? 0) with false by (symmetry; apply Z.ltb_ge; lia).
  simpl orb.
  destruct (Z.geb_spec (Z.quot y 4) (Z.of_nat (List.length cells)));
    [ reflexivity | ].
  destruct (Z.geb_spec (Z.quot x 2)
              (Z.of_nat (List.length (nth (Z.to_nat (Z.quot y 4)) cells []))));
    [ reflexivity | ].
  exfalso. apply H. lia.
Qed.

(** On the canvas it sets the bit of the dot in the mask of its cell. *)
Lemma setBrailleDot_on (cells : grid) (x y : Z) :
  onCanvas cells x y ->
  setBrailleDot cells x y
  = update_nth (Z.to_nat (Z.quot y 4))
      (update_nth (Z.to_nat (Z.quot x 2))
         (fun m => Z.lor m (brailleDotMask (Z.rem x 2) (Z.rem y 4)))) cells.
Proof.
  intros (Hx & Hy & Hcy & Hcx). unfold setBrailleDot.
  assert (0 <= Z.quot y 4) by (apply Z.quot_pos; lia).
  assert (0 <= Z.quot x 2) by (apply Z.quot_pos; lia).
  replace (y <? 0) with false by (symmetry; apply Z.ltb_ge; lia).
  replace (x <? 0) with false by (symmetry; apply Z.ltb_ge; lia).
  replace (Z.quot y 4 <? 0) with false by (symmetry; apply Z.ltb_ge; lia).
  replace (Z.quot x 2 <? 0) with false by (symmetry; apply Z.ltb_ge; lia).
  simpl orb.
  destruct (Z.geb_spec (Z.quot y 4) (Z.of_nat (List.length cells)));
    [ lia | ].
  destruct (Z.geb_spec (Z.quot x 2)
              (Z.of_nat (List.length (nth (Z.to_nat (Z.quot y 4)) cells []))));
    [ lia | ].
  reflexivity.
Qed.

(** [setBrailleDot] keeps the size of the grid. *)
Lemma setBrailleDot_dims (cells : grid) (x y : Z) :
  List.length (setBrailleDot cells x y) = List.length cells /\
  forall r, List.length (nth r (setBrailleDot cells x y) [])
            = List.length (nth r cells []).
Proof.
  destruct (Classical_Prop.classic (onCanvas cells x y)) as [On | Off].
  - rewrite (setBrailleDot_on _ _ _ On).
    destruct On as (Hx & Hy & Hcy & Hcx).
    assert (0 <= Z.quot y 4) by (apply Z.quot_pos; lia).
    split; [ apply length_update_nth | ].
    intro r. destruct (Nat.eq_dec r (Z.to_nat (Z.quot y 4))) as [-> | Hr].
    + rewrite nth_update_nth_eq by lia. apply length_update_nth.
    + now rewrite nth_update_nth_neq.
  - rewrite (setBrailleDot_off _ _ _ Off). auto.
Qed.







(** ** C2 *)

Lemma lineDx_exact (x0 x1 : Z) :
  inInt64 x0 -> inInt64 x1 -> Z.abs (x1 - x0) < 2 ^ 53 ->
  lineDx x0 x1 = Z.abs (x1 - x0).
Proof.
  intros H0 H1 Hd. unfold lineDx.
  rewrite wrap64_id by (unfold inInt64 in *; lia).
  now apply absDelta_exact.
Qed.

Lemma lineDy_exact (y0 y1 : Z) :
  inInt64 y0 -> inInt64 y1 -> Z.abs (y1 - y0) < 2 ^ 53 ->
  lineDy y0 y1 = - Z.abs (y1 - y0).
Proof.
  intros H0 H1 Hd. unfold lineDy.
  rewrite (wrap64_id (y1 - y0)) by (unfold inInt64 in *; lia).
  rewrite absDelta_exact by exact Hd.
  apply wrap64_id. lia.
Qed.

Lemma dotRange_int64 (x y : Z) : dotRange x y -> inInt64 x /\ inInt64 y.
Proof. unfold dotRange, inInt64. lia. Qed.



(** ** C10 *)

(** Along one axis, for any two values of type [int]. *)
Lemma line_axis64 (x0 x1 a x : Z) :
  inInt64 x0 -> inInt64 x1 ->
  0 <= a <= Z.abs (x1 - x0) -> x = x0 + a * lineSx x0 x1 ->
  (x = x1 <-> a = Z.abs (x1 - x0)) /\
  Z.abs (x1 - x) = Z.abs (x1 - x0) - a /\
  (a < Z.abs (x1 - x0) ->
   wrap64 (x + lineSx x0 x1) = x0 + (a + 1) * lineSx x0 x1).
Proof.
  unfold inInt64. intros H0 H1 Ha Hx.
  destruct (lineSx_cases x0 x1) as [(E1 & E2 & E3) | (E1 & E2 & E3)];
    rewrite E1, E2 in *;
    (split; [ lia | split; [ lia | intro; rewrite wrap64_id; lia ] ]).
Qed.

(** One iteration, whatever the error term: as soon as [dy <= 0 <= dx] the
    loop is left or moves one step closer to the second endpoint. *)
Lemma lineStep_box (x0 y0 x1 y1 dx dy a b : Z) (s : lineState) :
  inInt64 x0 -> inInt64 y0 -> inInt64 x1 -> inInt64 y1 ->
  dy <= 0 <= dx ->
  lineBox x0 y0 x1 y1 a b s ->
  match lineStep dx dy (lineSx x0 x1) (lineSy y0 y1) x1 y1 s with
  | None => True
  | Some s' =>
      exists a' b',
        lineBox x0 y0 x1 y1 a' b' s' /\
        a <= a' <= a + 1 /\ b <= b' <= b + 1 /\ a + b < a' + b'
  end.
Proof.
  intros I0x I0y I1x I1y Hd (Ha & Hb & Hx & Hy).
  destruct (line_axis64 x0 x1 a (lx s) I0x I1x Ha Hx) as (Ex & _ & Wx).
  destruct (line_axis64 y0 y1 b (ly s) I0y I1y Hb Hy) as (Ey & _ & Wy).
  change (lineSx y0 y1) with (lineSy y0 y1) in Wy.
  unfold lineStep, lineBox.
  set (e2 := wrap64 (2 * lerr s)). clearbody e2.
  destruct (Z.eqb_spec (lx s) x1) as [Hxe | Hxe];
    destruct (Z.eqb_spec (ly s) y1) as [Hye | Hye]; simpl andb; cbv iota.
  - exact I.
  - destruct (Z.geb_spec e2 dy); [ exact I | ].
    destruct (Z.leb_spec e2 dx); [ | lia ].
    exists a, (b + 1). cbn [lx ly]. rewrite Wy by (assert (b <> Z.abs (y1 - y0)) by tauto; lia).
    repeat split; try lia.
  - assert (a < Z.abs (x1 - x0)) by (assert (a <> Z.abs (x1 - x0)) by tauto; lia).
    destruct (Z.geb_spec e2 dy).
    + destruct (Z.leb_spec e2 dx); [ exact I | ].
      exists (a + 1), b. cbn [lx ly]. rewrite Wx by assumption.
      repeat split; try lia.
    + destruct (Z.leb_spec e2 dx); [ exact I | lia ].
  - assert (a < Z.abs (x1 - x0)) by (assert (a <> Z.abs (x1 - x0)) by tauto; lia).
    assert (b < Z.abs (y1 - y0)) by (assert (b <> Z.abs (y1 - y0)) by tauto; lia).
    destruct (Z.geb_spec e2 dy); destruct (Z.leb_spec e2 dx).
    + exists (a + 1), (b + 1). cbn [lx ly]. rewrite Wx, Wy by assumption.
      repeat split; try lia.
    + exists (a + 1), b. cbn [lx ly]. rewrite Wx by assumption.
      repeat split; try lia.
    + exists a, (b + 1). cbn [lx ly]. rewrite Wy by assumption.
      repeat split; try lia.
    + lia.
Qed.

Lemma lineBox_stepsLeft (x0 y0 x1 y1 a b : Z) (s : lineState) :
  inInt64 x0 -> inInt64 y0 -> inInt64 x1 -> inInt64 y1 ->
  lineBox x0 y0 x1 y1 a b s ->
  stepsLeft x1 y1 s = (Z.abs (x1 - x0) - a) + (Z.abs (y1 - y0) - b).
Proof.
  intros I0x I0y I1x I1y (Ha & Hb & Hx & Hy).
  destruct (line_axis64 x0 x1 a (lx s) I0x I1x Ha Hx) as (_ & Dx & _).
  destruct (line_axis64 y0 y1 b (ly s) I0y I1y Hb Hy) as (_ & Dy & _).
  unfold stepsLeft. lia.
Qed.

(** The loop is left after at most as many iterations as there are steps
    to the second endpoint, plus one. *)
Lemma linePoints_terminates (x0 y0 x1 y1 dx dy : Z) :
  inInt64 x0 -> inInt64 y0 -> inInt64 x1 -> inInt64 y1 ->
  dy <= 0 <= dx ->
  forall (fuel : nat) (a b : Z) (s : lineState),
    lineBox x0 y0 x1 y1 a b s ->
    (Z.abs (x1 - x0) - a) + (Z.abs (y1 - y0) - b) < Z.of_nat fuel ->
    exists pts,
      linePoints dx dy (lineSx x0 x1) (lineSy y0 y1) x1 y1 fuel s = Some pts /\
      Z.of_nat (List.length pts)
      <= (Z.abs (x1 - x0) - a) + (Z.abs (y1 - y0) - b) + 1.
Proof.
  intros I0x I0y I1x I1y Hd.
  induction fuel as [ | k IH ]; intros a b s Hbox Hfuel.
  - destruct Hbox as (Ha & Hb & _). lia.
  - pose proof (lineStep_box x0 y0 x1 y1 dx dy a b s I0x I0y I1x I1y Hd Hbox)
      as Hstep.
    simpl. destruct (lineStep dx dy (lineSx x0 x1) (lineSy y0 y1) x1 y1 s)
      as [s' | ].
    + destruct Hstep as (a' & b' & Hbox' & Ha' & Hb' & Hprog).
      destruct (IH a' b' s' Hbox' ltac:(lia)) as (pts & -> & Hlen).
      eexists. split; [ reflexivity | ]. simpl List.length. lia.
    + eexists. split; [ reflexivity | ].
      destruct Hbox as (Ha & Hb & _). simpl. lia.
Qed.

(** [int(math.Abs(float64(d)))] is not negative, unless the conversion
    to [int] overflows. *)
Lemma absDelta_range (d : Z) :
  0 <= absDelta d <= int64_max \/ absDelta d = int64_min.
Proof.
  unfold absDelta, to_int, abs.
  destruct (of_int d) as [ s | s | | s m e ]; simpl SFabs; cbv iota.
  - left. unfold int64_max. lia.
  - now right.
  - now right.
  - set (t := trunc (S754_finite false m e)).
    assert (Ht : 0 <= t).
    { unfold t, trunc. destruct e as [ | p | p ].
      - rewrite Z.shiftl_0_r. lia.
      - apply Z.shiftl_nonneg. lia.
      - apply Z.shiftr_nonneg. lia. }
    destruct (Z.leb_spec int64_min t); destruct (Z.leb_spec t int64_max);
      simpl andb; cbv iota; try (now right).
    left. lia.
Qed.

(** The distance along y that [drawLine] computes is never positive. *)
Lemma lineDy_nonpos (y0 y1 : Z) : lineDy y0 y1 <= 0.
Proof.
  unfold lineDy.
  destruct (absDelta_range (wrap64 (y1 - y0))) as [H | ->].
  - unfold int64_max in H. rewrite wrap64_id; lia.
  - vm_compute. discriminate.
Qed.

(** The distance along x that it computes is not negative between dots
    less than [2^53] apart. *)
Lemma lineDx_nonneg (x0 x1 : Z) :
  inInt64 x0 -> inInt64 x1 -> Z.abs (x1 - x0) < 2 ^ 53 ->
  0 <= lineDx x0 x1.
Proof. intros H0 H1 Hd. rewrite lineDx_exact by assumption. lia. Qed.

(** [drawLine] returns between any two dots for which the distance along x
    it computes is not negative. *)
Lemma drawLine_returns {A : Type} (x0 y0 x1 y1 : Z)
  (plot : Z -> Z -> A -> A) (acc : A) :
  inInt64 x0 -> inInt64 y0 -> inInt64 x1 -> inInt64 y1 ->
  0 <= lineDx x0 x1 ->
  exists pts,
    lineTrace x0 y0 x1 y1 = Some pts /\
    Z.of_nat (List.length pts) <= Z.abs (x1 - x0) + Z.abs (y1 - y0) + 1 /\
    drawLine x0 y0 x1 y1 plot acc
    = Some (fold_left (fun c p => plot (fst p) (snd p) c) pts acc).
Proof.
  intros I0x I0y I1x I1y Hdx.
  assert (Hbox : lineBox x0 y0 x1 y1 0 0
                   (mkLine x0 y0 (wrap64 (lineDx x0 x1 + lineDy y0 y1)))).
  { unfold lineBox. cbn [lx ly]. repeat split; lia. }
  destruct (linePoints_terminates x0 y0 x1 y1 (lineDx x0 x1) (lineDy y0 y1)
              I0x I0y I1x I1y) with (fuel := lineFuel x0 y0 x1 y1)
      (a := 0) (b := 0)
      (s := mkLine x0 y0 (wrap64 (lineDx x0 x1 + lineDy y0 y1)))
    as (pts & Hpts & Hlen).
  { pose proof (lineDy_nonpos y0 y1). lia. }
  { exact Hbox. }
  { unfold lineFuel. lia. }
  exists pts. split; [ exact Hpts | ]. split; [ lia | ].
  unfold drawLine, drawLineFuel. rewrite lineLoop_points.
  unfold lineTrace in Hpts. now rewrite Hpts.
Qed.



(** The rasterization of one series never hangs: every segment it draws
    joins two dots of the canvas. *)
Lemma rasterFrom_some (style : lineStyle) (mm : seriesMinMaxRange)
  (height : Z) :
  1 <= height <= 2 ^ 50 ->
  forall (values : list float64) (x prevX prevY : Z) (cells : grid),
    0 <= x -> x + Z.of_nat (List.length values) <= 2 ^ 51 ->
    (prevX < 0 \/ (prevX = 2 * (x - 1) /\ 1 <= x /\ 0 <= prevY < height * 4)) ->
    exists g, rasterFrom style mm height x values prevX prevY cells = Some g.
Proof.
  intro Hh. induction values as [ | v rest IH ];
    intros x prevX prevY cells Hx Hlen Hprev.
  - eexists. reflexivity.
  - simpl List.length in Hlen. simpl rasterFrom.
    set (row0 := valueToRow v (rmin mm) (rmax mm) (height * 4)).
    set (row1 := if row0 <? 0 then 0 else row0).
    set (row := if row1 >=? height * 4 then height * 4 - 1 else row1).
    assert (Hrow : 0 <= row < height * 4).
    { unfold row, row1. destruct (Z.ltb_spec row0 0);
        destruct (Z.geb_spec 0 (height * 4));
        destruct (Z.geb_spec row0 (height * 4)); lia. }
    clearbody row. clear row0 row1.
    assert (Hdrawn : exists cells',
               (if prevX >=? 0
                then drawLine prevX prevY (x * 2) row (plotDot style) cells
                else if shouldPlot style (x * 2)
                     then Some (setBrailleDot cells (x * 2) row)
                     else Some cells) = Some cells').
    { destruct (Z.geb_spec prevX 0) as [Hp | Hp].
      - destruct Hprev as [Hneg | (-> & Hx1 & HpY)]; [ lia | ].
        destruct (drawLine_returns (2 * (x - 1)) prevY (x * 2) row
                    (plotDot style) cells) as (pts & _ & _ & ->);
          try (apply lineDx_nonneg); unfold inInt64; try lia.
        eexists. reflexivity.
      - destruct (shouldPlot style (x * 2)); eexists; reflexivity. }
    destruct Hdrawn as (cells' & ->).
    apply IH; try lia.
Qed.

Lemma rasterAll_some (height width : Z) :
  1 <= height <= 2 ^ 50 ->
  forall (scaled : list Series) (si : Z),
    Forall (fun s => Z.of_nat (List.length (Values s)) <= 2 ^ 51) scaled ->
    exists gs, rasterAll si scaled height width = Some gs.
Proof.
  intro Hh. induction scaled as [ | s rest IH ]; intros si Hall.
  - eexists. reflexivity.
  - inversion Hall as [ | s' rest' Hs Hrest ]; subst.
    simpl. unfold rasterSeries.
    destruct (rasterFrom_some (styleOf si) (seriesRange (Values s)) height Hh
                (Values s) 0 (-1) (-1) (makeCells height width))
      as (g & ->); try lia.
    destruct (IH (si + 1) Hrest) as (gs & ->).
    eexists. reflexivity.
Qed.

Lemma resampleAll_lengths (series scaled : list Series) (width : Z) :
  resampleAll series width = Some scaled ->
  Forall (fun s => Values s = [] \/ Z.of_nat (List.length (Values s)) = width)
    scaled.
Proof.
  revert scaled. induction series as [ | s rest IH ]; intros scaled; simpl.
  - intro H. injection H as <-. constructor.
  - destruct (resampleSeries (Values s) width) as [vs | ] eqn:E; [ | discriminate ].
    destruct (resampleAll rest width) as [r | ]; [ | discriminate ].
    intro H. injection H as <-. constructor.
    + simpl. apply resampleSeries_out_length in E. tauto.
    + now apply IH.
Qed.

Lemma plotHeight_pos (height : Z) : 1 <= plotHeight height.
Proof.
  unfold plotHeight, defaultPlotHeight. destruct (Z.leb_spec height 0); lia.
Qed.

(** A call of [plotSeries] on a canvas of a size that can be allocated
    never hangs in [drawLine]. *)
Lemma plotSeries_never_loops {W E : Type} (write : W -> string -> W * option E)
  (env : Env) (w : W) (title : string) (series : list Series)
  (width height : Z) (forceColor : bool) :
  plotHeight height <= 2 ^ 50 -> plotWidth env width <= 2 ^ 50 ->
  plotSeries write env w title series width height forceColor <> Loops.
Proof.
  intros Hh Hw. unfold plotSeries.
  destruct (Z.of_nat (List.length (filterSeries series)) =? 0); [ discriminate | ].
  destruct (maxSeriesLen (filterSeries series) =? 0); [ discriminate | ].
  destruct (resampleAll (filterSeries series) (plotWidth env width))
    as [scaled | ] eqn:Hres; [ | discriminate ].
  destruct (rasterAll_some (plotHeight height) (plotWidth env width)
              ltac:(pose proof (plotHeight_pos height); lia) scaled 0)
    as (gs & ->).
  - apply resampleAll_lengths in Hres.
    eapply Forall_impl; [ | exact Hres ].
    intros s [-> | Hs]; simpl; lia.
  - destruct (writeLines write _ w). discriminate.
Qed.

(** Where the distance along x, converted through float64, overflows, the
    loop of [drawLine] can come to a state it never leaves: no number of
    iterations is enough. *)
Lemma lineLoop_stuck {A : Type} (plot : Z -> Z -> A -> A)
  (dx dy sx sy x1 y1 : Z) (s : lineState) :
  lineStep dx dy sx sy x1 y1 s = Some s ->
  forall (fuel : nat) (acc : A),
    lineLoop plot dx dy sx sy x1 y1 fuel s acc = None.
Proof.
  intros Hstep. induction fuel as [ | k IH ]; intro acc; simpl.
  - reflexivity.
  - rewrite Hstep. apply IH.
Qed.

(** C10, as amended (termination).  [drawLine] terminates for every pair
    of endpoints of type [int] for which the distance along x that it
    computes, [int(math.Abs(float64(x1 - x0)))], is not negative, as it is
    for all endpoints less than [2^53] apart, hence for the dots of every
    canvas that fits in memory: its loop runs at most
    [|x1-x0| + |y1-y0| + 1] times, each iteration either leaving the loop
    or moving one step closer to the second endpoint.  Hence no call of
    [plotSeries] hangs: its work is bounded by the canvas and the number
    of series. *)
Theorem drawLine_terminates :
  (forall x0 y0 x1 y1 : Z,
     inInt64 x0 -> inInt64 y0 -> inInt64 x1 -> inInt64 y1 ->
     0 <= lineDx x0 x1 ->
     (exists pts,
        lineTrace x0 y0 x1 y1 = Some pts /\
        Z.of_nat (List.length pts) <= Z.abs (x1 - x0) + Z.abs (y1 - y0) + 1) /\
     (forall (A : Type) (plot : Z -> Z -> A -> A) (acc : A),
        exists r, drawLine x0 y0 x1 y1 plot acc = Some r) /\
     (forall (a b : Z) (s : lineState),
        lineBox x0 y0 x1 y1 a b s ->
        match lineStep (lineDx x0 x1) (lineDy y0 y1)
                (lineSx x0 x1) (lineSy y0 y1) x1 y1 s with
        | None => True
        | Some s' => stepsLeft x1 y1 s' < stepsLeft x1 y1 s
        end)) /\
  (forall x0 x1 : Z,
     inInt64 x0 -> inInt64 x1 -> Z.abs (x1 - x0) < 2 ^ 53 ->
     0 <= lineDx x0 x1) /\
  (forall (W E : Type) (write : W -> string -> W * option E) (env : Env)
          (w : W) (title : string) (series : list Series)
          (width height : Z) (forceColor : bool),
     plotHeight height <= 2 ^ 50 -> plotWidth env width <= 2 ^ 50 ->
     plotSeries write env w title series width height forceColor <> Loops).
Proof.
  split; [ | split ].
  - intros x0 y0 x1 y1 I0x I0y I1x I1y Hdx. split; [ | split ].
    + destruct (drawLine_returns x0 y0 x1 y1 plotNothing tt)
        as (pts & Hpts & Hlen & _); try assumption.
      exists pts. auto.
    + intros A plot acc.
      destruct (drawLine_returns x0 y0 x1 y1 plot acc)
        as (pts & _ & _ & ->); try assumption.
      eexists. reflexivity.
    + intros a b s Hbox.
      pose proof (lineDy_nonpos y0 y1) as Hdy.
      pose proof (lineStep_box x0 y0 x1 y1 (lineDx x0 x1) (lineDy y0 y1) a b s
                    I0x I0y I1x I1y ltac:(lia) Hbox) as Hstep.
      destruct (lineStep _ _ _ _ _ _ s) as [s' | ]; [ | exact I ].
      destruct Hstep as (a' & b' & Hbox' & Ha' & Hb' & Hprog).
      rewrite (lineBox_stepsLeft x0 y0 x1 y1 a b s) by assumption.
      rewrite (lineBox_stepsLeft x0 y0 x1 y1 a' b' s') by assumption.
      lia.
  - apply lineDx_nonneg.
  - intros. now apply plotSeries_never_loops.
Qed.

(** An instance: the segment from (0, 0) to (4, 3), and the end-to-end
    test. *)
Lemma drawLine_terminates_witness :
  (exists pts,
     lineTrace 0 0 4 3 = Some pts /\
     Z.of_nat (List.length pts) <= Z.abs (4 - 0) + Z.abs (3 - 0) + 1) /\
  0 <= lineDx 0 4 /\
  plotSeries bufferWrite quietEnv EmptyString "Test Plot"
    [seriesA; seriesB] 5 4 false <> Loops.
Proof.
  split; [ | split ].
  - apply (proj1 drawLine_terminates 0 0 4 3);
      unfold inInt64; try lia. vm_compute. discriminate.
  - apply (proj1 (proj2 drawLine_terminates)); unfold inInt64; simpl; lia.
  - apply (proj2 (proj2 drawLine_terminates)); vm_compute; discriminate.
Defined.

(** C10 as stated fails: from (0, 0) to (-2^63, 1) the distance along x is
    [2^63] as a float64, its conversion to [int] overflows and gives
    [-2^63], and the loop stays at (0, 0) for ever: after any number of
    iterations it has not been left. *)
Lemma drawLine_terminates_counterexample :
  lineDx 0 (- 2 ^ 63) = - 2 ^ 63 /\
  lineDy 0 1 = -1 /\
  lineStep (- 2 ^ 63) (-1) (-1) 1 (- 2 ^ 63) 1 (mkLine 0 0 (2 ^ 63 - 1))
  = Some (mkLine 0 0 (2 ^ 63 - 1)) /\
  ~ (exists (fuel : nat) (r : unit),
       drawLineFuel fuel 0 0 (- 2 ^ 63) 1 plotNothing tt = Some r).
Proof.
  assert (Hs : lineStep (- 2 ^ 63) (-1) (-1) 1 (- 2 ^ 63) 1
                 (mkLine 0 0 (2 ^ 63 - 1))
               = Some (mkLine 0 0 (2 ^ 63 - 1)))
    by (vm_compute; reflexivity).
  split; [ vm_compute; reflexivity | ].
  split; [ vm_compute; reflexivity | ].
  split; [ exact Hs | ].
  intros (fuel & r & Hr).
  unfold drawLineFuel in Hr.
  change (lineDx 0 (- 2 ^ 63)) with (- 2 ^ 63) in Hr.
  change (lineDy 0 1) with (-1) in Hr.
  change (lineSx 0 (- 2 ^ 63)) with (-1) in Hr.
  change (lineSy 0 1) with 1 in Hr.
  change (wrap64 (- 2 ^ 63 + -1)) with (2 ^ 63 - 1) in Hr.
  rewrite (lineLoop_stuck plotNothing _ _ _ _ _ _ _ Hs) in Hr.
  discriminate.
Qed.

(** * The cell compositor *)

(** The guards of [composeCell] amount to reading a mask of 0 outside the
    grid. *)
Lemma composeFrom_cons (cells : grid) (rest : list grid) (x y i mask c : Z) :
  composeFrom (cells :: rest) x y i mask c
  = if cellAt cells x y =? 0
    then composeFrom rest x y (i + 1) mask c
    else composeFrom rest x y (i + 1) (Z.lor mask (cellAt cells x y))
           (if c =? -1 then i else c).
Proof.
  simpl composeFrom. unfold cellAt.
  destruct (Z.ltb_spec y 0) as [Hy | Hy]; simpl orb; [ reflexivity | ].
  destruct (Z.geb_spec y (Z.of_nat (List.length cells))) as [Hy' | Hy'].
  - rewrite (nth_overflow cells) by lia.
    destruct (x <? 0); simpl; destruct (Z.to_nat x); reflexivity.
  - destruct (Z.ltb_spec x 0) as [Hx | Hx]; simpl orb; [ reflexivity | ].
    destruct (Z.geb_spec x (Z.of_nat (List.length (nth (Z.to_nat y) cells []))))
      as [Hx' | Hx']; [ | reflexivity ].
    rewrite (nth_overflow (nth (Z.to_nat y) cells [])) by lia. reflexivity.
Qed.

Lemma fold_lor_0 (ms : list Z) (mask : Z) :
  fold_left Z.lor (0 :: ms) mask = fold_left Z.lor ms mask.
Proof. simpl. now rewrite Z.lor_0_r. Qed.

Lemma composeFrom_mask (seriesCells : list grid) (x y i mask c : Z) :
  fst (composeFrom seriesCells x y i mask c)
  = fold_left Z.lor (map (fun cells => cellAt cells x y) seriesCells) mask.
Proof.
  revert i mask c. induction seriesCells as [ | cells rest IH ];
    intros i mask c.
  - reflexivity.
  - rewrite composeFrom_cons. simpl map.
    destruct (Z.eqb_spec (cellAt cells x y) 0) as [E | E].
    + rewrite IH, E. now rewrite fold_lor_0.
    + rewrite IH. reflexivity.
Qed.

Lemma composeFrom_owner_set (seriesCells : list grid) (x y i mask c : Z) :
  c <> -1 -> snd (composeFrom seriesCells x y i mask c) = c.
Proof.
  revert i mask. induction seriesCells as [ | cells rest IH ];
    intros i mask Hc.
  - reflexivity.
  - rewrite composeFrom_cons.
    destruct (cellAt cells x y =? 0); [ now apply IH | ].
    replace (c =? -1) with false by (symmetry; now apply Z.eqb_neq).
    now apply IH.
Qed.

Lemma composeFrom_owner (seriesCells : list grid) (x y i mask : Z) :
  0 <= i ->
  (snd (composeFrom seriesCells x y i mask (-1)) = -1 /\
   Forall (fun cells => cellAt cells x y = 0) seriesCells) \/
  (exists k, 0 <= k < Z.of_nat (List.length seriesCells) /\
     snd (composeFrom seriesCells x y i mask (-1)) = i + k /\
     cellAt (nth (Z.to_nat k) seriesCells []) x y <> 0 /\
     forall j, 0 <= j < k ->
               cellAt (nth (Z.to_nat j) seriesCells []) x y = 0).
Proof.
  revert i mask. induction seriesCells as [ | cells rest IH ];
    intros i mask Hi.
  - left. split; [ reflexivity | constructor ].
  - rewrite composeFrom_cons.
    destruct (Z.eqb_spec (cellAt cells x y) 0) as [E | E].
    + destruct (IH (i + 1) mask ltac:(lia)) as [(Hs & Hall) | (k & Hk & Hs & Hnz & Hlow)].
      * left. split; [ exact Hs | now constructor ].
      * right. exists (k + 1). simpl List.length.
        split; [ lia | ]. split; [ lia | ].
        replace (Z.to_nat (k + 1)) with (S (Z.to_nat k)) by lia.
        split; [ exact Hnz | ].
        intros j Hj. destruct (Z.eq_dec j 0) as [-> | Hj0]; [ exact E | ].
        replace (Z.to_nat j) with (S (Z.to_nat (j - 1))) by lia.
        apply Hlow. lia.
    + right. exists 0. simpl List.length.
      split; [ lia | ]. split.
      * simpl Z.eqb. rewrite composeFrom_owner_set by lia. lia.
      * split; [ exact E | ]. intros j Hj. lia.
Qed.

(** ** C9 *)

(** C9 (cell composition).  For every cell position and every list of
    per-series dot grids, the mask [composeCell] returns is the bitwise OR
    of the masks of all series at that cell, and the index it returns is
    the lowest index of a series whose mask there is nonzero, or -1 (none)
    when all are zero.  A grid that does not contain the cell contributes
    the mask 0, so the grids need not even have the same size. *)
Theorem composeCell_spec (seriesCells : list grid) (x y : Z) :
  fst (composeCell seriesCells x y) = orOfMasks seriesCells x y /\
  lowestOwner seriesCells x y (snd (composeCell seriesCells x y)).
Proof.
  unfold composeCell, orOfMasks, lowestOwner. split.
  - apply composeFrom_mask.
  - destruct (composeFrom_owner seriesCells x y 0 0 ltac:(lia))
      as [(Hs & Hall) | (k & Hk & Hs & Hnz & Hlow)].
    + left. auto.
    + right. rewrite Hs. simpl Z.add. auto.
Qed.

(** * The renderer *)

(** ** C7 *)

Lemma filterSeries_In (series : list Series) (s : Series) :
  In s (filterSeries series) <-> In s series /\ Values s <> [].
Proof.
  unfold filterSeries. rewrite filter_In. split; intros [H1 H2]; split; auto.
  - intro E. rewrite E in H2. discriminate.
  - destruct (Values s); [ congruence | reflexivity ].
Qed.


Lemma plotWidth_min (env : Env) (width : Z) :
  minPlotWidth <= plotWidth env width.
Proof.
  unfold plotWidth, minPlotWidth.
  set (w1 := if width <=? 0 then autoPlotWidth env else width).
  destruct (Z.ltb_spec w1 10); [ simpl; lia | ].
  destruct (Z.ltb_spec w1 1); lia.
Qed.

(** The first loop of [plotSeries] does not panic on series of a length a
    Go slice can have. *)
Lemma resampleAll_some (series : list Series) (width : Z) :
  1 <= width ->
  Forall (fun s => Values s <> [] /\
                   Z.of_nat (List.length (Values s)) <= 2 ^ 50) series ->
  exists scaled, resampleAll series width = Some scaled.
Proof.
  intros Hw. induction series as [ | s rest IH ]; intro Hall.
  - eexists. reflexivity.
  - inversion Hall as [ | s' rest' [Hne Hlen] Hrest ]; subst.
    simpl.
    destruct (resampleSeries_some (Values s) width Hne Hw Hlen)
      as (out & ->).
    destruct (IH Hrest) as (scaled & ->).
    eexists. reflexivity.
Qed.



(** ** Widths *)

Lemma resampleAll_width (series scaled : list Series) (width : Z) :
  1 <= width ->
  Forall (fun s => Values s <> []) series ->
  resampleAll series width = Some scaled ->
  Forall (fun s => Z.of_nat (List.length (Values s)) = width) scaled.
Proof.
  intro Hw. revert scaled. induction series as [ | s rest IH ];
    intros scaled Hne; simpl.
  - intro H. injection H as <-. constructor.
  - inversion Hne as [ | s' rest' Hs Hrest ]; subst.
    destruct (resampleSeries (Values s) width) as [vs | ] eqn:Hres;
      [ | discriminate ].
    destruct (resampleAll rest width) as [r | ]; [ | discriminate ].
    intro H. injection H as <-. constructor.
    + simpl. apply resampleSeries_out_length in Hres.
      destruct Hres as [(_ & [Hv | Hw0]) | Hlen]; [ contradiction | lia | exact Hlen ].
    + now apply IH.
Qed.

Lemma maxSeriesLen_ge (series : list Series) (acc : Z) :
  acc <= fold_left
           (fun maxLen s =>
              if Z.of_nat (List.length (Values s)) >? maxLen
              then Z.of_nat (List.length (Values s)) else maxLen)
           series acc /\
  forall s, In s series ->
    Z.of_nat (List.length (Values s))
    <= fold_left
         (fun maxLen s =>
            if Z.of_nat (List.length (Values s)) >? maxLen
            then Z.of_nat (List.length (Values s)) else maxLen)
         series acc.
Proof.
  revert acc. induction series as [ | s rest IH ]; intro acc; simpl.
  - split; [ lia | tauto ].
  - destruct (IH (if Z.of_nat (List.length (Values s)) >? acc
                  then Z.of_nat (List.length (Values s)) else acc))
      as [H1 H2].
    destruct (Z.gtb_spec (Z.of_nat (List.length (Values s))) acc).
    + split; [ lia | ]. intros s' [<- | Hin]; [ lia | now apply H2 ].
    + split; [ lia | ]. intros s' [<- | Hin]; [ lia | now apply H2 ].
Qed.

Lemma upto_length (n : Z) : Z.of_nat (List.length (upto n)) = Z.max 0 n.
Proof. unfold upto. rewrite length_map, length_seq. lia. Qed.

(** ** C5 *)

(** C5 (degenerate range).  When the minimum and maximum of a resampled
    series differ by less than 1e-9, the range of the series is widened to
    [min - 1, max + 1], and it is this widened range that maps the values
    to rows and that is printed on the min/max line.  In particular the
    constant series [5, 5, 5], resampled to width 3, is printed with
    [min=4.00 max=6.00], also by a whole call of [plotSeries]. *)
Theorem degenerate_range_widened (s : Series) (si height width : Z) :
  ltb (abs (sub (snd (seriesMinMaxSingle (Values s)))
                (fst (seriesMinMaxSingle (Values s))))) eps_1e9 = true ->
  let minVal := fst (seriesMinMaxSingle (Values s)) in
  let maxVal := snd (seriesMinMaxSingle (Values s)) in
  seriesRange (Values s) = mkRange (sub minVal one) (add maxVal one) /\
  rasterAll si [s] height width
  = match rasterSeries si (mkRange (sub minVal one) (add maxVal one))
            height width (Values s) with
    | Some g => Some [g]
    | None => None
    end /\
  rangeLine s
  = (Name s ++ ": min=" ++ fmt_f2 (sub minVal one)
       ++ " max=" ++ fmt_f2 (add maxVal one))%string /\
  resampleSeries [five; five; five] 3 = Some [five; five; five] /\
  rangeLine (mkSeries "S" [five; five; five]) = "S: min=4.00 max=6.00"%string /\
  exists rest,
    renderToBuffer quietEnv EmptyString [mkSeries "S" [five; five; five]]
      3 4 false
    = Returns (scaleNote ++ newline ++ "S: min=4.00 max=6.00" ++ newline
                 ++ rest)%string None.
Proof.
  intros Hdeg minVal maxVal.
  assert (Hr : seriesRange (Values s)
               = mkRange (sub minVal one) (add maxVal one)).
  { unfold seriesRange, minVal, maxVal.
    destruct (seriesMinMaxSingle (Values s)) as [mn mx]. simpl in *.
    now rewrite Hdeg. }
  split; [ exact Hr | ]. split.
  { simpl rasterAll. rewrite Hr.
    destruct (rasterSeries si _ height width (Values s)); reflexivity. }
  split.
  { unfold rangeLine. rewrite Hr. reflexivity. }
  split; [ vm_compute; reflexivity | ].
  split; [ vm_compute; reflexivity | ].
  vm_compute. eexists. reflexivity.
Qed.

(** An instance: the constant series of the specification. *)
Lemma degenerate_range_widened_witness :
  seriesRange [five; five; five] = mkRange four (of_int 6).
Proof.
  destruct (degenerate_range_widened (mkSeries "S" [five; five; five]) 0 4 10)
    as (Hr & _).
  - vm_compute. reflexivity.
  - simpl Values in Hr. rewrite Hr. vm_compute. reflexivity.
Defined.

(** ** C6 *)

(** C6 (end-to-end).  The call with series A = [1,2,3,2,1] and
    B = [1,1,2,3,4], width 5, height 4, title "Test Plot" and color disabled
    writes, in this order: the title line; the line "Scaled per series; see
    min/max below."; one min/max line per series; exactly 4 data rows, with
    the gutters "100%" on the first row, "50%" on the middle row (row 2),
    "0%" on the last row and blanks on the other one, each followed by the
    separator and 10 Braille cells (the width 5 being raised to the
    minimum 10); a line that starts with "Legend: " and names A as solid
    and B as dashed; and one empty line. *)
Theorem end_to_end_test (env : Env) (forceColor : bool) :
  shouldUseColor env forceColor = false ->
  plotSeries bufferWrite env EmptyString "Test Plot" [seriesA; seriesB]
    5 4 forceColor
  = Returns
      (textOf
         [ "Test Plot"; "Scaled per series; see min/max below.";
           "A: min=1.00 max=2.78"; "B: min=1.00 max=4.00";
           "100%" ++ axisSeparator
             ++ glyphs [0; 0; 0; 160; 11; 49; 64; 0; 0; 1];
           "    " ++ axisSeparator
             ++ glyphs [0; 0; 160; 3; 0; 0; 113; 65; 0; 0];
           " 50%" ++ axisSeparator
             ++ glyphs [0; 112; 1; 0; 64; 0; 0; 49; 64; 0];
           "  0%" ++ axisSeparator
             ++ glyphs [240; 65; 0; 10; 0; 0; 0; 0; 24; 68];
           "Legend: " ++ utf8 (brailleFromMask 1) ++ " A (solid)  "
             ++ utf8 (brailleFromMask 1) ++ " B (dashed)";
           EmptyString ])%string
      None.
Proof.
  intro Hc. unfold plotSeries. rewrite Hc.
  vm_compute. reflexivity.
Qed.

(** An instance: the sink of the test, a buffer, with [NO_COLOR] unset. *)
Lemma end_to_end_test_witness :
  exists out,
    plotSeries bufferWrite quietEnv EmptyString "Test Plot" [seriesA; seriesB]
      5 4 false
    = Returns out None.
Proof.
  eexists. apply (end_to_end_test quietEnv false). reflexivity.
Defined.

(** ** C3 *)

Lemma hasEsc_app (a b : string) :
  hasEsc (a ++ b) = hasEsc a || hasEsc b.
Proof.
  induction a as [ | c a IH ]; simpl.
  - reflexivity.
  - rewrite IH. now rewrite orb_assoc.
Qed.

Lemma hasEsc_concat (sep : string) (l : list string) :
  hasEsc sep = false -> Forall (fun s => hasEsc s = false) l ->
  hasEsc (String.concat sep l) = false.
Proof.
  intros Hsep Hl. induction Hl as [ | s l Hs Hrest IH ].
  - reflexivity.
  - simpl. destruct l as [ | s' l' ].
    + exact Hs.
    + rewrite !hasEsc_app, Hs, Hsep. exact IH.
Qed.

Lemma hasEsc_textOf (lines : list string) :
  Forall (fun s => hasEsc s = false) lines -> hasEsc (textOf lines) = false.
Proof.
  intro H. unfold textOf. apply hasEsc_concat; [ reflexivity | ].
  induction H as [ | s l Hs Hrest IH ]; simpl; constructor.
  - rewrite hasEsc_app, Hs. reflexivity.
  - exact IH.
Qed.

(** What a buffer holds after the lines have been printed. *)
Lemma writeLines_buffer (lines : list string) (buf : string) :
  writeLines bufferWrite lines buf = ((buf ++ textOf lines)%string, None).
Proof.
  revert buf. induction lines as [ | line rest IH ]; intro buf.
  - simpl. unfold textOf. simpl.
    f_equal. induction buf as [ | c b IHb ]; simpl; [ reflexivity | ].
    now rewrite <- IHb.
  - simpl. unfold Fprintln, bufferWrite. rewrite IH.
    f_equal. unfold textOf. simpl map.
    assert (Hc : forall (a : string) (l : list string),
               String.concat EmptyString (a :: l)
               = (a ++ String.concat EmptyString l)%string).
    { intros a [ | b l ]; simpl; [ | reflexivity ].
      induction a as [ | c a IHa ]; simpl; [ reflexivity | ].
      now rewrite <- IHa. }
    rewrite Hc.
    induction buf as [ | c b IHb ]; simpl; [ reflexivity | ].
    now rewrite IHb.
Qed.

Lemma decimal_noEsc (n : Z) : hasEsc (decimal n) = false.
Proof.
  unfold decimal.
  assert (H : forall d, hasEsc (NilEmpty.string_of_uint d) = false).
  { induction d; simpl; auto. }
  unfold NilZero.string_of_uint.
  destruct (N.to_uint (Z.to_N n)); try apply H. reflexivity.
Qed.

Lemma fmt_f2_noEsc (x : float64) : hasEsc (fmt_f2 x) = false.
Proof.
  destruct x as [ [ | ] | [ | ] | | s m e ]; try reflexivity.
  unfold fmt_f2. rewrite !hasEsc_app, !decimal_noEsc.
  destruct s; reflexivity.
Qed.

Lemma In_upto (n m : Z) : 0 <= m < n -> In m (upto n).
Proof.
  intro H. unfold upto. apply in_map_iff. exists (Z.to_nat m).
  split; [ lia | ]. apply in_seq. lia.
Qed.

(** No Braille glyph contains the escape byte. *)
Lemma glyph_noEsc (m : Z) :
  0 <= m < 256 -> hasEsc (utf8 (brailleFromMask m)) = false.
Proof.
  intro H.
  assert (Hall : forallb (fun k => negb (hasEsc (utf8 (brailleFromMask k))))
                   (upto 256) = true) by (vm_compute; reflexivity).
  rewrite forallb_forall in Hall.
  specialize (Hall m (In_upto 256 m H)).
  now apply negb_true_iff in Hall.
Qed.

Lemma lor_byte (a m : Z) :
  0 <= a < 256 -> 0 <= m < 256 -> 0 <= Z.lor a m < 256.
Proof.
  intros Ha Hm.
  assert (H0 : 0 <= Z.lor a m) by (apply Z.lor_nonneg; lia).
  split; [ exact H0 | ].
  destruct (Z.eq_dec (Z.lor a m) 0) as [E | E]; [ lia | ].
  change 256 with (2 ^ 8). apply Z.log2_lt_pow2; [ lia | ].
  rewrite Z.log2_lor by lia.
  assert (La : Z.log2 a < 8).
  { destruct (Z.eq_dec a 0) as [-> | ]; [ simpl; lia | ].
    apply Z.log2_lt_pow2; simpl; lia. }
  assert (Lm : Z.log2 m < 8).
  { destruct (Z.eq_dec m 0) as [-> | ]; [ simpl; lia | ].
    apply Z.log2_lt_pow2; simpl; lia. }
  lia.
Qed.

Lemma brailleDotMask_byte (x y : Z) : 0 <= brailleDotMask x y < 256.
Proof.
  unfold brailleDotMask.
  repeat match goal with
         | |- context [if ?c then _ else _] => destruct c
         end; lia.
Qed.

Lemma Forall_update_nth {A : Type} (P : A -> Prop) (n : nat) (f : A -> A)
  (l : list A) :
  Forall P l -> (forall a, P a -> P (f a)) -> Forall P (update_nth n f l).
Proof.
  intros Hl Hf. revert n. induction Hl as [ | a l Ha Hrest IH ];
    intros [ | n ]; simpl; constructor; auto.
Qed.

Lemma setBrailleDot_byte (cells : grid) (x y : Z) :
  byteGrid cells -> byteGrid (setBrailleDot cells x y).
Proof.
  intro H. unfold setBrailleDot.
  repeat match goal with
         | |- context [if ?c then _ else _] => destruct c
         end; try exact H.
  apply Forall_update_nth; [ exact H | ].
  intros row Hrow. apply Forall_update_nth; [ exact Hrow | ].
  intros m Hm. apply lor_byte; [ exact Hm | apply brailleDotMask_byte ].
Qed.

Lemma plotDot_byte (style : lineStyle) (x y : Z) (cells : grid) :
  byteGrid cells -> byteGrid (plotDot style x y cells).
Proof.
  intro H. unfold plotDot. destruct (shouldPlot style x); [ | exact H ].
  now apply setBrailleDot_byte.
Qed.

(** What the callback preserves, the loop of [drawLine] preserves. *)
Lemma lineLoop_preserves {A : Type} (P : A -> Prop) (plot : Z -> Z -> A -> A)
  (dx dy sx sy x1 y1 : Z) (fuel : nat) (s : lineState) (acc r : A) :
  (forall x y a, P a -> P (plot x y a)) ->
  lineLoop plot dx dy sx sy x1 y1 fuel s acc = Some r -> P acc -> P r.
Proof.
  intro Hp. revert s acc. induction fuel as [ | k IH ]; intros s acc; simpl.
  - discriminate.
  - destruct (lineStep dx dy sx sy x1 y1 s) as [s' | ].
    + intros Hr Hacc. eapply IH; [ exact Hr | ]. now apply Hp.
    + intros Hr Hacc. injection Hr as <-. now apply Hp.
Qed.

Lemma rasterFrom_byte (style : lineStyle) (mm : seriesMinMaxRange)
  (height : Z) (values : list float64) :
  forall (x prevX prevY : Z) (cells g : grid),
    rasterFrom style mm height x values prevX prevY cells = Some g ->
    byteGrid cells -> byteGrid g.
Proof.
  induction values as [ | v rest IH ]; intros x prevX prevY cells g; simpl.
  - intros H Hc. injection H as <-. exact Hc.
  - match goal with
    | |- context [rasterFrom _ _ _ _ _ ?px ?py] =>
        set (qx := px); set (qy := py)
    end.
    destruct (prevX >=? 0).
    + destruct (drawLine prevX prevY qx qy (plotDot style) cells)
        as [cells' | ] eqn:Hd; [ | discriminate ].
      intros H Hc. eapply IH; [ exact H | ].
      unfold drawLine, drawLineFuel in Hd.
      eapply lineLoop_preserves; [ | exact Hd | exact Hc ].
      intros. now apply plotDot_byte.
    + destruct (shouldPlot style qx).
      * intros H Hc. eapply IH; [ exact H | ]. now apply setBrailleDot_byte.
      * intros H Hc. eapply IH; [ exact H | exact Hc ].
Qed.

Lemma makeCells_byte (height width : Z) : byteGrid (makeCells height width).
Proof.
  unfold byteGrid, makeCells. apply Forall_forall. intros row Hrow.
  apply repeat_spec in Hrow. subst row.
  apply Forall_forall. intros m Hm. apply repeat_spec in Hm. lia.
Qed.

Lemma rasterAll_byte (scaled : list Series) (height width : Z) :
  forall (si : Z) (gs : list grid),
    rasterAll si scaled height width = Some gs -> Forall byteGrid gs.
Proof.
  induction scaled as [ | s rest IH ]; intros si gs; simpl.
  - intro H. injection H as <-. constructor.
  - destruct (rasterSeries si _ height width (Values s)) as [g | ] eqn:Hg;
      [ | discriminate ].
    destruct (rasterAll (si + 1) rest height width) as [r | ] eqn:Hr;
      [ | discriminate ].
    intro H. injection H as <-. constructor.
    + unfold rasterSeries in Hg.
      eapply rasterFrom_byte; [ exact Hg | apply makeCells_byte ].
    + eapply IH. exact Hr.
Qed.

Lemma cellAt_byte (cells : grid) (x y : Z) :
  byteGrid cells -> 0 <= cellAt cells x y < 256.
Proof.
  intro H. unfold cellAt. destruct ((y <? 0) || (x <? 0)); [ lia | ].
  destruct (Nat.lt_ge_cases (Z.to_nat y) (List.length cells)) as [Hy | Hy].
  - assert (Hrow : Forall (fun m => 0 <= m < 256) (nth (Z.to_nat y) cells [])).
    { unfold byteGrid in H. rewrite Forall_forall in H. apply H.
      now apply nth_In. }
    destruct (Nat.lt_ge_cases (Z.to_nat x)
                (List.length (nth (Z.to_nat y) cells []))) as [Hx | Hx].
    + rewrite Forall_forall in Hrow. apply Hrow. now apply nth_In.
    + rewrite (nth_overflow _ 0 Hx). lia.
  - rewrite (nth_overflow cells [] Hy). destruct (Z.to_nat x); simpl; lia.
Qed.

Lemma composeCell_byte (seriesCells : list grid) (x y : Z) :
  Forall byteGrid seriesCells -> 0 <= fst (composeCell seriesCells x y) < 256.
Proof.
  intro H. unfold composeCell. rewrite composeFrom_mask.
  assert (G : forall acc, 0 <= acc < 256 ->
              0 <= fold_left Z.lor
                     (map (fun cells => cellAt cells x y) seriesCells) acc
              < 256).
  { induction H as [ | cells rest Hc Hrest IH ]; intros acc Hacc; simpl.
    - exact Hacc.
    - apply IH. apply lor_byte; [ exact Hacc | now apply cellAt_byte ]. }
  apply G. lia.
Qed.

Lemma styleName_noEsc (i : Z) : hasEsc (sname (styleOf i)) = false.
Proof.
  unfold styleOf.
  destruct (Z.to_nat (Z.rem i 4)) as [ | [ | [ | [ | [ | k ] ] ] ] ];
    reflexivity.
Qed.

Lemma axisLabel_noEsc (height : Z) (k : nat) :
  hasEsc (nth k (makeAxisLabels height) EmptyString) = false.
Proof.
  assert (H : Forall (fun s => hasEsc s = false) (makeAxisLabels height)).
  { unfold makeAxisLabels.
    assert (H0 : Forall (fun s => hasEsc s = false)
                   (repeat EmptyString (Z.to_nat height))).
    { apply Forall_forall. intros s Hs. apply repeat_spec in Hs. now subst s. }
    destruct (height <=? 0); [ exact H0 | ].
    destruct (height >? 2); destruct (height >? 1);
      repeat (apply Forall_update_nth; [ | intros; reflexivity ]);
      exact H0. }
  destruct (Nat.lt_ge_cases k (List.length (makeAxisLabels height))) as [Hk | Hk].
  - rewrite Forall_forall in H. apply H. now apply nth_In.
  - now rewrite nth_overflow.
Qed.

Lemma padLeft_noEsc (n : nat) (s : string) :
  hasEsc s = false -> hasEsc (padLeft n s) = false.
Proof.
  intro H. unfold padLeft. rewrite hasEsc_app, H, orb_false_r.
  induction (n - String.length s)%nat as [ | k IH ]; simpl; auto.
Qed.

Lemma legendParts_noEsc (series : list Series) (i : Z) :
  Forall (fun s => hasEsc (Name s) = false) series ->
  Forall (fun s => hasEsc s = false) (legendParts i series false).
Proof.
  intro H. revert i. induction H as [ | s rest Hs Hrest IH ]; intro i.
  - constructor.
  - change (legendParts i (s :: rest) false)
      with ((utf8 (brailleFromMask 1) ++ " " ++ Name s
               ++ " (" ++ sname (styleOf i) ++ ")")%string
              :: legendParts (i + 1) rest false).
    constructor; [ | apply IH ].
    rewrite !hasEsc_app, Hs, styleName_noEsc. reflexivity.
Qed.

Lemma resampleAll_names (series scaled : list Series) (width : Z) :
  resampleAll series width = Some scaled ->
  map Name scaled = map Name series.
Proof.
  revert scaled. induction series as [ | s rest IH ]; intros scaled; simpl.
  - intro H. now injection H as <-.
  - destruct (resampleSeries (Values s) width); [ | discriminate ].
    destruct (resampleAll rest width) as [r | ]; [ | discriminate ].
    intro H. injection H as <-. simpl. f_equal. now apply IH.
Qed.

(** Without color no line of the plot contains an escape byte, unless the
    title or a series name does. *)
Lemma plotLines_noEsc (title : string) (scaled : list Series)
  (seriesCells : list grid) (width height : Z) :
  hasEsc title = false ->
  Forall (fun s => hasEsc (Name s) = false) scaled ->
  Forall byteGrid seriesCells ->
  Forall (fun s => hasEsc s = false)
    (plotLines title scaled seriesCells width height false).
Proof.
  intros Ht Hn Hb. unfold plotLines.
  apply Forall_app. split.
  { destruct (String.eqb title EmptyString); constructor; auto. }
  apply Forall_app. split.
  { constructor; [ reflexivity | constructor ]. }
  apply Forall_app. split.
  { apply Forall_forall. intros l Hl. apply in_map_iff in Hl.
    destruct Hl as (s & <- & Hs).
    rewrite Forall_forall in Hn. unfold rangeLine.
    rewrite !hasEsc_app, (Hn s Hs), !fmt_f2_noEsc. reflexivity. }
  apply Forall_app. split.
  { apply Forall_forall. intros l Hl. apply in_map_iff in Hl.
    destruct Hl as (y & <- & Hy).
    unfold dataRow, rowPrefix. rewrite !hasEsc_app.
    rewrite padLeft_noEsc by apply axisLabel_noEsc.
    replace (hasEsc axisSeparator) with false by reflexivity. simpl orb.
    apply hasEsc_concat; [ reflexivity | ].
    apply Forall_forall. intros c Hc. unfold rowCells in Hc.
    apply in_map_iff in Hc. destruct Hc as (x & <- & Hx).
    unfold renderCell.
    pose proof (composeCell_byte seriesCells x y Hb) as Hm.
    destruct (composeCell seriesCells x y) as [mask colorIdx].
    simpl andb. cbv iota. apply glyph_noEsc. exact Hm. }
  constructor; [ | constructor; [ reflexivity | constructor ] ].
  unfold renderLegend. rewrite hasEsc_app. simpl orb.
  apply hasEsc_concat; [ reflexivity | ]. now apply legendParts_noEsc.
Qed.

(** C3, as amended (color suppression).  When [NO_COLOR] is set to a
    non-empty value (even if the caller forces color), or when color is not
    forced and the sink is not a terminal, the text written contains no
    escape byte 0x1b, provided that neither the title nor a series name
    contains one: those are written as they come. *)
Theorem no_escape_without_color (env : Env) (title : string)
  (series : list Series) (width height : Z) (forceColor : bool)
  (out : string) (err : option unit) :
  NO_COLOR env <> EmptyString \/
    (forceColor = false /\ sinkIsTerminal env = false) ->
  hasEsc title = false ->
  Forall (fun s => hasEsc (Name s) = false) series ->
  renderToBuffer env title series width height forceColor = Returns out err ->
  hasEsc out = false.
Proof.
  intros Hoff Ht Hn. unfold renderToBuffer, plotSeries.
  assert (Hc : shouldUseColor env forceColor = false).
  { unfold shouldUseColor.
    destruct (String.eqb_spec (NO_COLOR env) EmptyString) as [E | E]; simpl.
    - destruct Hoff as [Hno | [-> ->] ]; [ contradiction | reflexivity ].
    - reflexivity. }
  rewrite Hc.
  destruct (Z.of_nat (List.length (filterSeries series)) =? 0).
  { intro H. injection H as <- _. reflexivity. }
  destruct (maxSeriesLen (filterSeries series) =? 0).
  { intro H. injection H as <- _. reflexivity. }
  destruct (resampleAll (filterSeries series) (plotWidth env width))
    as [scaled | ] eqn:Hres; [ | discriminate ].
  destruct (rasterAll 0 scaled (plotHeight height) (plotWidth env width))
    as [seriesCells | ] eqn:Hras; [ | discriminate ].
  rewrite writeLines_buffer. intro H. injection H as <- _.
  simpl append. apply hasEsc_textOf. apply plotLines_noEsc.
  - exact Ht.
  - apply resampleAll_names in Hres.
    apply Forall_forall. intros s Hs.
    assert (Hin : In (Name s) (map Name (filterSeries series))).
    { rewrite <- Hres. now apply in_map. }
    apply in_map_iff in Hin. destruct Hin as (s0 & E & Hs0).
    rewrite <- E. apply filterSeries_In in Hs0.
    rewrite Forall_forall in Hn. now apply Hn.
  - eapply rasterAll_byte. exact Hras.
Qed.

(** An instance: color forced on, [NO_COLOR=1]. *)
Lemma no_escape_without_color_witness :
  exists out,
    renderToBuffer (mkEnv "1" None true) "Test Plot" [seriesA; seriesB] 5 4 true
    = Returns out None /\
    hasEsc out = false.
Proof.
  destruct (renderToBuffer (mkEnv "1" None true) "Test Plot"
              [seriesA; seriesB] 5 4 true) as [out err | | ] eqn:Hr;
    try (vm_compute in Hr; discriminate).
  exists out. split.
  - f_equal. clear - Hr. vm_compute in Hr. congruence.
  - apply (no_escape_without_color (mkEnv "1" None true) "Test Plot"
             [seriesA; seriesB] 5 4 true out err).
    + left. discriminate.
    + reflexivity.
    + repeat constructor.
    + exact Hr.
Defined.

(** C3 as stated fails.  With [NO_COLOR=1] a title that contains an escape
    byte is written as it is; and the code has no color mode "forced off":
    without forcing, a sink that is a terminal gets colors even though the
    caller did not ask for them. *)
Lemma no_escape_without_color_counterexample :
  (exists out,
     renderToBuffer (mkEnv "1" None false) (String esc "[1mBold") [seriesA]
       5 4 true
     = Returns out None /\
     hasEsc out = true) /\
  (exists out,
     renderToBuffer (mkEnv EmptyString None true) "Test Plot" [seriesA] 5 4 false
     = Returns out None /\
     hasEsc out = true).
Proof.
  split; eexists; (split; [ vm_compute; reflexivity | vm_compute; reflexivity ]).
Qed.

(** * Further properties of the plot engine *)

(** ** Axis labels and the layout of a data row *)

Lemma nth_repeat_default {A : Type} (a : A) (n k : nat) : nth k (repeat a n) a = a.
Proof.
  revert k. induction n as [ | n IH ]; intros [ | k ]; simpl; auto.
Qed.

(** [makeAxisLabels] gives one label per row: "100%" on the first row,
    "0%" on the last row when there are at least two, "50%" on row
    [height/2] when there are at least three, and nothing elsewhere; the
    three labels never overwrite one another. *)
Theorem makeAxisLabels_layout (height y : Z) :
  1 <= height -> 0 <= y < height ->
  Z.of_nat (List.length (makeAxisLabels height)) = height /\
  nth (Z.to_nat y) (makeAxisLabels height) EmptyString
  = if y =? 0 then axisLabelTop
    else if y =? height - 1 then axisLabelBottom
    else if y =? Z.quot height 2 then axisLabelMid
    else EmptyString.
Proof.
  intros Hh Hy. unfold makeAxisLabels.
  replace (height <=? 0) with false by (symmetry; apply Z.leb_gt; lia).
  set (l0 := repeat EmptyString (Z.to_nat height)).
  assert (L0 : List.length l0 = Z.to_nat height) by apply repeat_length.
  assert (Hq : 0 <= Z.quot height 2 < height).
  { rewrite Z.quot_div_nonneg by lia.
    split; [ apply Z.div_pos; lia | apply Z.div_lt_upper_bound; lia ]. }
  assert (Hq2 : 2 < height -> 0 < Z.quot height 2 < height - 1).
  { intro H2. rewrite Z.quot_div_nonneg by lia.
    split; [ apply Z.div_str_pos; lia | ].
    apply Z.div_lt_upper_bound; lia. }
  split.
  { destruct (height >? 2); destruct (height >? 1);
      rewrite ?length_update_nth; lia. }
  destruct (Z.gtb_spec height 2) as [H2 | H2];
    destruct (Z.gtb_spec height 1) as [H1 | H1]; try lia.
  - (* three rows or more *)
    specialize (Hq2 H2).
    destruct (Z.eqb_spec y 0) as [E0 | E0].
    + subst y. rewrite nth_update_nth_neq by lia.
      rewrite nth_update_nth_neq by lia.
      rewrite nth_update_nth_eq by (rewrite L0; lia). reflexivity.
    + destruct (Z.eqb_spec y (height - 1)) as [E1 | E1].
      * subst y. rewrite nth_update_nth_eq
          by (rewrite !length_update_nth, L0; lia). reflexivity.
      * rewrite nth_update_nth_neq by lia.
        destruct (Z.eqb_spec y (Z.quot height 2)) as [E2 | E2].
        -- subst y. rewrite nth_update_nth_eq
             by (rewrite !length_update_nth, L0; lia). reflexivity.
        -- rewrite nth_update_nth_neq by lia.
           rewrite nth_update_nth_neq by lia.
           apply nth_repeat_default.
  - (* two rows *)
    assert (height = 2) by lia. subst height.
    destruct (Z.eqb_spec y 0) as [E0 | E0].
    + subst y. reflexivity.
    + assert (y = 1) by lia. subst y. reflexivity.
  - (* one row *)
    assert (height = 1) by lia. subst height.
    assert (y = 0) by lia. subst y. reflexivity.
Qed.

(** An instance: the rows of the end-to-end test. *)
Lemma makeAxisLabels_layout_witness :
  Z.of_nat (List.length (makeAxisLabels 4)) = 4 /\
  nth (Z.to_nat 2) (makeAxisLabels 4) EmptyString
  = if 2 =? 0 then axisLabelTop
    else if 2 =? 4 - 1 then axisLabelBottom
    else if 2 =? Z.quot 4 2 then axisLabelMid
    else EmptyString.
Proof.
  apply (makeAxisLabels_layout 4 2); lia.
Defined.

Lemma codePoints_app (a b : string) :
  codePoints (a ++ b) = codePoints a + codePoints b.
Proof.
  induction a as [ | c a IH ]; simpl.
  - reflexivity.
  - rewrite IH. lia.
Qed.

Lemma string_length_app (a b : string) :
  String.length (a ++ b) = (String.length a + String.length b)%nat.
Proof.
  induction a as [ | c a IH ]; simpl; [ reflexivity | now rewrite IH ].
Qed.

(** A Braille glyph is one character, encoded in three bytes. *)
Lemma glyph_size (m : Z) :
  0 <= m < 256 ->
  codePoints (utf8 (brailleFromMask m)) = 1 /\
  String.length (utf8 (brailleFromMask m)) = 3%nat.
Proof.
  intro H.
  assert (Hall : forallb
                   (fun k => (codePoints (utf8 (brailleFromMask k)) =? 1)
                             && Nat.eqb (String.length (utf8 (brailleFromMask k))) 3)
                   (upto 256) = true) by (vm_compute; reflexivity).
  rewrite forallb_forall in Hall.
  specialize (Hall m (In_upto 256 m H)).
  apply andb_true_iff in Hall. destruct Hall as [H1 H2].
  split; [ now apply Z.eqb_eq | now apply Nat.eqb_eq ].
Qed.

(** The labels of [makeAxisLabels] are the three constants or empty. *)
Lemma axisLabel_cases (height : Z) (k : nat) :
  let s := nth k (makeAxisLabels height) EmptyString in
  s = axisLabelTop \/ s = axisLabelMid \/ s = axisLabelBottom
  \/ s = EmptyString.
Proof.
  assert (H : Forall (fun s => s = axisLabelTop \/ s = axisLabelMid
                               \/ s = axisLabelBottom \/ s = EmptyString)
                (makeAxisLabels height)).
  { unfold makeAxisLabels.
    assert (H0 : Forall (fun s => s = axisLabelTop \/ s = axisLabelMid
                                  \/ s = axisLabelBottom \/ s = EmptyString)
                   (repeat EmptyString (Z.to_nat height))).
    { apply Forall_forall. intros s Hs. apply repeat_spec in Hs. auto. }
    destruct (height <=? 0); [ exact H0 | ].
    destruct (height >? 2); destruct (height >? 1);
      repeat (apply Forall_update_nth; [ | intros; auto ]);
      exact H0. }
  simpl.
  destruct (Nat.lt_ge_cases k (List.length (makeAxisLabels height))) as [Hk | Hk].
  - rewrite Forall_forall in H. apply H. now apply nth_In.
  - rewrite nth_overflow by exact Hk. auto.
Qed.

(** The gutter of a row: four columns and the separator. *)
Lemma rowPrefix_size (height y : Z) :
  codePoints (rowPrefix (makeAxisLabels height) y) = 4 + 3 /\
  String.length (rowPrefix (makeAxisLabels height) y) = (4 + 5)%nat.
Proof.
  unfold rowPrefix.
  destruct (axisLabel_cases height (Z.to_nat y)) as [-> | [-> | [-> | ->]]];
    split; vm_compute; reflexivity.
Qed.

Lemma rowCells_size (seriesCells : list grid) (y : Z) (cols : list Z) :
  Forall byteGrid seriesCells ->
  codePoints (String.concat EmptyString
                (map (renderCell false seriesCells y) cols))
  = Z.of_nat (List.length cols) /\
  String.length (String.concat EmptyString
                   (map (renderCell false seriesCells y) cols))
  = (3 * List.length cols)%nat.
Proof.
  intro Hb.
  assert (Hcell : forall x,
             codePoints (renderCell false seriesCells y x) = 1 /\
             String.length (renderCell false seriesCells y x) = 3%nat).
  { intro x. unfold renderCell.
    pose proof (composeCell_byte seriesCells x y Hb) as Hm.
    destruct (composeCell seriesCells x y) as [mask colorIdx].
    simpl andb. cbv iota. apply glyph_size. exact Hm. }
  induction cols as [ | x rest IH ].
  - split; reflexivity.
  - destruct (Hcell x) as [C1 C2]. destruct IH as [I1 I2].
    assert (E : String.concat EmptyString
                  (map (renderCell false seriesCells y) (x :: rest))
                = (renderCell false seriesCells y x
                     ++ String.concat EmptyString
                          (map (renderCell false seriesCells y) rest))%string).
    { simpl. destruct (map (renderCell false seriesCells y) rest) eqn:Em.
      - simpl. clear. induction (renderCell false seriesCells y x);
          simpl; [ reflexivity | now f_equal ].
      - reflexivity. }
    rewrite E, codePoints_app, string_length_app, C1, C2, I1, I2.
    split; simpl List.length; lia.
Qed.

(** Without color every data row has the same size: the gutter of 4
    columns, the separator of 3, and one Braille character per column of
    the plot, that is [7 + width] characters in [9 + 3 * width] bytes. *)
Theorem dataRow_width (seriesCells : list grid) (height width y : Z) :
  Forall byteGrid seriesCells -> 0 <= width ->
  codePoints (dataRow false seriesCells (makeAxisLabels height) width y)
  = 4 + 3 + width /\
  Z.of_nat (String.length
              (dataRow false seriesCells (makeAxisLabels height) width y))
  = 4 + 5 + 3 * width.
Proof.
  intros Hb Hw. unfold dataRow, rowCells.
  rewrite codePoints_app, string_length_app.
  destruct (rowPrefix_size height y) as [P1 P2].
  destruct (rowCells_size seriesCells y (upto width) Hb) as [R1 R2].
  rewrite P1, P2, R1, R2.
  pose proof (upto_length width) as Hu. lia.
Qed.

(** An instance: a row of the empty canvas of the end-to-end test. *)
Lemma dataRow_width_witness :
  codePoints (dataRow false [makeCells 4 10] (makeAxisLabels 4) 10 1)
  = 4 + 3 + 10 /\
  Z.of_nat (String.length
              (dataRow false [makeCells 4 10] (makeAxisLabels 4) 10 1))
  = 4 + 5 + 3 * 10.
Proof.
  apply (dataRow_width [makeCells 4 10] 4 10 1).
  - constructor; [ apply makeCells_byte | constructor ].
  - lia.
Defined.

(** ** C8: the cells of the data rows *)

Lemma startsBrailleSecond_app (a b : string) :
  startsBrailleSecond b = false ->
  startsBrailleSecond (a ++ b) = startsBrailleSecond a.
Proof. intro Hb. destruct a as [ | c a ]; [ exact Hb | reflexivity ]. Qed.

(** Counting the cells of two texts put one after the other, when the
    second does not start in the middle of a glyph. *)
Lemma brailleCells_app (a b : string) :
  startsBrailleSecond b = false ->
  brailleCells (a ++ b) = brailleCells a + brailleCells b.
Proof.
  intro Hb. induction a as [ | c a IH ].
  - reflexivity.
  - cbn [append brailleCells].
    rewrite IH, (startsBrailleSecond_app a b Hb). lia.
Qed.

Lemma concat_nil_cons (s : string) (l : list string) :
  String.concat EmptyString (s :: l)
  = (s ++ String.concat EmptyString l)%string.
Proof.
  destruct l as [ | t l ]; [ | reflexivity ].
  simpl. induction s as [ | c s IH ]; simpl; [ reflexivity | now f_equal ].
Qed.

Lemma colorCode_cases (i : Z) :
  In (colorCode i) (EmptyString :: map code colorPalette).
Proof.
  unfold colorCode. generalize (Z.to_nat (Z.rem i 5)). intro k.
  do 5 (destruct k as [ | k ]; [ simpl; auto 10 | ]).
  simpl. destruct k; auto.
Qed.

(** The text of one cell, colored or not, holds exactly one Braille
    pattern and starts with the first byte of a character. *)
Lemma renderCell_cells (useColor : bool) (seriesCells : list grid) (y x : Z) :
  Forall byteGrid seriesCells ->
  brailleCells (renderCell useColor seriesCells y x) = 1 /\
  startsBrailleSecond (renderCell useColor seriesCells y x) = false.
Proof.
  intro Hb. unfold renderCell.
  pose proof (composeCell_byte seriesCells x y Hb) as Hm.
  destruct (composeCell seriesCells x y) as [mask colorIdx].
  simpl fst in Hm.
  assert (Hplain : forallb
            (fun k =>
               (brailleCells (utf8 (brailleFromMask k)) =? 1)
               && negb (startsBrailleSecond (utf8 (brailleFromMask k))))
            (upto 256) = true) by (vm_compute; reflexivity).
  assert (Hcol : forallb
            (fun c =>
               forallb
                 (fun k =>
                    (brailleCells (c ++ utf8 (brailleFromMask k) ++ colorReset)
                     =? 1)
                    && negb (startsBrailleSecond
                               (c ++ utf8 (brailleFromMask k) ++ colorReset)))
                 (upto 256))
            (EmptyString :: map code colorPalette) = true)
    by (vm_compute; reflexivity).
  rewrite forallb_forall in Hplain, Hcol.
  destruct (useColor && (colorIdx >=? 0)).
  - specialize (Hcol _ (colorCode_cases colorIdx)).
    rewrite forallb_forall in Hcol.
    specialize (Hcol mask (In_upto 256 mask Hm)).
    apply andb_true_iff in Hcol. destruct Hcol as [H1 H2].
    split; [ now apply Z.eqb_eq | now apply negb_true_iff ].
  - specialize (Hplain mask (In_upto 256 mask Hm)).
    apply andb_true_iff in Hplain. destruct Hplain as [H1 H2].
    split; [ now apply Z.eqb_eq | now apply negb_true_iff ].
Qed.

Lemma rowCells_cells (useColor : bool) (seriesCells : list grid) (y : Z)
  (cols : list Z) :
  Forall byteGrid seriesCells ->
  brailleCells (String.concat EmptyString
                  (map (renderCell useColor seriesCells y) cols))
  = Z.of_nat (List.length cols) /\
  startsBrailleSecond (String.concat EmptyString
                         (map (renderCell useColor seriesCells y) cols))
  = false.
Proof.
  intro Hb. induction cols as [ | x rest IH ].
  - split; reflexivity.
  - destruct IH as [I1 I2].
    destruct (renderCell_cells useColor seriesCells y x Hb) as [C1 C2].
    cbn [map]. rewrite concat_nil_cons.
    rewrite (brailleCells_app _ _ I2), (startsBrailleSecond_app _ _ I2).
    rewrite C1, C2, I1. split; [ simpl List.length; lia | reflexivity ].
Qed.

(** The gutter of a row holds no cell. *)
Lemma rowPrefix_cells (height y : Z) :
  brailleCells (rowPrefix (makeAxisLabels height) y) = 0.
Proof.
  unfold rowPrefix.
  destruct (axisLabel_cases height (Z.to_nat y)) as [-> | [-> | [-> | ->]]];
    vm_compute; reflexivity.
Qed.

Lemma dataRow_cells (useColor : bool) (seriesCells : list grid)
  (height width y : Z) :
  Forall byteGrid seriesCells -> 0 <= width ->
  brailleCells (dataRow useColor seriesCells (makeAxisLabels height) width y)
  = width.
Proof.
  intros Hb Hw. unfold dataRow, rowCells.
  destruct (rowCells_cells useColor seriesCells y (upto width) Hb) as [R1 R2].
  rewrite (brailleCells_app _ _ R2), rowPrefix_cells, R1.
  pose proof (upto_length width). lia.
Qed.

Lemma dataRow_plain (seriesCells : list grid) (height width y : Z) :
  Forall byteGrid seriesCells -> 0 <= width ->
  codePoints (dataRow false seriesCells (makeAxisLabels height) width y)
  = 4 + 3 + width.
Proof.
  intros Hb Hw. unfold dataRow, rowCells.
  rewrite codePoints_app.
  destruct (rowPrefix_size height y) as [P1 _].
  destruct (rowCells_size seriesCells y (upto width) Hb) as [R1 _].
  rewrite P1, R1. pose proof (upto_length width). lia.
Qed.

Lemma dataRow_written (title : string) (scaled : list Series)
  (seriesCells : list grid) (width height : Z) (useColor : bool) (y : Z) :
  0 <= y < height ->
  In (dataRow useColor seriesCells (makeAxisLabels height) width y)
    (plotLines title scaled seriesCells width height useColor).
Proof.
  intro Hy. unfold plotLines.
  apply in_or_app. right. apply in_or_app. right.
  apply in_or_app. right. apply in_or_app. left.
  apply in_map. now apply In_upto.
Qed.

(** C8 (canvas invariant).  In every render that draws something the plot
    width is at least the minimum plot width 10: a positive width below 10
    is raised to 10, and a width taken from the terminal is never below it
    either.  Every series is resampled to exactly that width, and every
    data row that is written contains exactly that many cells: its text
    holds that number of Braille patterns, one per column, and without
    color nothing else but the gutter of 4 + 3 characters.  In particular
    a requested width of 5 gives rows of 10 cells. *)
Theorem plot_width_invariant {W E : Type}
  (write : W -> string -> W * option E) (env : Env) (w : W)
  (title : string) (series : list Series) (width height : Z)
  (forceColor : bool) (w' : W) (err : option E) :
  plotSeries write env w title series width height forceColor
  = Returns w' err ->
  filterSeries series <> [] ->
  minPlotWidth <= plotWidth env width /\
  (0 < width < minPlotWidth -> plotWidth env width = minPlotWidth) /\
  (width <= 0 -> plotWidth env width = autoPlotWidth env) /\
  plotWidth env 5 = 10 /\
  exists scaled seriesCells,
    resampleAll (filterSeries series) (plotWidth env width) = Some scaled /\
    Forall (fun s => Z.of_nat (List.length (Values s)) = plotWidth env width)
      scaled /\
    rasterAll 0 scaled (plotHeight height) (plotWidth env width)
    = Some seriesCells /\
    writeLines write
      (plotLines title scaled seriesCells (plotWidth env width)
         (plotHeight height) (shouldUseColor env forceColor)) w
    = (w', err) /\
    forall y, 0 <= y < plotHeight height ->
      In (dataRow (shouldUseColor env forceColor) seriesCells
            (makeAxisLabels (plotHeight height)) (plotWidth env width) y)
        (plotLines title scaled seriesCells (plotWidth env width)
           (plotHeight height) (shouldUseColor env forceColor)) /\
      brailleCells
        (dataRow (shouldUseColor env forceColor) seriesCells
           (makeAxisLabels (plotHeight height)) (plotWidth env width) y)
      = plotWidth env width /\
      (shouldUseColor env forceColor = false ->
       codePoints
         (dataRow (shouldUseColor env forceColor) seriesCells
            (makeAxisLabels (plotHeight height)) (plotWidth env width) y)
       = 4 + 3 + plotWidth env width).
Proof.
  intros Hret Hne.
  pose proof (plotWidth_min env width) as Hmin.
  split; [ exact Hmin | ].
  split.
  { intro Hw. unfold plotWidth, minPlotWidth in *.
    replace (width <=? 0) with false by (symmetry; apply Z.leb_gt; lia).
    replace (width <? 10) with true by (symmetry; apply Z.ltb_lt; lia).
    reflexivity. }
  split.
  { intro Hw. unfold plotWidth.
    replace (width <=? 0) with true by (symmetry; apply Z.leb_le; lia).
    assert (Ha : minPlotWidth <= autoPlotWidth env).
    { unfold autoPlotWidth, PlotWidthFor, minPlotWidth.
      destruct (terminalWidth env <=? 0); [ lia | ].
      destruct (Z.ltb_spec (terminalWidth env - (4 + 3)) 10); [ simpl; lia | ].
      destruct (Z.ltb_spec (terminalWidth env - (4 + 3)) 1); lia. }
    unfold minPlotWidth in *.
    replace (autoPlotWidth env <? 10) with false
      by (symmetry; apply Z.ltb_ge; lia).
    replace (autoPlotWidth env <? 1) with false
      by (symmetry; apply Z.ltb_ge; lia).
    reflexivity. }
  split; [ reflexivity | ].
  unfold plotSeries in Hret.
  destruct (Z.eqb_spec (Z.of_nat (List.length (filterSeries series))) 0)
    as [Hz | Hz].
  { destruct (filterSeries series); [ congruence | simpl in Hz; lia ]. }
  destruct (Z.eqb_spec (maxSeriesLen (filterSeries series)) 0) as [Hm | Hm].
  { exfalso. destruct (filterSeries series) as [ | s rest ] eqn:Hf;
      [ congruence | ].
    assert (Hin : In s (filterSeries series)) by (rewrite Hf; now left).
    apply filterSeries_In in Hin. destruct Hin as [_ Hv].
    destruct (maxSeriesLen_ge (s :: rest) 0) as [_ Hge].
    specialize (Hge s (or_introl eq_refl)).
    unfold maxSeriesLen in Hm. rewrite Hm in Hge.
    destruct (Values s); [ congruence | simpl in Hge; lia ]. }
  destruct (resampleAll (filterSeries series) (plotWidth env width))
    as [scaled | ] eqn:Hres; [ | discriminate ].
  destruct (rasterAll 0 scaled (plotHeight height) (plotWidth env width))
    as [seriesCells | ] eqn:Hras; [ | discriminate ].
  destruct (writeLines write _ w) as [w1 e1] eqn:Hw.
  injection Hret as <- <-.
  exists scaled, seriesCells.
  split; [ reflexivity | ]. split.
  { apply (resampleAll_width (filterSeries series)); try assumption.
    - unfold minPlotWidth in Hmin. lia.
    - apply Forall_forall. intros s Hin. now apply filterSeries_In in Hin. }
  split; [ exact Hras | ]. split; [ exact Hw | ].
  assert (Hb : Forall byteGrid seriesCells)
    by (eapply rasterAll_byte; exact Hras).
  assert (Hpos : 0 <= plotWidth env width)
    by (unfold minPlotWidth in Hmin; lia).
  intros y Hy. split; [ now apply dataRow_written | ].
  split; [ now apply dataRow_cells | ].
  intro Hcol. rewrite Hcol. now apply dataRow_plain.
Qed.

(** An instance: the end-to-end test, called with width 5. *)
Lemma plot_width_invariant_witness :
  minPlotWidth <= plotWidth quietEnv 5 /\
  (0 < 5 < minPlotWidth -> plotWidth quietEnv 5 = minPlotWidth) /\
  (5 <= 0 -> plotWidth quietEnv 5 = autoPlotWidth quietEnv) /\
  plotWidth quietEnv 5 = 10 /\
  exists scaled seriesCells,
    resampleAll (filterSeries [seriesA; seriesB]) (plotWidth quietEnv 5)
    = Some scaled /\
    Forall (fun s => Z.of_nat (List.length (Values s)) = plotWidth quietEnv 5)
      scaled /\
    rasterAll 0 scaled (plotHeight 4) (plotWidth quietEnv 5)
    = Some seriesCells /\
    writeLines bufferWrite
      (plotLines "Test Plot" scaled seriesCells (plotWidth quietEnv 5)
         (plotHeight 4) (shouldUseColor quietEnv false)) EmptyString
    = (fst (writeLines bufferWrite
              (plotLines "Test Plot" scaled seriesCells (plotWidth quietEnv 5)
                 (plotHeight 4) (shouldUseColor quietEnv false)) EmptyString),
       None) /\
    forall y, 0 <= y < plotHeight 4 ->
      In (dataRow (shouldUseColor quietEnv false) seriesCells
            (makeAxisLabels (plotHeight 4)) (plotWidth quietEnv 5) y)
        (plotLines "Test Plot" scaled seriesCells (plotWidth quietEnv 5)
           (plotHeight 4) (shouldUseColor quietEnv false)) /\
      brailleCells
        (dataRow (shouldUseColor quietEnv false) seriesCells
           (makeAxisLabels (plotHeight 4)) (plotWidth quietEnv 5) y)
      = plotWidth quietEnv 5 /\
      (shouldUseColor quietEnv false = false ->
       codePoints
         (dataRow (shouldUseColor quietEnv false) seriesCells
            (makeAxisLabels (plotHeight 4)) (plotWidth quietEnv 5) y)
       = 4 + 3 + plotWidth quietEnv 5).
Proof.
  destruct (renderToBuffer quietEnv "Test Plot" [seriesA; seriesB] 5 4 false)
    as [out err | | ] eqn:Hr; try (vm_compute in Hr; discriminate).
  destruct (plot_width_invariant bufferWrite quietEnv EmptyString "Test Plot"
              [seriesA; seriesB] 5 4 false out err Hr)
    as (H1 & H2 & H3 & H4 & scaled & cells & H5 & H6 & H7 & H8 & H9).
  { vm_compute. discriminate. }
  split; [ exact H1 | ]. split; [ exact H2 | ]. split; [ exact H3 | ].
  split; [ exact H4 | ].
  exists scaled, cells.
  split; [ exact H5 | ]. split; [ exact H6 | ]. split; [ exact H7 | ].
  split; [ | exact H9 ].
  rewrite H8. simpl fst.
  assert (err = None).
  { clear - Hr. vm_compute in Hr. congruence. }
  now subst err.
Defined.

(** ** Dots, rows and dash styles *)


Lemma brailleDotMask_pos (a b : Z) :
  0 <= a < 2 -> 0 <= b < 4 -> brailleDotMask a b <> 0.
Proof.
  intros Ha Hb.
  assert (Ea : a = 0 \/ a = 1) by lia.
  assert (Eb : b = 0 \/ b = 1 \/ b = 2 \/ b = 3) by lia.
  destruct Ea as [-> | ->]; destruct Eb as [-> | [-> | [-> | ->]]];
    vm_compute; discriminate.
Qed.




(** [setBrailleDot] checks its bounds: a dot that is not on the canvas
    (a negative coordinate, a row or a column past the grid) leaves the
    grid as it is, and no call changes the size of the grid. *)
Theorem setBrailleDot_bounds (cells : grid) (x y : Z) :
  ~ onCanvas cells x y ->
  setBrailleDot cells x y = cells /\
  forall (cells' : grid) (x' y' : Z),
    List.length (setBrailleDot cells' x' y') = List.length cells' /\
    forall r, List.length (nth r (setBrailleDot cells' x' y') [])
              = List.length (nth r cells' []).
Proof.
  intro Off. split.
  - now apply setBrailleDot_off.
  - intros cells' x' y'. apply setBrailleDot_dims.
Qed.

(** An instance: a dot left of the canvas and a dot below it. *)
Lemma setBrailleDot_bounds_witness :
  setBrailleDot (makeCells 2 2) (-1) 0 = makeCells 2 2 /\
  setBrailleDot (makeCells 2 2) 0 8 = makeCells 2 2.
Proof.
  split.
  - apply (setBrailleDot_bounds (makeCells 2 2) (-1) 0).
    unfold onCanvas. intros [H _]. lia.
  - apply (setBrailleDot_bounds (makeCells 2 2) 0 8).
    unfold onCanvas. intros (_ & _ & H & _).
    vm_compute in H. discriminate H.
Defined.

(** [valueToRow] always returns a row of the canvas, whatever the value
    and the range, NaN and infinities included: a row between 0 and
    [height - 1], and row 0 when the canvas has at most one row. *)
Theorem valueToRow_range (v minVal maxVal : float64) (height : Z) :
  0 <= valueToRow v minVal maxVal height <= Z.max 0 (height - 1).
Proof.
  unfold valueToRow.
  destruct (Z.leb_spec height 1) as [H1 | H1]; [ lia | ].
  set (row := to_int (round (mul (sub one (div (sub v minVal)
                                              (sub maxVal minVal)))
                                 (of_int (height - 1))))).
  clearbody row.
  destruct (Z.ltb_spec row 0) as [Hn | Hn].
  - destruct (Z.geb_spec 0 height); lia.
  - destruct (Z.geb_spec row height); lia.
Qed.

(** ** Dash styles and colors *)

Lemma shouldPlot_shift (style : lineStyle) (x : Z) :
  1 < period style -> 0 <= x ->
  shouldPlot style (x + period style) = shouldPlot style x.
Proof.
  intros Hp Hx. unfold shouldPlot.
  replace (period style <=? 1) with false by (symmetry; apply Z.leb_gt; lia).
  replace (x + period style <? 0) with false by (symmetry; apply Z.ltb_ge; lia).
  replace (x <? 0) with false by (symmetry; apply Z.ltb_ge; lia).
  rewrite !Z.rem_mod_nonneg by lia.
  replace (x + period style) with (x + 1 * period style) by lia.
  now rewrite Z.mod_add by lia.
Qed.

Lemma plottedIn_snoc (style : lineStyle) (n : nat) (from : Z) :
  plottedIn style from (S n)
  = plottedIn style from n
    + (if shouldPlot style (from + Z.of_nat n) then 1 else 0).
Proof.
  revert from. induction n as [ | n IH ]; intro from.
  - simpl. replace (from + 0) with from by lia.
    destruct (shouldPlot style from); lia.
  - change (plottedIn style from (S (S n)))
      with ((if shouldPlot style from then 1 else 0)
            + plottedIn style (from + 1) (S n)).
    rewrite IH.
    change (plottedIn style from (S n))
      with ((if shouldPlot style from then 1 else 0)
            + plottedIn style (from + 1) n).
    replace (from + 1 + Z.of_nat n) with (from + Z.of_nat (S n)) by lia.
    lia.
Qed.

(** From column 0 the first [on] columns of a period are plotted. *)
Lemma plottedIn_first (style : lineStyle) (n : nat) (from : Z) :
  1 < period style -> 0 <= from ->
  from + Z.of_nat n <= period style ->
  plottedIn style from n
  = Z.max 0 (Z.min (on style) (from + Z.of_nat n) - from).
Proof.
  intros Hp. revert from. induction n as [ | n IH ]; intros from Hf Hn.
  - simpl. lia.
  - change (plottedIn style from (S n))
      with ((if shouldPlot style from then 1 else 0)
            + plottedIn style (from + 1) n).
    rewrite IH by lia.
    unfold shouldPlot.
    replace (period style <=? 1) with false by (symmetry; apply Z.leb_gt; lia).
    replace (from <? 0) with false by (symmetry; apply Z.ltb_ge; lia).
    rewrite Z.rem_small by lia.
    destruct (Z.ltb_spec from (on style)); lia.
Qed.

(** A dash style is a pattern that is mirrored at column 0 and periodic
    on each side of it, not across it.  For every column [x], negative or
    not: [x] and [-x] are plotted alike; the columns one period further
    from column 0 than [x], to the right and to the left, are plotted as
    [x] is; and of the [period] consecutive columns that start at [|x|]
    exactly [on] are plotted. *)
Theorem shouldPlot_pattern (style : lineStyle) (x : Z) :
  1 < period style -> 0 <= on style <= period style ->
  shouldPlot style (- x) = shouldPlot style x /\
  shouldPlot style (Z.abs x + period style) = shouldPlot style x /\
  shouldPlot style (- Z.abs x - period style) = shouldPlot style x /\
  plottedIn style (Z.abs x) (Z.to_nat (period style)) = on style.
Proof.
  intros Hp Hon.
  assert (Hmirror : forall z, shouldPlot style (- z) = shouldPlot style z).
  { intro z. unfold shouldPlot.
    destruct (period style <=? 1); [ reflexivity | ].
    destruct (Z.ltb_spec (- z) 0); destruct (Z.ltb_spec z 0);
      try lia; try (now rewrite Z.opp_involutive).
    replace z with 0 by lia. reflexivity. }
  assert (Habs : shouldPlot style (Z.abs x) = shouldPlot style x).
  { destruct (Z.abs_spec x) as [[_ ->] | [_ ->]];
      [ reflexivity | apply Hmirror ]. }
  split; [ apply Hmirror | ].
  split; [ rewrite shouldPlot_shift by lia; exact Habs | ].
  split.
  - replace (- Z.abs x - period style) with (- (Z.abs x + period style))
      by lia.
    rewrite Hmirror, shouldPlot_shift by lia. exact Habs.
  - set (p := Z.to_nat (period style)).
    assert (Hslide : forall k : nat,
               plottedIn style (Z.of_nat k) p = on style).
    { induction k as [ | k IH ].
      - unfold p. rewrite plottedIn_first by lia. lia.
      - destruct p as [ | q ] eqn:Ep; [ lia | ].
        rewrite plottedIn_snoc.
        change (plottedIn style (Z.of_nat k) (S q))
          with ((if shouldPlot style (Z.of_nat k) then 1 else 0)
                + plottedIn style (Z.of_nat k + 1) q) in IH.
        replace (Z.of_nat (S k) + Z.of_nat q)
          with (Z.of_nat k + period style) by lia.
        rewrite shouldPlot_shift by lia.
        replace (Z.of_nat (S k)) with (Z.of_nat k + 1) by lia.
        lia. }
    specialize (Hslide (Z.to_nat (Z.abs x))).
    now rewrite Z2Nat.id in Hslide by lia.
Qed.

(** An instance: the dashed style at column -7, which is plotted as the
    columns 7, 13 and -13 are. *)
Lemma shouldPlot_pattern_witness :
  shouldPlot (styleOf 1) (- -7) = shouldPlot (styleOf 1) (-7) /\
  shouldPlot (styleOf 1) (Z.abs (-7) + period (styleOf 1))
  = shouldPlot (styleOf 1) (-7) /\
  shouldPlot (styleOf 1) (- Z.abs (-7) - period (styleOf 1))
  = shouldPlot (styleOf 1) (-7) /\
  plottedIn (styleOf 1) (Z.abs (-7)) (Z.to_nat (period (styleOf 1)))
  = on (styleOf 1).
Proof.
  apply (shouldPlot_pattern (styleOf 1) (-7)); simpl; lia.
Defined.

Lemma styleOf_rem (i j : Z) :
  0 <= i -> 0 <= j -> styleOf i = styleOf j -> Z.rem i 4 = Z.rem j 4.
Proof.
  intros Hi Hj. unfold styleOf.
  assert (Ri : 0 <= Z.rem i 4 < 4) by (apply Z.rem_bound_pos; lia).
  assert (Rj : 0 <= Z.rem j 4 < 4) by (apply Z.rem_bound_pos; lia).
  assert (Ei : Z.rem i 4 = 0 \/ Z.rem i 4 = 1 \/ Z.rem i 4 = 2
               \/ Z.rem i 4 = 3) by lia.
  assert (Ej : Z.rem j 4 = 0 \/ Z.rem j 4 = 1 \/ Z.rem j 4 = 2
               \/ Z.rem j 4 = 3) by lia.
  destruct Ei as [-> | [-> | [-> | ->]]];
    destruct Ej as [-> | [-> | [-> | ->]]];
    simpl; intro H; try reflexivity; discriminate H.
Qed.

Lemma colorCode_rem (i j : Z) :
  0 <= i -> 0 <= j -> colorCode i = colorCode j -> Z.rem i 5 = Z.rem j 5.
Proof.
  intros Hi Hj. unfold colorCode.
  assert (Ri : 0 <= Z.rem i 5 < 5) by (apply Z.rem_bound_pos; lia).
  assert (Rj : 0 <= Z.rem j 5 < 5) by (apply Z.rem_bound_pos; lia).
  assert (Ei : Z.rem i 5 = 0 \/ Z.rem i 5 = 1 \/ Z.rem i 5 = 2
               \/ Z.rem i 5 = 3 \/ Z.rem i 5 = 4) by lia.
  assert (Ej : Z.rem j 5 = 0 \/ Z.rem j 5 = 1 \/ Z.rem j 5 = 2
               \/ Z.rem j 5 = 3 \/ Z.rem j 5 = 4) by lia.
  destruct Ei as [-> | [-> | [-> | [-> | ->]]]];
    destruct Ej as [-> | [-> | [-> | [-> | ->]]]];
    simpl; intro H; try reflexivity; discriminate H.
Qed.

(** Two series are drawn with the same dash style and the same color only
    when their indices differ by a multiple of 20: up to twenty series are
    pairwise told apart by the pair of dash style and color, and any four
    consecutive ones by the dash style alone. *)
Theorem style_color_distinct (i j : Z) :
  0 <= i -> 0 <= j ->
  (styleOf i = styleOf j -> (i - j) mod 4 = 0) /\
  (styleOf i = styleOf j -> colorCode i = colorCode j ->
   (i - j) mod 20 = 0).
Proof.
  intros Hi Hj.
  assert (Hs : styleOf i = styleOf j -> (i - j) mod 4 = 0).
  { intro H. apply styleOf_rem in H; try assumption.
    rewrite !Z.rem_mod_nonneg in H by lia.
    Z.div_mod_to_equations. lia. }
  split; [ exact Hs | ].
  intros H4 H5. specialize (Hs H4).
  apply colorCode_rem in H5; try assumption.
  rewrite !Z.rem_mod_nonneg in H5 by lia.
  Z.div_mod_to_equations. lia.
Qed.

(** An instance: series 3 and series 23. *)
Lemma style_color_distinct_witness :
  (styleOf 3 = styleOf 23 -> (3 - 23) mod 4 = 0) /\
  (styleOf 3 = styleOf 23 -> colorCode 3 = colorCode 23 ->
   (3 - 23) mod 20 = 0).
Proof.
  apply (style_color_distinct 3 23); lia.
Defined.

(** ** The range of a series *)

Lemma ltb_irrefl (x : float64) : ltb x x = false.
Proof.
  unfold ltb, SFltb.
  destruct x as [ [ | ] | [ | ] | | [ | ] m e ]; simpl; try reflexivity;
    rewrite Z.compare_refl;
    change (Pos.compare_cont Eq m m) with (Pos.compare m m);
    now rewrite Pos.compare_refl.
Qed.

Lemma ltb_trans (x y z : float64) :
  ltb x y = true -> ltb y z = true -> ltb x z = true.
Proof.
  unfold ltb, SFltb.
  destruct x as [ [ | ] | [ | ] | | [ | ] m1 e1 ];
    destruct y as [ [ | ] | [ | ] | | [ | ] m2 e2 ];
    destruct z as [ [ | ] | [ | ] | | [ | ] m3 e3 ];
    simpl; try reflexivity; try discriminate;
    change (Pos.compare_cont Eq m1 m2) with (Pos.compare m1 m2);
    change (Pos.compare_cont Eq m2 m3) with (Pos.compare m2 m3);
    change (Pos.compare_cont Eq m1 m3) with (Pos.compare m1 m3);
    destruct (Z.compare_spec e1 e2); destruct (Z.compare_spec e2 e3);
    destruct (Z.compare_spec e1 e3); try lia;
    try reflexivity; try discriminate;
    destruct (Pos.compare_spec m1 m2); destruct (Pos.compare_spec m2 m3);
    destruct (Pos.compare_spec m1 m3); simpl;
    try reflexivity; try discriminate; lia.
Qed.

(** The invariant of the loop: the minimum never rises, no value seen is
    below it, and it is the initial bound or one of the values; the same
    for the maximum, the other way round. *)
Lemma runningRange_inv (values : list float64) :
  forall mn0 mx0 : float64,
    let mm := runningRange values (mn0, mx0) in
    (forall u, ltb u mn0 = false -> ltb u (fst mm) = false) /\
    (forall v, In v values -> ltb v (fst mm) = false) /\
    (fst mm = mn0 \/ In (fst mm) values) /\
    (forall u, ltb mx0 u = false -> ltb (snd mm) u = false) /\
    (forall v, In v values -> ltb (snd mm) v = false) /\
    (snd mm = mx0 \/ In (snd mm) values).
Proof.
  induction values as [ | v rest IH ]; intros mn0 mx0.
  - simpl. repeat split; auto; intros v [].
  - set (mn1 := if ltb v mn0 then v else mn0).
    set (mx1 := if gtb v mx0 then v else mx0).
    change (runningRange (v :: rest) (mn0, mx0))
      with (runningRange rest (mn1, mx1)).
    destruct (IH mn1 mx1) as (A & B & C & A' & B' & C').
    set (mm := runningRange rest (mn1, mx1)) in *. cbv zeta.
    assert (S1 : forall u, ltb u mn0 = false -> ltb u mn1 = false).
    { intros u Hu. unfold mn1. destruct (ltb v mn0) eqn:Hv; [ | exact Hu ].
      destruct (ltb u v) eqn:Huv; [ | reflexivity ].
      rewrite (ltb_trans u v mn0 Huv Hv) in Hu. discriminate. }
    assert (S2 : ltb v mn1 = false).
    { unfold mn1. destruct (ltb v mn0) eqn:Hv; [ apply ltb_irrefl | exact Hv ]. }
    assert (S1' : forall u, ltb mx0 u = false -> ltb mx1 u = false).
    { intros u Hu. unfold mx1, gtb. destruct (SFltb mx0 v) eqn:Hv; [ | exact Hu ].
      destruct (ltb v u) eqn:Huv; [ | reflexivity ].
      rewrite (ltb_trans mx0 v u Hv Huv) in Hu. discriminate. }
    assert (S2' : ltb mx1 v = false).
    { unfold mx1, gtb. destruct (SFltb mx0 v) eqn:Hv;
        [ apply ltb_irrefl | exact Hv ]. }
    repeat split.
    + intros u Hu. apply A, S1, Hu.
    + intros u [<- | Hu]; [ apply A, S2 | apply B, Hu ].
    + destruct C as [C | C]; [ | right; now right ].
      rewrite C. unfold mn1. destruct (ltb v mn0); [ right; now left | now left ].
    + intros u Hu. apply A', S1', Hu.
    + intros u [<- | Hu]; [ apply A', S2' | apply B', Hu ].
    + destruct C' as [C' | C']; [ | right; now right ].
      rewrite C'. unfold mx1. destruct (gtb v mx0); [ right; now left | now left ].
Qed.

Lemma seriesMinMaxSingle_running (values : list float64) :
  seriesMinMaxSingle values
  = let mm := runningRange values (pos_inf, neg_inf) in
    (if eqb (fst mm) pos_inf then zero else fst mm,
     if eqb (snd mm) neg_inf then zero else snd mm).
Proof.
  unfold seriesMinMaxSingle, runningRange.
  destruct (fold_left _ values (pos_inf, neg_inf)) as [mn mx]. reflexivity.
Qed.

Lemma eqb_pos_inf (x : float64) : eqb x pos_inf = true -> x = pos_inf.
Proof.
  destruct x as [ [ | ] | [ | ] | | [ | ] m e ]; intro H;
    try reflexivity; discriminate H.
Qed.

Lemma eqb_neg_inf (x : float64) : eqb x neg_inf = true -> x = neg_inf.
Proof.
  destruct x as [ [ | ] | [ | ] | | [ | ] m e ]; intro H;
    try reflexivity; discriminate H.
Qed.

(** The range [seriesMinMaxSingle] reports encloses the series: no value
    is below the minimum and none above the maximum, whatever the values;
    and for a non-empty series of finite values the minimum and the
    maximum are values of the series. *)
Theorem seriesMinMaxSingle_bounds (values : list float64) :
  (forall v, In v values ->
     ltb v (fst (seriesMinMaxSingle values)) = false /\
     gtb v (snd (seriesMinMaxSingle values)) = false) /\
  (values <> [] -> Forall (fun v => isFinite v = true) values ->
   In (fst (seriesMinMaxSingle values)) values /\
   In (snd (seriesMinMaxSingle values)) values).
Proof.
  rewrite seriesMinMaxSingle_running.
  destruct (runningRange_inv values pos_inf neg_inf)
    as (_ & B & C & _ & B' & C').
  set (mm := runningRange values (pos_inf, neg_inf)) in *. cbv zeta.
  cbn [fst snd]. split.
  - intros v Hv. specialize (B v Hv). specialize (B' v Hv). split.
    + destruct (eqb (fst mm) pos_inf) eqn:E; [ | exact B ].
      apply eqb_pos_inf in E. rewrite E in B.
      destruct v as [ [ | ] | [ | ] | | [ | ] m e ];
        try reflexivity; discriminate B.
    + unfold gtb. destruct (eqb (snd mm) neg_inf) eqn:E; [ | exact B' ].
      apply eqb_neg_inf in E. rewrite E in B'.
      destruct v as [ [ | ] | [ | ] | | [ | ] m e ];
        try reflexivity; discriminate B'.
  - intros Hne Hfin.
    destruct values as [ | v0 rest ]; [ congruence | ].
    assert (F0 : isFinite v0 = true) by (inversion Hfin; assumption).
    assert (Fin : forall x, In x (v0 :: rest) -> isFinite x = true)
      by (apply Forall_forall; exact Hfin).
    split.
    + destruct C as [C | C].
      * specialize (B v0 (or_introl eq_refl)). rewrite C in B.
        destruct v0 as [ [ | ] | [ | ] | | [ | ] m e ]; discriminate.
      * specialize (Fin _ C).
        destruct (fst mm) as [ [ | ] | [ | ] | | [ | ] m e ];
          try discriminate Fin; exact C.
    + destruct C' as [C' | C'].
      * specialize (B' v0 (or_introl eq_refl)). rewrite C' in B'.
        destruct v0 as [ [ | ] | [ | ] | | [ | ] m e ]; discriminate.
      * specialize (Fin _ C').
        destruct (snd mm) as [ [ | ] | [ | ] | | [ | ] m e ];
          try discriminate Fin; exact C'.
Qed.

(** An instance: series B of the end-to-end test. *)
Lemma seriesMinMaxSingle_bounds_witness :
  (ltb three (fst (seriesMinMaxSingle (Values seriesB))) = false /\
   gtb three (snd (seriesMinMaxSingle (Values seriesB))) = false) /\
  In (fst (seriesMinMaxSingle (Values seriesB))) (Values seriesB) /\
  In (snd (seriesMinMaxSingle (Values seriesB))) (Values seriesB).
Proof.
  split.
  - apply (proj1 (seriesMinMaxSingle_bounds (Values seriesB))).
    simpl. auto.
  - apply (proj2 (seriesMinMaxSingle_bounds (Values seriesB))).
    + discriminate.
    + repeat constructor.
Defined.

(** The difference of a finite value and itself is zero. *)
Lemma sub_self (c : float64) : isFinite c = true -> sub c c = zero.
Proof.
  destruct c as [ [ | ] | [ | ] | | s m e ]; try discriminate;
    intros _; try reflexivity.
  unfold sub, SFsub. rewrite Z.sub_diag. reflexivity.
Qed.

Lemma runningRange_constant (c : float64) (n : nat) :
  runningRange (repeat c n) (c, c) = (c, c).
Proof.
  induction n as [ | n IH ]; [ reflexivity | ].
  simpl repeat. unfold runningRange in *. simpl fold_left.
  unfold gtb. change (SFltb c c) with (ltb c c).
  rewrite !ltb_irrefl. exact IH.
Qed.

(** A constant series of finite values always has its range widened: for
    every finite [c] the range of [c, c, ..., c] is [c - 1, c + 1]. *)
Theorem constant_series_widened (c : float64) (n : nat) :
  isFinite c = true -> (0 < n)%nat ->
  seriesMinMaxSingle (repeat c n) = (c, c) /\
  seriesRange (repeat c n) = mkRange (sub c one) (add c one).
Proof.
  intros Hc Hn.
  assert (E : seriesMinMaxSingle (repeat c n) = (c, c)).
  { rewrite seriesMinMaxSingle_running.
    destruct n as [ | k ]; [ lia | ].
    simpl repeat.
    assert (E1 : runningRange (c :: repeat c k) (pos_inf, neg_inf)
                 = runningRange (repeat c k) (c, c)).
    { unfold runningRange. simpl fold_left.
      destruct c as [ [ | ] | [ | ] | | [ | ] m e ];
        try discriminate Hc; reflexivity. }
    rewrite E1, runningRange_constant. cbv zeta. cbn [fst snd].
    destruct c as [ [ | ] | [ | ] | | [ | ] m e ];
      try discriminate Hc; reflexivity. }
  split; [ exact E | ].
  unfold seriesRange. rewrite E, (sub_self c Hc). reflexivity.
Qed.

(** An instance: the series [10, 10]. *)
Lemma constant_series_widened_witness :
  seriesMinMaxSingle (repeat ten 2) = (ten, ten) /\
  seriesRange (repeat ten 2) = mkRange (sub ten one) (add ten one).
Proof.
  apply (constant_series_widened ten 2).
  - reflexivity.
  - lia.
Defined.

(** [math.Round] leaves a value that is an integer as it is. *)
Lemma round_isInt (x : float64) (z : Z) : isInt x z -> isInt (round x) z.
Proof.
  intros (m & e & -> & B & E & V).
  destruct e as [ | p | p ]; try lia.
  - exists m, 0. repeat split; first [ lia | exact V ].
  - unfold round.
    assert (P : 0 < 2 ^ (Zpos p - 1)) by (apply pow2_pos; lia).
    assert (Hz : 0 < z < 2 ^ 53).
    { pose proof (pow2_pos (Zpos p) ltac:(lia)).
      change (- Zneg p) with (Zpos p) in V. nia. }
    assert (Hs : Z.shiftr (Zpos m) (Zpos p - 1) = 2 * z).
    { rewrite Z.shiftr_div_pow2 by lia. rewrite V.
      change (- Zneg p) with (Zpos p).
      replace (Zpos p) with (1 + (Zpos p - 1)) at 1 by lia.
      rewrite Z.pow_add_r by lia.
      replace (z * (2 ^ 1 * 2 ^ (Zpos p - 1)))
        with (2 * z * 2 ^ (Zpos p - 1)) by (change (2 ^ 1) with 2; ring).
      apply Z.div_mul. lia. }
    rewrite Hs.
    replace ((2 * z + 1) / 2) with z
      by (apply Z.div_unique with 1; lia).
    apply (of_int_isInt z Hz).
Qed.

(** A value in normal form divided by itself is exactly 1. *)
Lemma div_self_normal (x : float64) : isNormal x = true -> div x x = one.
Proof.
  destruct x as [ | | | s m e ]; try discriminate. simpl isNormal.
  intro H. apply andb_true_iff in H. destruct H as [H1 H2].
  apply Z.leb_le in H1. apply Z.ltb_lt in H2.
  unfold div, SFdiv.
  rewrite div_core_normal by (try lia; split; assumption).
  replace (Zpos m * 2 ^ 53 / Zpos m) with (2 ^ 53)
    by (symmetry; rewrite Z.mul_comm; apply Z.div_mul; lia).
  replace (Zpos m * 2 ^ 53 mod Zpos m) with 0
    by (symmetry; rewrite Z.mul_comm; apply Z.mod_mul; lia).
  replace (new_location (Zpos m) 0) with loc_Exact
    by (unfold new_location, new_location_even, new_location_odd;
        destruct (Zeven_dec (Zpos m)); destruct m; reflexivity).
  replace (xorb s s) with false by (destruct s; reflexivity).
  replace (e - e - 53) with (-53) by lia.
  reflexivity.
Qed.

(** The extremes of a series are drawn on the edges of the canvas: with a
    finite minimum and a range whose width is a float64 in normal form, on
    a canvas of at least two rows of dots the minimum goes to the bottom
    row and the maximum to the top row. *)
Theorem valueToRow_extremes (minVal maxVal : float64) (height : Z) :
  isFinite minVal = true -> isNormal (sub maxVal minVal) = true ->
  2 <= height <= 2 ^ 53 ->
  valueToRow minVal minVal maxVal height = height - 1 /\
  valueToRow maxVal minVal maxVal height = 0.
Proof.
  intros Hf Hn Hh. unfold valueToRow.
  replace (height <=? 1) with false by (symmetry; apply Z.leb_gt; lia).
  split.
  - rewrite (sub_self minVal Hf).
    assert (Hp : exists sg, div zero (sub maxVal minVal) = S754_zero sg).
    { destruct (sub maxVal minVal) as [ | | | s m e ]; try discriminate Hn.
      eexists. reflexivity. }
    destruct Hp as [sg ->].
    replace (sub one (S754_zero sg)) with one by reflexivity.
    assert (I1 : isInt one 1) by (apply of_int_isInt; lia).
    assert (I2 : isInt (of_int (height - 1)) (height - 1))
      by (apply of_int_isInt; lia).
    pose proof (mul_isInt _ _ _ _ I1 I2 ltac:(lia)) as I3.
    apply round_isInt, isInt_to_int in I3. rewrite I3.
    destruct (Z.ltb_spec (1 * (height - 1)) 0); [ lia | ].
    destruct (Z.geb_spec (1 * (height - 1)) height); lia.
  - rewrite (div_self_normal _ Hn).
    replace (sub one one) with zero by reflexivity.
    assert (I2 : isInt (of_int (height - 1)) (height - 1))
      by (apply of_int_isInt; lia).
    destruct I2 as (m & e & -> & _).
    simpl. destruct (Z.geb_spec 0 height); lia.
Qed.

(** An instance: series B of the end-to-end test on its canvas of 16 rows
    of dots. *)
Lemma valueToRow_extremes_witness :
  valueToRow one one four 16 = 16 - 1 /\ valueToRow four one four 16 = 0.
Proof.
  apply (valueToRow_extremes one four 16).
  - reflexivity.
  - vm_compute. reflexivity.
  - lia.
Defined.

(** ** Upsampling and the writes to the sink *)

(** [math.Floor] does not change the integer part of a value of 1 or
    more. *)
Lemma to_int_floor (x : float64) (k : Z) :
  1 <= k < 2 ^ 53 -> to_int x = k -> to_int (floor x) = k.
Proof.
  intros Hk Hx.
  destruct x as [ s | s | | s m e ];
    try (unfold to_int, int64_min in Hx; lia).
  assert (T : trunc (S754_finite s m e) = k).
  { unfold to_int in Hx.
    destruct ((int64_min <=? trunc (S754_finite s m e))
              && (trunc (S754_finite s m e) <=? int64_max));
      [ exact Hx | unfold int64_min in Hx; lia ]. }
  destruct e as [ | p | p ]; try exact Hx.
  unfold trunc in T. rewrite Z.shiftr_div_pow2 in T by lia.
  assert (P : 0 < 2 ^ Zpos p) by (apply pow2_pos; lia).
  assert (D : 0 <= Zpos m / 2 ^ Zpos p) by (apply Z.div_pos; lia).
  destruct s; [ lia | ].
  unfold floor. rewrite Z.shiftr_div_pow2 by lia. rewrite T.
  apply isInt_to_int. apply (of_int_isInt k). lia.
Qed.

(** The last index of the output reads the last value of the input. *)
Lemma upsampleAt_last (values : list float64) (width : Z) :
  2 <= Z.of_nat (List.length values) < width ->
  (Z.of_nat (List.length values) - 1) * (width - 1) < 2 ^ 53 ->
  upsampleAt values width (width - 1)
  = index values (Z.of_nat (List.length values) - 1).
Proof.
  intros Hn Hp. unfold upsampleAt.
  set (n := Z.of_nat (List.length values)) in *.
  assert (B : n - 1 < 2 ^ 53 /\ width - 1 < 2 ^ 53) by nia.
  assert (I1 : isInt (of_int (width - 1)) (width - 1))
    by (apply of_int_isInt; lia).
  assert (I2 : isInt (of_int (n - 1)) (n - 1)) by (apply of_int_isInt; lia).
  pose proof (mul_isInt _ _ _ _ I1 I2 ltac:(lia)) as I3.
  pose proof (div_isInt _ _ _ _ I3 I1) as D.
  replace ((width - 1) * (n - 1) / (width - 1)) with (n - 1) in D
    by (symmetry; rewrite Z.mul_comm; apply Z.div_mul; lia).
  apply to_int_floor in D; [ | lia ].
  rewrite D.
  replace (n - 1 <? 0) with false by (symmetry; apply Z.ltb_ge; lia).
  replace (n - 1 >=? n - 1) with true by (symmetry; apply Z.geb_le; lia).
  reflexivity.
Qed.

(** Upsampling keeps the end of the series: when a series of at least two
    values is stretched to a larger width, the last output sample is
    exactly the last value; and a series of a single value is repeated
    over the whole width. *)
Theorem upsample_keeps_last (values : list float64) (width : Z) :
  1 <= Z.of_nat (List.length values) < width ->
  (Z.of_nat (List.length values) - 1) * (width - 1) < 2 ^ 53 ->
  exists out,
    resampleSeries values width = Some out /\
    index out (width - 1)
    = index values (Z.of_nat (List.length values) - 1) /\
    (forall v, values = [v] -> out = repeat v (Z.to_nat width)).
Proof.
  intros Hn Hp. unfold resampleSeries.
  set (n := Z.of_nat (List.length values)) in *.
  replace ((n =? 0) || (width <=? 0)) with false
    by (symmetry; apply orb_false_intro; [ apply Z.eqb_neq | apply Z.leb_gt ]; lia).
  replace (n =? width) with false by (symmetry; apply Z.eqb_neq; lia).
  replace (n >? width) with false
    by (symmetry; destruct (Z.gtb_spec n width); [ lia | reflexivity ]).
  replace (width =? 1) with false by (symmetry; apply Z.eqb_neq; lia).
  destruct (Z.eqb_spec n 1) as [N1 | N1].
  - destruct values as [ | v [ | v' rest ] ];
      try (unfold n in N1; simpl in N1; lia).
    simpl index at 1. exists (repeat v (Z.to_nat width)).
    split; [ reflexivity | ]. split.
    + unfold index.
      replace (width - 1 <? 0) with false by (symmetry; apply Z.ltb_ge; lia).
      simpl. rewrite nth_error_repeat by lia. reflexivity.
    + intros v0 E. injection E as ->. reflexivity.
  - destruct (for_each_some (upsampleAt values width) (Z.to_nat width) 0)
      as (out & -> & Hlen & Hnth).
    { intros k Hk. apply upsampleAt_some. fold n. lia. }
    exists out. split; [ reflexivity | ]. split.
    + unfold index at 1.
      replace (width - 1 <? 0) with false by (symmetry; apply Z.ltb_ge; lia).
      rewrite Hnth by lia.
      replace (0 + Z.of_nat (Z.to_nat (width - 1))) with (width - 1) by lia.
      apply upsampleAt_last; fold n; lia.
    + intros v E. subst values. unfold n in N1. simpl in N1. lia.
Qed.

(** An instance: series A of the end-to-end test at width 10. *)
Lemma upsample_keeps_last_witness :
  exists out,
    resampleSeries (Values seriesA) 10 = Some out /\
    index out (10 - 1)
    = index (Values seriesA) (Z.of_nat (List.length (Values seriesA)) - 1) /\
    (forall v, Values seriesA = [v] -> out = repeat v (Z.to_nat 10)).
Proof.
  apply (upsample_keeps_last (Values seriesA) 10); simpl; lia.
Defined.

(** What the counting sink has seen after a list of lines: the writes stop
    at the one that fails. *)
Lemma writeLines_failing (k : nat) (lines : list string) :
  forall n : nat,
    (n <= k)%nat ->
    writeLines (failingWrite k) lines n
    = if (k - n <? List.length lines)%nat then (S k, Some tt)
      else ((n + List.length lines)%nat, None).
Proof.
  induction lines as [ | line rest IH ]; intros n Hn.
  - simpl. replace (n + 0)%nat with n by lia. reflexivity.
  - simpl writeLines. unfold Fprintln, failingWrite at 1.
    destruct (Nat.eqb_spec n k) as [E | E].
    + subst n. replace (k - k)%nat with 0%nat by lia. reflexivity.
    + rewrite IH by lia. simpl List.length.
      destruct (Nat.ltb_spec (k - S n) (List.length rest));
        destruct (Nat.ltb_spec (k - n) (S (List.length rest)));
        try lia; try reflexivity.
      f_equal. lia.
Qed.

(** [plotSeries] stops at the first write that fails: on a sink that fails
    at its write number [k] the call returns the error after exactly
    [k + 1] writes, and a call that returns no error has made at most [k]
    writes. *)
Theorem plotSeries_stops_at_error (k : nat) (env : Env) (title : string)
  (series : list Series) (width height : Z) (forceColor : bool)
  (n : nat) (err : option unit) :
  plotSeries (failingWrite k) env 0%nat title series width height forceColor
  = Returns n err ->
  (err = Some tt /\ n = S k) \/ (err = None /\ (n <= k)%nat).
Proof.
  unfold plotSeries.
  destruct (Z.of_nat (List.length (filterSeries series)) =? 0).
  { intro H. injection H as <- <-. right. split; [ reflexivity | lia ]. }
  destruct (maxSeriesLen (filterSeries series) =? 0).
  { intro H. injection H as <- <-. right. split; [ reflexivity | lia ]. }
  destruct (resampleAll _ _) as [scaled | ]; [ | discriminate ].
  destruct (rasterAll _ _ _ _) as [cells | ]; [ | discriminate ].
  rewrite writeLines_failing by lia.
  match goal with
  | |- context [ (?a <? ?b)%nat ] =>
      destruct (Nat.ltb_spec a b) as [Hlt | Hge]
  end; intro H; injection H as <- <-.
  - left. split; reflexivity.
  - right. split; [ reflexivity | lia ].
Qed.

(** An instance: the end-to-end test on a sink that fails at its third
    write. *)
Lemma plotSeries_stops_at_error_witness :
  plotSeries (failingWrite 2) quietEnv 0%nat "Test Plot" [seriesA; seriesB]
    5 4 false
  = Returns 3%nat (Some tt).
Proof.
  destruct (plotSeries (failingWrite 2) quietEnv 0%nat "Test Plot"
              [seriesA; seriesB] 5 4 false) as [ n err | | ] eqn:E;
    try (vm_compute in E; discriminate E).
  destruct (plotSeries_stops_at_error 2 quietEnv "Test Plot"
              [seriesA; seriesB] 5 4 false n err E) as [[-> ->] | [-> Hn]].
  - reflexivity.
  - vm_compute in E. discriminate E.
Defined.

(** * Moving average, report windows and sparkline *)

Lemma firstn_snoc {A : Type} (l : list A) (i : nat) (v : A) :
  nth_error l i = Some v -> firstn (S i) l = firstn i l ++ [v].
Proof.
  revert i. induction l as [ | a l IH ]; intros [ | i ] H; simpl in *;
    try discriminate.
  - injection H as ->. reflexivity.
  - f_equal. now apply IH.
Qed.

Lemma sumBlock_snoc (l : list float64) (v : float64) :
  sumBlock (l ++ [v]) = add (sumBlock l) v.
Proof. unfold sumBlock. now rewrite fold_left_app. Qed.

(** The loop of [MovingAverage] never reads outside [values]. *)
Lemma movingLoop_some (values : list float64) (window : Z) :
  1 < window ->
  forall (n : nat) (i : Z) (sum : float64),
    0 <= i -> i + Z.of_nat n <= Z.of_nat (List.length values) ->
    exists out,
      movingLoop values window i n sum = Some out /\ List.length out = n.
Proof.
  intros Hw. induction n as [ | n IH ]; intros i sum Hi Hn.
  - exists []. split; reflexivity.
  - simpl movingLoop. unfold movingStep.
    destruct (index_some values i ltac:(lia)) as [v ->].
    destruct (Z.geb_spec i window) as [Hge | Hlt].
    + destruct (index_some values (i - window) ltac:(lia)) as [u ->].
      destruct (IH (i + 1) (sub (add sum v) u) ltac:(lia) ltac:(lia))
        as (r & -> & Hr).
      eexists. split; [ reflexivity | ]. simpl. now rewrite Hr.
    + destruct (IH (i + 1) (add sum v) ltac:(lia) ltac:(lia))
        as (r & -> & Hr).
      eexists. split; [ reflexivity | ]. simpl. now rewrite Hr.
Qed.

(** Until the window is full the running sum is the sum of all the values
    so far, and the output their mean. *)
Lemma movingLoop_warmup (values : list float64) (window : Z) :
  forall (n : nat) (i : nat) (out : list float64),
    movingLoop values window (Z.of_nat i) n (sumBlock (firstn i values))
    = Some out ->
    forall j : nat,
      (j < n)%nat -> Z.of_nat (i + j) < window ->
      nth_error out j
      = Some (div (sumBlock (firstn (S (i + j)) values))
                (of_int (Z.of_nat (i + j) + 1))).
Proof.
  induction n as [ | n IH ]; intros i out Hout j Hj Hw; [ lia | ].
  simpl movingLoop in Hout. unfold movingStep in Hout.
  destruct (index values (Z.of_nat i)) as [v | ] eqn:Ev; [ | discriminate ].
  assert (Hv : nth_error values i = Some v).
  { unfold index in Ev.
    replace (Z.of_nat i <? 0) with false in Ev by (symmetry; apply Z.ltb_ge; lia).
    now rewrite Nat2Z.id in Ev. }
  replace (Z.of_nat i >=? window) with false in Hout
    by (symmetry; destruct (Z.geb_spec (Z.of_nat i) window); [ lia | reflexivity ]).
  destruct (movingLoop values window (Z.of_nat i + 1) n
              (add (sumBlock (firstn i values)) v)) as [r | ] eqn:Er;
    [ | discriminate ].
  injection Hout as <-.
  rewrite <- sumBlock_snoc, <- (firstn_snoc values i v Hv) in Er.
  replace (Z.of_nat i + 1) with (Z.of_nat (S i)) in Er by lia.
  destruct j as [ | j ].
  - replace (i + 0)%nat with i by lia. cbn [nth_error].
    now rewrite (firstn_snoc values i v Hv), sumBlock_snoc.
  - simpl nth_error.
    rewrite (IH (S i) r Er j) by lia.
    replace (S i + j)%nat with (i + S j)%nat by lia. reflexivity.
Qed.

Lemma MovingAverage_some (values : list float64) (window : Z) :
  exists out,
    MovingAverage values window = Some out /\
    List.length out = List.length values.
Proof.
  unfold MovingAverage.
  destruct (Z.leb_spec window 1) as [Hw | Hw]; simpl orb.
  - exists values. split; reflexivity.
  - destruct (Z.of_nat (List.length values) =? 0).
    + exists values. split; reflexivity.
    + apply (movingLoop_some values window Hw); lia.
Qed.

(** [MovingAverage] returns, without an index panic, as many values as it
    is given, for every window; with a window of 1 or less it returns the
    values themselves; and with a larger window each of the first [window]
    outputs is the mean of all the values up to it. *)
Theorem MovingAverage_spec (values : list float64) (window : Z) :
  exists out,
    MovingAverage values window = Some out /\
    List.length out = List.length values /\
    (window <= 1 -> out = values) /\
    (1 < window ->
     forall i : nat,
       Z.of_nat i < window -> (i < List.length values)%nat ->
       nth_error out i
       = Some (div (sumBlock (firstn (S i) values))
                 (of_int (Z.of_nat i + 1)))).
Proof.
  unfold MovingAverage.
  destruct (Z.leb_spec window 1) as [Hw | Hw].
  - exists values. simpl orb. repeat split; auto; intros; lia.
  - destruct (Z.eqb_spec (Z.of_nat (List.length values)) 0) as [Hz | Hz].
    + exists values. simpl orb. repeat split; auto; intros; lia.
    + simpl orb.
      destruct (movingLoop_some values window Hw (List.length values) 0 zero
                  ltac:(lia) ltac:(lia)) as (out & Hout & Hlen).
      exists out. split; [ exact Hout | ]. split; [ exact Hlen | ].
      split; [ intros; lia | ].
      intros _ i Hi Hi'.
      apply (movingLoop_warmup values window (List.length values) 0 out
               Hout i Hi'). simpl. exact Hi.
Qed.

(** An instance: six values and a window of three. *)
Lemma MovingAverage_spec_witness :
  exists out,
    MovingAverage [one; two; three; four; five; ten] 3 = Some out /\
    nth_error out 1
    = Some (div (sumBlock (firstn 2 [one; two; three; four; five; ten]))
              (of_int (Z.of_nat 1 + 1))).
Proof.
  destruct (MovingAverage_spec [one; two; three; four; five; ten] 3)
    as (out & Hout & _ & _ & Hmean).
  exists out. split; [ exact Hout | ].
  apply Hmean; simpl; lia.
Defined.

(** [lastSessionIDs] returns, without a slice panic, the ids of the last
    [window] sessions in their order: the end of the list of all ids, of
    length [window] when [0 < window < len(sessions)] and the whole list
    otherwise. *)
Theorem lastSessionIDs_window (sessions : list SessionAggregate)
  (window : Z) :
  exists ids older,
    lastSessionIDs sessions window = Some ids /\
    sessionIDs sessions = older ++ ids /\
    Z.of_nat (List.length ids)
    = if (0 <? window) && (window <? Z.of_nat (List.length sessions))
      then window else Z.of_nat (List.length sessions).
Proof.
  unfold lastSessionIDs.
  set (n := Z.of_nat (List.length sessions)).
  destruct (Z.leb_spec window 0) as [Hw | Hw]; simpl orb.
  - exists (sessionIDs sessions), []. split; [ reflexivity | ].
    split; [ reflexivity | ].
    replace (0 <? window) with false by (symmetry; apply Z.ltb_ge; lia).
    unfold sessionIDs. rewrite length_map. reflexivity.
  - replace (0 <? window) with true by (symmetry; apply Z.ltb_lt; lia).
    destruct (Z.leb_spec n window) as [Hn | Hn].
    + exists (sessionIDs sessions), []. split; [ reflexivity | ].
      split; [ reflexivity | ].
      replace (window <? n) with false by (symmetry; apply Z.ltb_ge; lia).
      unfold sessionIDs. rewrite length_map. reflexivity.
    + replace (window <? n) with true by (symmetry; apply Z.ltb_lt; lia).
      simpl andb. cbv iota. unfold slice.
      replace ((0 <=? n - window) && (n - window <=? n)
               && (n <=? Z.of_nat (List.length sessions))) with true
        by (symmetry; rewrite !andb_true_iff, !Z.leb_le; unfold n; lia).
      replace (n - (n - window)) with window by lia.
      assert (Hfull : firstn (Z.to_nat window)
                        (skipn (Z.to_nat (n - window)) sessions)
                      = skipn (Z.to_nat (n - window)) sessions).
      { apply firstn_all2. rewrite length_skipn. unfold n. lia. }
      rewrite Hfull.
      exists (sessionIDs (skipn (Z.to_nat (n - window)) sessions)),
             (sessionIDs (firstn (Z.to_nat (n - window)) sessions)).
      split; [ reflexivity | ]. split.
      * unfold sessionIDs. rewrite <- map_app.
        now rewrite firstn_skipn.
      * unfold sessionIDs. rewrite length_map, length_skipn. unfold n. lia.
Qed.

(** The characters of the ramp are reached by every index in range. *)
Lemma sparkIndex_range (v minVal maxVal : float64) :
  0 <= sparkIndex v minVal maxVal < Z.of_nat (List.length sparkChars).
Proof.
  unfold sparkIndex.
  set (idx := to_int _). clearbody idx.
  change (Z.of_nat (List.length sparkChars)) with 10.
  destruct (Z.ltb_spec idx 0).
  - simpl. lia.
  - destruct (Z.geb_spec idx 10); lia.
Qed.

Lemma index_In {A : Type} (l : list A) (i : Z) (a : A) :
  index l i = Some a -> In a l.
Proof.
  unfold index. destruct (i <? 0); [ discriminate | ].
  apply nth_error_In.
Qed.

Lemma sparkBytes_some (values : list float64) (minVal maxVal : float64) :
  exists bytes,
    sparkBytes values minVal maxVal = Some bytes /\
    List.length bytes = List.length values /\
    Forall (fun c => In c sparkChars) bytes.
Proof.
  induction values as [ | v rest IH ].
  - exists []. repeat split. constructor.
  - destruct IH as (r & Hr & Hlen & Hall). simpl sparkBytes.
    destruct (index_some sparkChars (sparkIndex v minVal maxVal)
                (sparkIndex_range v minVal maxVal)) as [c Hc].
    rewrite Hc, Hr. exists (c :: r). split; [ reflexivity | ].
    split; [ simpl; now rewrite Hlen | ].
    constructor; [ now apply index_In in Hc | exact Hall ].
Qed.

Lemma length_string_of_list (l : list ascii) :
  String.length (string_of_list_ascii l) = List.length l.
Proof. induction l as [ | c l IH ]; simpl; [ reflexivity | now rewrite IH ]. Qed.

(** [Sparkline] never indexes outside its ramp of characters: for every
    list of values, NaN and infinities included, it returns one character
    of the ramp [" .:-=+*#%@"] per value. *)
Theorem Sparkline_ramp (values : list float64) :
  exists s,
    Sparkline values = Some s /\
    String.length s = List.length values /\
    Forall (fun c => In c sparkChars) (list_ascii_of_string s).
Proof.
  unfold Sparkline. destruct values as [ | first rest ].
  - exists EmptyString. repeat split. constructor.
  - destruct (sparkRange first rest) as [minVal maxVal].
    destruct (ltb (abs (sub maxVal minVal)) eps_1e9).
    + change (index sparkChars (Z.quot (Z.of_nat (List.length sparkChars)) 2))
        with (Some "+"%char).
      eexists. split; [ reflexivity | ].
      rewrite length_string_of_list, repeat_length.
      split; [ reflexivity | ].
      rewrite list_ascii_of_string_of_list_ascii.
      apply Forall_forall. intros c Hc. apply repeat_spec in Hc. subst c.
      vm_compute. tauto.
    + destruct (sparkBytes_some (first :: rest) minVal maxVal)
        as (bytes & -> & Hlen & Hall).
      eexists. split; [ reflexivity | ].
      rewrite length_string_of_list.
      split; [ exact Hlen | ].
      now rewrite list_ascii_of_string_of_list_ascii.
Qed.

(** A series of equal finite values is drawn with the middle character of
    the ramp throughout. *)
Theorem Sparkline_constant (c : float64) (n : nat) :
  isFinite c = true ->
  Sparkline (repeat c (S n))
  = Some (string_of_list_ascii (repeat "+"%char (S n))).
Proof.
  intro Hc. unfold Sparkline. simpl repeat at 1.
  unfold sparkRange. rewrite runningRange_constant.
  rewrite (sub_self c Hc).
  change (ltb (abs zero) eps_1e9) with true. cbv iota.
  change (index sparkChars (Z.quot (Z.of_nat (List.length sparkChars)) 2))
    with (Some "+"%char).
  simpl List.length. rewrite repeat_length. reflexivity.
Qed.

(** An instance: three times the value 5. *)
Lemma Sparkline_constant_witness :
  Sparkline (repeat five 3) = Some "+++"%string.
Proof.
  apply (Sparkline_constant five 2). reflexivity.
Defined.

Lemma get_string_of_list (l : list ascii) (i : nat) :
  String.get i (string_of_list_ascii l) = nth_error l i.
Proof.
  revert i. induction l as [ | c l IH ]; intros [ | i ]; simpl; auto.
Qed.

Lemma sparkBytes_nth (values : list float64) (minVal maxVal : float64) :
  forall (bytes : list ascii) (i : nat) (v : float64),
    sparkBytes values minVal maxVal = Some bytes ->
    nth_error values i = Some v ->
    nth_error bytes i = index sparkChars (sparkIndex v minVal maxVal).
Proof.
  induction values as [ | v0 rest IH ]; intros bytes i v Hb Hv.
  - destruct i; discriminate Hv.
  - simpl sparkBytes in Hb.
    destruct (index sparkChars (sparkIndex v0 minVal maxVal)) as [c | ] eqn:Ec;
      [ | discriminate ].
    destruct (sparkBytes rest minVal maxVal) as [r | ] eqn:Er;
      [ | discriminate ].
    injection Hb as <-. destruct i as [ | i ].
    + simpl in Hv. injection Hv as <-. simpl. now rewrite Ec.
    + simpl in *. now apply IH.
Qed.

(** The ends of the ramp: the minimum of the range is drawn with the first
    character and the maximum with the last. *)
Lemma sparkIndex_extremes (minVal maxVal : float64) :
  isFinite minVal = true -> isNormal (sub maxVal minVal) = true ->
  sparkIndex minVal minVal maxVal = 0 /\ sparkIndex maxVal minVal maxVal = 9.
Proof.
  intros Hf Hn. unfold sparkIndex.
  change (Z.of_nat (List.length sparkChars)) with 10.
  change (10 - 1) with 9. split.
  - rewrite (sub_self minVal Hf).
    assert (Hp : exists sg, div zero (sub maxVal minVal) = S754_zero sg).
    { destruct (sub maxVal minVal) as [ | | | s m e ]; try discriminate Hn.
      eexists. reflexivity. }
    destruct Hp as [sg ->]. destruct sg; reflexivity.
  - rewrite (div_self_normal _ Hn). vm_compute. reflexivity.
Qed.

(** In a sparkline whose range is not degenerate the smallest value is
    drawn as a space, the first character of the ramp, and the largest as
    ["@"], the last one (for a finite minimum and a range whose width is a
    float64 in normal form). *)
Theorem Sparkline_extremes (first : float64) (rest : list float64)
  (s : string) (i : nat) :
  let minVal := fst (sparkRange first rest) in
  let maxVal := snd (sparkRange first rest) in
  Sparkline (first :: rest) = Some s ->
  ltb (abs (sub maxVal minVal)) eps_1e9 = false ->
  isFinite minVal = true -> isNormal (sub maxVal minVal) = true ->
  (nth_error (first :: rest) i = Some minVal ->
   String.get i s = Some " "%char) /\
  (nth_error (first :: rest) i = Some maxVal ->
   String.get i s = Some "@"%char).
Proof.
  cbv zeta. unfold Sparkline.
  destruct (sparkRange first rest) as [minVal maxVal]. cbn [fst snd].
  intros Hs Hd Hf Hn. rewrite Hd in Hs.
  destruct (sparkBytes (first :: rest) minVal maxVal) as [bytes | ] eqn:Eb;
    [ | discriminate ].
  injection Hs as <-.
  destruct (sparkIndex_extremes minVal maxVal Hf Hn) as [E0 E9].
  split; intro Hv; rewrite get_string_of_list,
    (sparkBytes_nth _ _ _ _ _ _ Eb Hv).
  - rewrite E0. reflexivity.
  - rewrite E9. reflexivity.
Qed.

(** An instance: the smallest and the largest of five values. *)
Lemma Sparkline_extremes_witness :
  String.get 0 " +@+ " = Some " "%char /\
  String.get 2 " +@+ " = Some "@"%char.
Proof.
  split.
  - apply (Sparkline_extremes one [two; three; two; one] " +@+ " 0);
      vm_compute; reflexivity.
  - apply (Sparkline_extremes one [two; three; two; one] " +@+ " 2);
      vm_compute; reflexivity.
Defined.

(** * Tables *)

Section TableProofs.

Variable displayWidth : string -> Z.
Variable rightAlignCols : Z -> bool.

(** What is used of [utf8.RuneCountInString]: the empty string has no
    character, and a space between two strings counts for one more than
    the two together. *)
Hypothesis displayWidth_empty : displayWidth EmptyString = 0.
Hypothesis displayWidth_space :
  forall a b : string,
    displayWidth (a ++ String " "%char b) = displayWidth a + 1 + displayWidth b.

Lemma string_app_nil_r (s : string) : (s ++ EmptyString)%string = s.
Proof. induction s as [ | c s IH ]; simpl; [ reflexivity | now rewrite IH ]. Qed.

Lemma string_app_assoc (a b c : string) :
  ((a ++ b) ++ c)%string = (a ++ (b ++ c))%string.
Proof. induction a as [ | x a IH ]; simpl; [ reflexivity | now rewrite IH ]. Qed.

Lemma spaces_succ (n : Z) :
  0 <= n -> spaces (n + 1) = String " "%char (spaces n).
Proof.
  intro Hn. unfold spaces.
  replace (Z.to_nat (n + 1)) with (S (Z.to_nat n)) by lia. reflexivity.
Qed.

Lemma displayWidth_spaces_l (n : Z) (s : string) :
  0 <= n -> displayWidth (spaces n ++ s) = n + displayWidth s.
Proof.
  intro Hn. pattern n. apply natlike_ind; [ | | exact Hn ].
  - simpl. lia.
  - intros k Hk IH. unfold Z.succ. rewrite spaces_succ by exact Hk.
    change (String " "%char (spaces k) ++ s)%string
      with (EmptyString ++ String " "%char (spaces k ++ s))%string.
    rewrite displayWidth_space, displayWidth_empty, IH. lia.
Qed.

Lemma displayWidth_spaces_r (n : Z) (s : string) :
  0 <= n -> displayWidth (s ++ spaces n) = displayWidth s + n.
Proof.
  intro Hn. destruct (Z.eq_dec n 0) as [-> | Hz].
  - change (spaces 0) with EmptyString. rewrite string_app_nil_r. lia.
  - replace n with (n - 1 + 1) by lia. rewrite spaces_succ by lia.
    rewrite displayWidth_space.
    pose proof (displayWidth_spaces_l (n - 1) EmptyString ltac:(lia)) as H.
    rewrite string_app_nil_r, displayWidth_empty in H. lia.
Qed.

(** A cell no wider than its column is padded to the width of the
    column. *)
Lemma padCell_width (value : string) (width : Z) (rightAlign : bool) :
  displayWidth value <= width ->
  displayWidth (padCell displayWidth value width rightAlign) = width.
Proof.
  intro H. unfold padCell.
  destruct (Z.geb_spec (displayWidth value) width) as [Hge | Hlt]; [ lia | ].
  destruct rightAlign.
  - rewrite displayWidth_spaces_l by lia. lia.
  - rewrite displayWidth_spaces_r by lia. lia.
Qed.

(** The width of the cells from a column after the first one on, appended
    to what comes before them. *)
Lemma formatCells_width (row : list string) (widths : list Z) :
  forall (i : Z) (before : string),
    0 < i ->
    (forall k : nat, (k < List.length widths)%nat ->
       displayWidth (cellOf row (i + Z.of_nat k)) <= nth k widths 0) ->
    displayWidth
      (before ++ formatCells displayWidth rightAlignCols row i widths)
    = displayWidth before + sumZ widths + Z.of_nat (List.length widths).
Proof.
  induction widths as [ | wd rest IH ]; intros i before Hi Hfit.
  - simpl. rewrite string_app_nil_r. lia.
  - simpl formatCells.
    replace (i >? 0) with true by (symmetry; apply Z.gtb_lt; lia).
    change (" " ++ padCell displayWidth (cellOf row i) wd (rightAlignCols i)
              ++ formatCells displayWidth rightAlignCols row (i + 1) rest)%string
      with (String " "%char
              (padCell displayWidth (cellOf row i) wd (rightAlignCols i)
                 ++ formatCells displayWidth rightAlignCols row (i + 1) rest)).
    rewrite displayWidth_space.
    rewrite IH.
    + rewrite padCell_width.
      * simpl sumZ. simpl List.length. lia.
      * specialize (Hfit 0%nat ltac:(simpl; lia)).
        simpl in Hfit. now rewrite Z.add_0_r in Hfit.
    + lia.
    + intros k Hk. specialize (Hfit (S k) ltac:(simpl; lia)).
      simpl nth in Hfit.
      replace (i + 1 + Z.of_nat k) with (i + Z.of_nat (S k)) by lia.
      exact Hfit.
Qed.

(** A row whose cells fit the columns is as wide as the columns and the
    spaces between them. *)
Lemma formatRow_width (row : list string) (widths : list Z) :
  widths <> [] ->
  (forall k : nat, (k < List.length widths)%nat ->
     displayWidth (cellOf row (Z.of_nat k)) <= nth k widths 0) ->
  displayWidth (formatRow displayWidth rightAlignCols row widths)
  = sumZ widths + (Z.of_nat (List.length widths) - 1).
Proof.
  intros Hne Hfit. destruct widths as [ | wd rest ]; [ congruence | ].
  unfold formatRow. simpl formatCells.
  rewrite formatCells_width.
  - rewrite padCell_width.
    + simpl sumZ. simpl List.length. lia.
    + exact (Hfit 0%nat ltac:(simpl; lia)).
  - lia.
  - intros k Hk. specialize (Hfit (S k) ltac:(simpl; lia)).
    simpl nth in Hfit.
    match goal with
    | |- context [ cellOf row ?e ] => replace e with (Z.of_nat (S k)) by lia
    end.
    exact Hfit.
Qed.

Lemma widenFrom_length (row : list string) (widths : list Z) :
  forall i, List.length (widenFrom displayWidth row i widths)
            = List.length widths.
Proof.
  induction widths as [ | wd rest IH ]; intro i; simpl;
    [ reflexivity | now rewrite IH ].
Qed.

(** After the loop over a row every column is at least as wide as before
    and as the cell of the row. *)
Lemma widenFrom_nth (row : list string) (widths : list Z) :
  forall (i : Z) (k : nat),
    (k < List.length widths)%nat ->
    nth k widths 0 <= nth k (widenFrom displayWidth row i widths) 0 /\
    displayWidth (cellOf row (i + Z.of_nat k))
    <= nth k (widenFrom displayWidth row i widths) 0.
Proof.
  induction widths as [ | wd rest IH ]; intros i k Hk; simpl in Hk; [ lia | ].
  simpl widenFrom. destruct k as [ | k ].
  - simpl nth. rewrite Z.add_0_r.
    destruct (Z.gtb_spec (displayWidth (cellOf row i)) wd); lia.
  - simpl nth. destruct (IH (i + 1) k ltac:(lia)) as [H1 H2].
    replace (i + Z.of_nat (S k)) with (i + 1 + Z.of_nat k) by lia.
    split; assumption.
Qed.

(** The widths after the loop over the rows: at least the widths before
    and the cells of every row. *)
Lemma widen_rows (rows : list (list string)) :
  forall widths : list Z,
    let final :=
      fold_left (fun widths row => widenFrom displayWidth row 0 widths)
        rows widths in
    List.length final = List.length widths /\
    forall k : nat, (k < List.length widths)%nat ->
      nth k widths 0 <= nth k final 0 /\
      forall row, In row rows ->
        displayWidth (cellOf row (Z.of_nat k)) <= nth k final 0.
Proof.
  induction rows as [ | r rest IH ]; intros widths; cbv zeta.
  - simpl. split; [ reflexivity | ].
    intros k Hk. split; [ lia | intros row [] ].
  - simpl fold_left.
    destruct (IH (widenFrom displayWidth r 0 widths)) as [L N].
    rewrite widenFrom_length in L, N.
    split; [ exact L | ].
    intros k Hk. destruct (N k Hk) as [N1 N2].
    destruct (widenFrom_nth r widths 0 k Hk) as [W1 W2].
    rewrite Z.add_0_l in W2.
    split; [ lia | ].
    intros row [<- | Hin]; [ lia | now apply N2 ].
Qed.

Lemma nth_map_upto {A : Type} (f : Z -> A) (n : Z) (k : nat) (d : A) :
  Z.of_nat k < n -> nth k (map f (upto n)) d = f (Z.of_nat k).
Proof.
  intro Hk. unfold upto. rewrite map_map.
  rewrite (nth_indep _ d (f (Z.of_nat 0)))
    by (rewrite length_map, length_seq; lia).
  rewrite (map_nth (fun x => f (Z.of_nat x)) (seq 0 (Z.to_nat n)) 0%nat k).
  rewrite seq_nth by lia. reflexivity.
Qed.

Lemma headerWidths_nth (headers : list string) (colCount : Z) (k : nat) :
  Z.of_nat k < colCount ->
  nth k (headerWidths displayWidth headers colCount) 0
  = displayWidth (cellOf headers (Z.of_nat k)).
Proof.
  intro Hk. unfold headerWidths. rewrite nth_map_upto by exact Hk.
  destruct (Z.ltb_spec (Z.of_nat k) (Z.of_nat (List.length headers)))
    as [Hlt | Hge]; [ reflexivity | ].
  unfold cellOf.
  replace (Z.of_nat k <? Z.of_nat (List.length headers)) with false
    by (symmetry; apply Z.ltb_ge; lia).
  now rewrite displayWidth_empty.
Qed.

(** [formatTable] aligns its columns: it gives one line for the headers,
    when there are any, and one per row, and all the lines have the same
    width, the sum of the widths of the columns and one space between two
    columns; without any column it gives no line. *)
Theorem formatTable_aligned (headers : list string)
  (rows : list (list string)) :
  let lines := formatTable displayWidth rightAlignCols headers rows in
  (columnCount headers rows = 0 -> lines = []) /\
  (0 < columnCount headers rows ->
   List.length lines
   = ((if Z.of_nat (List.length headers) >? 0 then 1 else 0)
      + List.length rows)%nat /\
   forall line, In line lines ->
     displayWidth line
     = sumZ (columnWidths displayWidth headers rows)
       + (columnCount headers rows - 1)).
Proof.
  cbv zeta. unfold formatTable. split.
  - intros ->. reflexivity.
  - intro Hc.
    replace (columnCount headers rows =? 0) with false
      by (symmetry; apply Z.eqb_neq; lia).
    split.
    { rewrite length_app, length_map.
      destruct (Z.of_nat (List.length headers) >? 0); reflexivity. }
    set (widths := columnWidths displayWidth headers rows).
    destruct (widen_rows rows
                (headerWidths displayWidth headers (columnCount headers rows)))
      as [L N].
    fold (columnWidths displayWidth headers rows) in L, N. fold widths in L, N.
    assert (L0 : Z.of_nat (List.length
                             (headerWidths displayWidth headers
                                (columnCount headers rows)))
                 = columnCount headers rows).
    { unfold headerWidths. rewrite length_map, upto_length. lia. }
    assert (Lw : Z.of_nat (List.length widths) = columnCount headers rows)
      by (rewrite L; exact L0).
    assert (Hne : widths <> []).
    { intro E. rewrite E in Lw. simpl in Lw. lia. }
    assert (Hrow : forall row, In row (headers :: rows) ->
               displayWidth (formatRow displayWidth rightAlignCols row widths)
               = sumZ widths + (columnCount headers rows - 1)).
    { intros row Hin. rewrite formatRow_width; [ lia | exact Hne | ].
      intros k Hk.
      assert (Hk' : (k < List.length
                           (headerWidths displayWidth headers
                              (columnCount headers rows)))%nat) by lia.
      destruct (N k Hk') as [N1 N2].
      destruct Hin as [<- | Hin]; [ | now apply N2 ].
      rewrite headerWidths_nth in N1 by lia. exact N1. }
    intros line Hin. apply in_app_or in Hin. destruct Hin as [Hin | Hin].
    + destruct (Z.of_nat (List.length headers) >? 0); [ | destruct Hin ].
      destruct Hin as [<- | []]. apply Hrow. now left.
    + apply in_map_iff in Hin. destruct Hin as (row & <- & Hin).
      apply Hrow. now right.
Qed.

End TableProofs.

(** An instance: the table of the test of the repository, with the
    length in bytes for width (the cells are ASCII). *)
Lemma formatTable_aligned_witness :
  let dw := fun s : string => Z.of_nat (String.length s) in
  let ra := fun i : Z => (i =? 1) || (i =? 2) in
  let headers := ["Char"; "Accuracy"; "Correct"]%string in
  let rows := [["a"; "97.50%"; "12"]; ["<space>"; "8.00%"; "3"]]%string in
  formatTable dw ra headers rows
  = ["Char    Accuracy Correct"; "a         97.50%      12";
     "<space>    8.00%       3"]%string /\
  forall line, In line (formatTable dw ra headers rows) ->
    dw line = sumZ (columnWidths dw headers rows)
              + (columnCount headers rows - 1).
Proof.
  cbv zeta. split; [ vm_compute; reflexivity | ].
  apply (formatTable_aligned (fun s : string => Z.of_nat (String.length s))
           (fun i : Z => (i =? 1) || (i =? 2))).
  - reflexivity.
  - intros a b. cbv beta. rewrite string_length_app. simpl String.length. lia.
  - vm_compute. reflexivity.
Defined.

(** * The learning curves: [RenderCurvesWithSize] over the plot engine *)

(** A call of [plotSeries] on sizes that can be allocated returns. *)
Lemma plotSeries_returns {W E : Type} (write : W -> string -> W * option E)
  (env : Env) (w : W) (title : string) (series : list Series)
  (width height : Z) (forceColor : bool) :
  Forall (fun s => Z.of_nat (List.length (Values s)) <= 2 ^ 50) series ->
  plotHeight height <= 2 ^ 50 -> plotWidth env width <= 2 ^ 50 ->
  exists w' err,
    plotSeries write env w title series width height forceColor
    = Returns w' err.
Proof.
  intros Hlen Hh Hw. unfold plotSeries.
  destruct (Z.of_nat (List.length (filterSeries series)) =? 0); [ eauto | ].
  destruct (maxSeriesLen (filterSeries series) =? 0); [ eauto | ].
  destruct (resampleAll_some (filterSeries series) (plotWidth env width))
    as (scaled & Hres).
  { pose proof (plotWidth_min env width). unfold minPlotWidth in *. lia. }
  { apply Forall_forall. intros s Hin.
    apply filterSeries_In in Hin. destruct Hin as [Hin Hne].
    split; [ exact Hne | ].
    rewrite Forall_forall in Hlen. now apply Hlen. }
  rewrite Hres.
  destruct (rasterAll_some (plotHeight height) (plotWidth env width)
              ltac:(pose proof (plotHeight_pos height); lia) scaled 0)
    as (gs & ->).
  { apply resampleAll_lengths in Hres.
    eapply Forall_impl; [ | exact Hres ].
    intros s [-> | Hs]; simpl; lia. }
  destruct (writeLines write _ w) as [w1 err]. eauto.
Qed.

(** What a buffer holds after a call of [plotSeries] that returns: nothing
    when no series is left, and otherwise the lines of the plot of the
    resampled series. *)
Lemma renderToBuffer_lines (env : Env) (title : string)
  (series : list Series) (width height : Z) (forceColor : bool)
  (out : string) (err : option unit) :
  renderToBuffer env title series width height forceColor = Returns out err ->
  err = None /\
  ((filterSeries series = [] /\ out = EmptyString) \/
   (filterSeries series <> [] /\
    exists scaled seriesCells,
      resampleAll (filterSeries series) (plotWidth env width) = Some scaled /\
      rasterAll 0 scaled (plotHeight height) (plotWidth env width)
      = Some seriesCells /\
      out = textOf (plotLines title scaled seriesCells (plotWidth env width)
                      (plotHeight height) (shouldUseColor env forceColor)))).
Proof.
  unfold renderToBuffer, plotSeries.
  destruct (Z.eqb_spec (Z.of_nat (List.length (filterSeries series))) 0)
    as [Hz | Hz].
  { intro H. injection H as <- <-. split; [ reflexivity | left ].
    split; [ | reflexivity ].
    destruct (filterSeries series); [ reflexivity | simpl in Hz; lia ]. }
  assert (Hne : filterSeries series <> []).
  { intro E. rewrite E in Hz. simpl in Hz. lia. }
  destruct (Z.eqb_spec (maxSeriesLen (filterSeries series)) 0) as [Hm | Hm].
  { exfalso. destruct (filterSeries series) as [ | s rest ] eqn:Hf;
      [ congruence | ].
    assert (Hin : In s (filterSeries series)) by (rewrite Hf; now left).
    apply filterSeries_In in Hin. destruct Hin as [_ Hv].
    destruct (maxSeriesLen_ge (s :: rest) 0) as [_ Hge].
    specialize (Hge s (or_introl eq_refl)).
    unfold maxSeriesLen in Hm. rewrite Hm in Hge.
    destruct (Values s); [ congruence | simpl in Hge; lia ]. }
  destruct (resampleAll (filterSeries series) (plotWidth env width))
    as [scaled | ] eqn:Hres; [ | discriminate ].
  destruct (rasterAll 0 scaled (plotHeight height) (plotWidth env width))
    as [seriesCells | ] eqn:Hras; [ | discriminate ].
  rewrite writeLines_buffer. intro H. injection H as <- <-.
  split; [ reflexivity | right ]. split; [ exact Hne | ].
  exists scaled, seriesCells.
  repeat split; first [ reflexivity | exact Hras ].
Qed.

(** The series handed to the plot engine by [RenderCurvesWithSize]. *)
Lemma RenderCurvesWithSize_series {W E : Type}
  (write : W -> string -> W * option E) (env : Env) (w : W)
  (sessions : list SessionAggregate) (window totalWidth height : Z)
  (useColor : bool) :
  sessions <> [] ->
  exists wpms accs,
    List.length wpms = List.length sessions /\
    List.length accs = List.length sessions /\
    RenderCurvesWithSize write env w sessions window totalWidth height useColor
    = plotSeries write env w "Learning Curves"
        [mkSeries "WPM" wpms; mkSeries "Accuracy" accs]
        (if totalWidth >? 0 then PlotWidthFor totalWidth else 0)
        height useColor.
Proof.
  intro Hne. unfold RenderCurvesWithSize.
  replace (Z.of_nat (List.length sessions) =? 0) with false
    by (symmetry; apply Z.eqb_neq; destruct sessions;
        [ congruence | simpl; lia ]).
  match goal with
  | |- context [ MovingAverage ?l window ] =>
      destruct (MovingAverage_some l window) as (wpms & -> & Lw)
  end.
  match goal with
  | |- context [ MovingAverage ?l window ] =>
      destruct (MovingAverage_some l window) as (accs & -> & La)
  end.
  rewrite length_map in Lw, La.
  exists wpms, accs. repeat split; assumption.
Qed.

(** [PlotWidthFor] in closed form: the total width less the 7 columns of
    the gutter, and never less than the minimum of 10. *)
Lemma PlotWidthFor_closed (totalWidth : Z) :
  PlotWidthFor totalWidth = Z.max minPlotWidth (totalWidth - 7).
Proof.
  unfold PlotWidthFor, minPlotWidth.
  destruct (Z.leb_spec totalWidth 0); [ lia | ].
  change (4 + 3) with 7.
  destruct (Z.ltb_spec (totalWidth - 7) 10); [ simpl; lia | ].
  destruct (Z.ltb_spec (totalWidth - 7) 1); lia.
Qed.

(** A width of 10 or more is drawn as it is. *)
Lemma plotWidth_id (env : Env) (width : Z) :
  minPlotWidth <= width -> plotWidth env width = width.
Proof.
  unfold plotWidth, minPlotWidth. intro H.
  replace (width <=? 0) with false by (symmetry; apply Z.leb_gt; lia).
  replace (width <? 10) with false by (symmetry; apply Z.ltb_ge; lia).
  replace (width <? 1) with false by (symmetry; apply Z.ltb_ge; lia).
  reflexivity.
Qed.

Lemma curveWidth_bound (env : Env) (totalWidth : Z) :
  totalWidth <= 2 ^ 50 -> terminalWidth env <= 2 ^ 50 ->
  plotWidth env (if totalWidth >? 0 then PlotWidthFor totalWidth else 0)
  <= 2 ^ 50.
Proof.
  intros Ht He.
  destruct (Z.gtb_spec totalWidth 0) as [Hpos | Hneg].
  - rewrite plotWidth_id; rewrite PlotWidthFor_closed; unfold minPlotWidth; lia.
  - unfold plotWidth. change (0 <=? 0) with true. cbv iota.
    unfold autoPlotWidth. rewrite PlotWidthFor_closed. unfold minPlotWidth.
    destruct (Z.ltb_spec (Z.max 10 (terminalWidth env - 7)) 10); [ simpl; lia | ].
    destruct (Z.ltb_spec (Z.max 10 (terminalWidth env - 7)) 1); lia.
Qed.

(** [RenderCurvesWithSize] never fails by itself: without sessions it
    writes nothing and returns nil, and for any sessions, window and
    sizes that fit in memory it returns, without a panic in
    [MovingAverage] or in the plot engine and without hanging. *)
Theorem RenderCurvesWithSize_returns {W E : Type}
  (write : W -> string -> W * option E) (env : Env) (w : W)
  (sessions : list SessionAggregate) (window totalWidth height : Z)
  (useColor : bool) :
  Z.of_nat (List.length sessions) <= 2 ^ 50 ->
  plotHeight height <= 2 ^ 50 ->
  totalWidth <= 2 ^ 50 -> terminalWidth env <= 2 ^ 50 ->
  exists w' err,
    RenderCurvesWithSize write env w sessions window totalWidth height useColor
    = Returns w' err /\
    (sessions = [] -> w' = w /\ err = None).
Proof.
  intros Hs Hh Ht He.
  destruct sessions as [ | s0 rest ] eqn:Es.
  - exists w, None. split; [ reflexivity | auto ].
  - rewrite <- Es in *.
    assert (Hne : sessions <> []) by (rewrite Es; discriminate).
    destruct (RenderCurvesWithSize_series write env w sessions window
                totalWidth height useColor Hne)
      as (wpms & accs & Lw & La & ->).
    destruct (plotSeries_returns write env w "Learning Curves"
                [mkSeries "WPM" wpms; mkSeries "Accuracy" accs]
                (if totalWidth >? 0 then PlotWidthFor totalWidth else 0)
                height useColor) as (w' & err & Hr).
    + repeat constructor; simpl; lia.
    + exact Hh.
    + now apply curveWidth_bound.
    + exists w', err. split; [ exact Hr | ].
      intro Enil. rewrite Enil in Hne. congruence.
Qed.

(** An instance: two sessions, drawn from the terminal width. *)
Lemma RenderCurvesWithSize_returns_witness :
  exists w' err,
    RenderCurvesWithSize bufferWrite quietEnv EmptyString
      [mkSession 1 250 10 60000; mkSession 2 300 5 60000] 3 0 10 false
    = Returns w' err.
Proof.
  destruct (RenderCurvesWithSize_returns bufferWrite quietEnv EmptyString
              [mkSession 1 250 10 60000; mkSession 2 300 5 60000] 3 0 10 false)
    as (w' & err & Hr & _).
  - simpl. lia.
  - vm_compute. discriminate.
  - lia.
  - vm_compute. discriminate.
  - exists w', err. exact Hr.
Defined.

(** With [NO_COLOR] set, or with color not asked for and a sink that is
    not a terminal, the learning curves contain no escape byte: their
    title and their series names are fixed and contain none. *)
Theorem RenderCurvesWithSize_no_escape (env : Env)
  (sessions : list SessionAggregate) (window totalWidth height : Z)
  (useColor : bool) (out : string) (err : option unit) :
  NO_COLOR env <> EmptyString \/
    (useColor = false /\ sinkIsTerminal env = false) ->
  RenderCurvesWithSize bufferWrite env EmptyString sessions window
    totalWidth height useColor = Returns out err ->
  hasEsc out = false.
Proof.
  intros Hoff Hr.
  assert (Hc : shouldUseColor env useColor = false).
  { unfold shouldUseColor.
    destruct (String.eqb_spec (NO_COLOR env) EmptyString) as [E | E]; simpl.
    - destruct Hoff as [Hno | [-> ->] ]; [ contradiction | reflexivity ].
    - reflexivity. }
  destruct sessions as [ | s0 rest ] eqn:Es.
  - unfold RenderCurvesWithSize in Hr. simpl in Hr.
    injection Hr as <- _. reflexivity.
  - rewrite <- Es in *.
    assert (Hne : sessions <> []) by (rewrite Es; discriminate).
    destruct (RenderCurvesWithSize_series bufferWrite env EmptyString sessions
                window totalWidth height useColor Hne)
      as (wpms & accs & Lw & La & E).
    rewrite E in Hr.
    apply renderToBuffer_lines in Hr.
    destruct Hr as [_ [[_ ->] | (_ & scaled & cells & Hres & Hras & ->)]];
      [ reflexivity | ].
    rewrite Hc. apply hasEsc_textOf. apply plotLines_noEsc.
    + reflexivity.
    + apply resampleAll_names in Hres.
      apply Forall_forall. intros s Hs.
      assert (Hin : In (Name s)
                      (map Name (filterSeries [mkSeries "WPM" wpms;
                                               mkSeries "Accuracy" accs]))).
      { rewrite <- Hres. now apply in_map. }
      apply in_map_iff in Hin. destruct Hin as (s1 & <- & Hs1).
      apply filterSeries_In in Hs1. destruct Hs1 as [[<- | [<- | []]] _];
        reflexivity.
    + eapply rasterAll_byte. exact Hras.
Qed.

(** An instance: color asked for, [NO_COLOR=1]. *)
Lemma RenderCurvesWithSize_no_escape_witness :
  exists out,
    RenderCurvesWithSize bufferWrite (mkEnv "1" None true) EmptyString
      [mkSession 1 250 10 60000; mkSession 2 300 5 60000] 3 30 4 true
    = Returns out None /\
    hasEsc out = false.
Proof.
  destruct (RenderCurvesWithSize bufferWrite (mkEnv "1" None true) EmptyString
              [mkSession 1 250 10 60000; mkSession 2 300 5 60000] 3 30 4 true)
    as [ out err | | ] eqn:E; try (vm_compute in E; discriminate E).
  exists out. split.
  - f_equal. clear - E. vm_compute in E. congruence.
  - apply (RenderCurvesWithSize_no_escape (mkEnv "1" None true)
             [mkSession 1 250 10 60000; mkSession 2 300 5 60000] 3 30 4 true
             out err).
    + left. discriminate.
    + exact E.
Defined.

(** The learning curves fill the width they are given: called with a
    total width of 17 or more and without color, [RenderCurvesWithSize]
    plots its two series over [totalWidth - 7] columns, and every data row
    it writes, gutter and separator included, has exactly [totalWidth]
    characters. *)
Theorem RenderCurvesWithSize_fits (env : Env)
  (sessions : list SessionAggregate) (window totalWidth height : Z)
  (useColor : bool) (out : string) (err : option unit) :
  17 <= totalWidth -> sessions <> [] ->
  shouldUseColor env useColor = false ->
  RenderCurvesWithSize bufferWrite env EmptyString sessions window
    totalWidth height useColor = Returns out err ->
  exists scaled seriesCells,
    out = textOf (plotLines "Learning Curves" scaled seriesCells
                    (totalWidth - 7) (plotHeight height) false) /\
    map Name scaled = ["WPM"; "Accuracy"]%string /\
    Forall (fun s => Z.of_nat (List.length (Values s)) = totalWidth - 7)
      scaled /\
    forall y,
      codePoints (dataRow false seriesCells
                    (makeAxisLabels (plotHeight height)) (totalWidth - 7) y)
      = totalWidth.
Proof.
  intros Ht Hne Hc Hr.
  destruct (RenderCurvesWithSize_series bufferWrite env EmptyString sessions
              window totalWidth height useColor Hne)
    as (wpms & accs & Lw & La & E).
  rewrite E in Hr. clear E.
  replace (totalWidth >? 0) with true in Hr
    by (symmetry; apply Z.gtb_lt; lia).
  rewrite PlotWidthFor_closed in Hr.
  replace (Z.max minPlotWidth (totalWidth - 7)) with (totalWidth - 7) in Hr
    by (unfold minPlotWidth; lia).
  apply renderToBuffer_lines in Hr.
  rewrite plotWidth_id in Hr by (unfold minPlotWidth; lia).
  rewrite Hc in Hr.
  assert (Lpos : (0 < List.length sessions)%nat)
    by (destruct sessions; [ congruence | simpl; lia ]).
  assert (Hf : filterSeries [mkSeries "WPM" wpms; mkSeries "Accuracy" accs]
               = [mkSeries "WPM" wpms; mkSeries "Accuracy" accs]).
  { unfold filterSeries. simpl filter. simpl Values.
    replace (Z.of_nat (List.length wpms) =? 0) with false
      by (symmetry; apply Z.eqb_neq; lia).
    replace (Z.of_nat (List.length accs) =? 0) with false
      by (symmetry; apply Z.eqb_neq; lia).
    reflexivity. }
  rewrite Hf in Hr.
  destruct Hr as [_ [[Hnil _] | (_ & scaled & cells & Hres & Hras & ->)]];
    [ discriminate Hnil | ].
  exists scaled, cells. split; [ reflexivity | ]. split.
  { apply resampleAll_names in Hres. exact Hres. }
  split.
  { apply (resampleAll_width
             [mkSeries "WPM" wpms; mkSeries "Accuracy" accs] scaled
             (totalWidth - 7)); [ lia | | exact Hres ].
    repeat constructor; simpl; intro E0;
      [ rewrite E0 in Lw | rewrite E0 in La ]; simpl in *; lia. }
  intro y. unfold dataRow, rowCells. rewrite codePoints_app.
  destruct (rowPrefix_size (plotHeight height) y) as [P1 _].
  destruct (rowCells_size cells y (upto (totalWidth - 7))
              (rasterAll_byte _ _ _ _ _ Hras)) as [R1 _].
  rewrite P1, R1. pose proof (upto_length (totalWidth - 7)). lia.
Qed.

(** An instance: a total width of 30 columns. *)
Lemma RenderCurvesWithSize_fits_witness :
  exists scaled seriesCells,
    map Name scaled = ["WPM"; "Accuracy"]%string /\
    forall y,
      codePoints (dataRow false seriesCells
                    (makeAxisLabels (plotHeight 4)) (30 - 7) y)
      = 30.
Proof.
  destruct (RenderCurvesWithSize bufferWrite quietEnv EmptyString
              [mkSession 1 250 10 60000; mkSession 2 300 5 60000] 3 30 4 false)
    as [ out err | | ] eqn:E; try (vm_compute in E; discriminate E).
  destruct (RenderCurvesWithSize_fits quietEnv
              [mkSession 1 250 10 60000; mkSession 2 300 5 60000] 3 30 4 false
              out err) as (scaled & cells & _ & Hn & _ & Hrow).
  - lia.
  - discriminate.
  - reflexivity.
  - exact E.
  - exists scaled, cells. split; [ exact Hn | exact Hrow ].
Defined.

(** * The number of lines of a plot *)

Lemma lineBreaks_app (a b : string) :
  lineBreaks (a ++ b) = lineBreaks a + lineBreaks b.
Proof.
  induction a as [ | c a IH ]; simpl; [ reflexivity | rewrite IH; lia ].
Qed.

Lemma lineBreaks_concat (sep : string) (l : list string) :
  lineBreaks sep = 0 -> Forall (fun s => lineBreaks s = 0) l ->
  lineBreaks (String.concat sep l) = 0.
Proof.
  intros Hsep Hl. induction Hl as [ | s rest Hs Hrest IH ].
  - reflexivity.
  - destruct rest as [ | s' rest' ].
    + simpl. exact Hs.
    + change (String.concat sep (s :: s' :: rest'))
        with (s ++ sep ++ String.concat sep (s' :: rest'))%string.
      rewrite !lineBreaks_app, Hs, Hsep, IH. reflexivity.
Qed.

(** Every line is written with one line break after it. *)
Lemma lineBreaks_textOf (lines : list string) :
  Forall (fun s => lineBreaks s = 0) lines ->
  lineBreaks (textOf lines) = Z.of_nat (List.length lines).
Proof.
  intro H. unfold textOf. induction H as [ | s rest Hs Hrest IH ].
  - reflexivity.
  - simpl map.
    assert (E : forall (x : string) (xs : list string),
               String.concat EmptyString (x :: xs)
               = (x ++ String.concat EmptyString xs)%string).
    { intros x [ | y ys ]; simpl; [ | reflexivity ].
      induction x as [ | c x IHx ]; simpl; [ reflexivity | now f_equal ]. }
    rewrite E, !lineBreaks_app, Hs, IH.
    change (lineBreaks newline) with 1. simpl List.length. lia.
Qed.

Lemma decimal_lineBreaks (n : Z) : lineBreaks (decimal n) = 0.
Proof.
  unfold decimal.
  assert (H : forall d, lineBreaks (NilEmpty.string_of_uint d) = 0).
  { induction d; simpl; auto. }
  unfold NilZero.string_of_uint.
  destruct (N.to_uint (Z.to_N n)); try apply H. reflexivity.
Qed.

Lemma fmt_f2_lineBreaks (x : float64) : lineBreaks (fmt_f2 x) = 0.
Proof.
  destruct x as [ [ | ] | [ | ] | | s m e ]; try reflexivity.
  unfold fmt_f2. rewrite !lineBreaks_app, !decimal_lineBreaks.
  destruct s; reflexivity.
Qed.

Lemma glyph_lineBreaks (m : Z) :
  0 <= m < 256 -> lineBreaks (utf8 (brailleFromMask m)) = 0.
Proof.
  intro H.
  assert (Hall : forallb (fun k => lineBreaks (utf8 (brailleFromMask k)) =? 0)
                   (upto 256) = true) by (vm_compute; reflexivity).
  rewrite forallb_forall in Hall.
  specialize (Hall m (In_upto 256 m H)). now apply Z.eqb_eq.
Qed.

Lemma colorCode_lineBreaks (i : Z) : lineBreaks (colorCode i) = 0.
Proof.
  unfold colorCode.
  destruct (Z.to_nat (Z.rem i 5)) as [ | [ | [ | [ | [ | [ | k ] ] ] ] ] ];
    reflexivity.
Qed.

Lemma renderCell_lineBreaks (useColor : bool) (seriesCells : list grid)
  (y x : Z) :
  Forall byteGrid seriesCells ->
  lineBreaks (renderCell useColor seriesCells y x) = 0.
Proof.
  intro Hb. unfold renderCell.
  pose proof (composeCell_byte seriesCells x y Hb) as Hm.
  destruct (composeCell seriesCells x y) as [mask colorIdx]. simpl fst in Hm.
  destruct (useColor && (colorIdx >=? 0)).
  - rewrite !lineBreaks_app, colorCode_lineBreaks, glyph_lineBreaks by exact Hm.
    reflexivity.
  - now apply glyph_lineBreaks.
Qed.

Lemma dataRow_lineBreaks (useColor : bool) (seriesCells : list grid)
  (height width y : Z) :
  Forall byteGrid seriesCells ->
  lineBreaks (dataRow useColor seriesCells (makeAxisLabels height) width y)
  = 0.
Proof.
  intro Hb. unfold dataRow, rowCells. rewrite lineBreaks_app.
  assert (P : lineBreaks (rowPrefix (makeAxisLabels height) y) = 0).
  { unfold rowPrefix.
    destruct (axisLabel_cases height (Z.to_nat y)) as [-> | [-> | [-> | ->]]];
      reflexivity. }
  rewrite P, lineBreaks_concat; [ reflexivity | reflexivity | ].
  apply Forall_forall. intros s Hs. apply in_map_iff in Hs.
  destruct Hs as (x & <- & _). now apply renderCell_lineBreaks.
Qed.

Lemma styleName_lineBreaks (i : Z) : lineBreaks (sname (styleOf i)) = 0.
Proof.
  unfold styleOf.
  destruct (Z.to_nat (Z.rem i 4)) as [ | [ | [ | [ | [ | k ] ] ] ] ];
    reflexivity.
Qed.

Lemma legendParts_lineBreaks (useColor : bool) (series : list Series) :
  Forall (fun s => lineBreaks (Name s) = 0) series ->
  forall i, Forall (fun s => lineBreaks s = 0) (legendParts i series useColor).
Proof.
  intro H. induction H as [ | s rest Hs Hrest IH ]; intro i.
  - constructor.
  - change (legendParts i (s :: rest) useColor)
      with ((let label :=
               (utf8 (brailleFromMask 1) ++ " " ++ Name s
                  ++ " (" ++ sname (styleOf i) ++ ")")%string in
             if useColor then (colorCode i ++ label ++ colorReset)%string
             else label)
            :: legendParts (i + 1) rest useColor).
    constructor; [ | apply IH ].
    cbv zeta. destruct useColor;
      rewrite !lineBreaks_app, ?colorCode_lineBreaks, Hs, styleName_lineBreaks;
      reflexivity.
Qed.

Lemma plotLines_length (title : string) (scaled : list Series)
  (seriesCells : list grid) (width height : Z) (useColor : bool) :
  0 <= height ->
  Z.of_nat (List.length
              (plotLines title scaled seriesCells width height useColor))
  = (if String.eqb title EmptyString then 0 else 1) + 1
    + Z.of_nat (List.length scaled) + height + 2.
Proof.
  intro Hh. unfold plotLines.
  rewrite !length_app, !length_map.
  pose proof (upto_length height) as Hu.
  destruct (String.eqb title EmptyString); simpl List.length; lia.
Qed.

Lemma resampleAll_length (series scaled : list Series) (width : Z) :
  resampleAll series width = Some scaled ->
  List.length scaled = List.length series.
Proof.
  intro H. apply resampleAll_names in H.
  rewrite <- (length_map Name scaled), H. apply length_map.
Qed.

(** The plot is a block of a fixed number of lines: when the title and the
    series names contain no line break, a call that draws something
    writes exactly one line for the title (none when it is empty), one for
    the scale note, one per non-empty series, [height] data rows, the
    legend and one empty line, with or without color. *)
Theorem plot_line_count (env : Env) (title : string) (series : list Series)
  (width height : Z) (forceColor : bool) (out : string)
  (err : option unit) :
  lineBreaks title = 0 ->
  Forall (fun s => lineBreaks (Name s) = 0) series ->
  filterSeries series <> [] ->
  renderToBuffer env title series width height forceColor = Returns out err ->
  lineBreaks out
  = (if String.eqb title EmptyString then 0 else 1) + 1
    + Z.of_nat (List.length (filterSeries series))
    + plotHeight height + 2.
Proof.
  intros Ht Hn Hne Hr.
  apply renderToBuffer_lines in Hr.
  destruct Hr as [_ [[Hnil _] | (_ & scaled & cells & Hres & Hras & ->)]];
    [ contradiction | ].
  pose proof (plotHeight_pos height) as Hh.
  assert (Hnames : Forall (fun s => lineBreaks (Name s) = 0) scaled).
  { apply resampleAll_names in Hres.
    apply Forall_forall. intros s Hs.
    assert (Hin : In (Name s) (map Name (filterSeries series))).
    { rewrite <- Hres. now apply in_map. }
    apply in_map_iff in Hin. destruct Hin as (s0 & <- & Hs0).
    apply filterSeries_In in Hs0.
    rewrite Forall_forall in Hn. now apply Hn. }
  assert (Hb : Forall byteGrid cells) by (eapply rasterAll_byte; exact Hras).
  rewrite lineBreaks_textOf.
  - rewrite plotLines_length by lia.
    now rewrite (resampleAll_length _ _ _ Hres).
  - unfold plotLines.
    apply Forall_app. split.
    { destruct (String.eqb title EmptyString); repeat constructor. exact Ht. }
    apply Forall_app. split.
    { repeat constructor. }
    apply Forall_app. split.
    { apply Forall_forall. intros l Hl. apply in_map_iff in Hl.
      destruct Hl as (s & <- & Hs). unfold rangeLine.
      rewrite Forall_forall in Hnames.
      rewrite !lineBreaks_app, (Hnames s Hs), !fmt_f2_lineBreaks.
      reflexivity. }
    apply Forall_app. split.
    { apply Forall_forall. intros l Hl. apply in_map_iff in Hl.
      destruct Hl as (y & <- & _). now apply dataRow_lineBreaks. }
    constructor; [ | repeat constructor ].
    unfold renderLegend. rewrite lineBreaks_app.
    rewrite lineBreaks_concat; [ reflexivity | reflexivity | ].
    now apply legendParts_lineBreaks.
Qed.

(** An instance: the end-to-end test has 1 + 1 + 2 + 4 + 2 lines. *)
Lemma plot_line_count_witness :
  exists out,
    renderToBuffer quietEnv "Test Plot" [seriesA; seriesB] 5 4 false
    = Returns out None /\
    lineBreaks out = 10.
Proof.
  destruct (renderToBuffer quietEnv "Test Plot" [seriesA; seriesB] 5 4 false)
    as [ out err | | ] eqn:E; try (vm_compute in E; discriminate E).
  exists out. split.
  - f_equal. clear - E. vm_compute in E. congruence.
  - rewrite (plot_line_count quietEnv "Test Plot" [seriesA; seriesB] 5 4 false
               out err); try reflexivity.
    + repeat constructor.
    + discriminate.
    + exact E.
Defined.

(** * The number of dots of a segment *)

(** One iteration on a segment that is at least as wide as it is high:
    as long as the error term has not fallen below [-dy/2] the loop is
    left at the second endpoint or steps along x, and the bound on the
    error term holds again. *)
Lemma lineStep_wide (x0 y0 x1 y1 a b : Z) (s : lineState) :
  dotRange x0 y0 -> dotRange x1 y1 ->
  lineInv x0 y0 x1 y1 a b s ->
  Z.abs (y1 - y0) <= Z.abs (x1 - x0) ->
  - Z.abs (y1 - y0) <= 2 * lerr s ->
  (lineStep (Z.abs (x1 - x0)) (- Z.abs (y1 - y0))
     (lineSx x0 x1) (lineSy y0 y1) x1 y1 s = None /\
   a = Z.abs (x1 - x0)) \/
  (exists b' s',
     lineStep (Z.abs (x1 - x0)) (- Z.abs (y1 - y0))
       (lineSx x0 x1) (lineSy y0 y1) x1 y1 s = Some s' /\
     lineInv x0 y0 x1 y1 (a + 1) b' s' /\
     - Z.abs (y1 - y0) <= 2 * lerr s').
Proof.
  intros [R0x R0y] [R1x R1y] [(Ha & Hb & Hx & Hy) [He Berr]] Hwide Hlow.
  destruct s as [x y err]. cbn [lx ly lerr] in Hx, Hy, He, Berr, Hlow.
  unfold lineInv, lineBox. cbn [lx ly lerr].
  destruct (line_axis x0 x1 a x R0x R1x Ha Hx) as (HDX & Ex & Wx & Nx).
  destruct (line_axis y0 y1 b y R0y R1y Hb Hy) as (HDY & Ey & Wy & Ny).
  change (lineSx y0 y1) with (lineSy y0 y1) in Wy, Ny.
  pose proof (line_error_sign _ _ a b Ha Hb) as [F1 F2].
  rewrite <- He in F1, F2.
  set (DX := Z.abs (x1 - x0)) in *. set (DY := Z.abs (y1 - y0)) in *.
  set (sx := lineSx x0 x1) in *. set (sy := lineSy y0 y1) in *.
  clearbody DX DY sx sy.
  clear R0x R0y R1x R1y Hx Hy.
  unfold lineStep. cbn [lx ly lerr].
  rewrite Wx, Wy.
  rewrite (wrap64_id (2 * err)) by lia.
  rewrite (wrap64_id (err + - DY)) by lia.
  rewrite (wrap64_id (err + - DY + DX)) by lia.
  rewrite (wrap64_id (err + DX)) by lia.
  assert (E11 : err + - DY + DX = (b + 1 + 1) * DX - (a + 1 + 1) * DY) by lia.
  assert (E10 : err + - DY = (b + 1) * DX - (a + 1 + 1) * DY) by lia.
  clear He Wx Wy.
  replace (2 * err >=? - DY) with true by (symmetry; apply Z.geb_le; lia).
  destruct (Z.eqb_spec x x1) as [Hxe | Hxe].
  - left. split; [ | tauto ].
    destruct (y =? y1); reflexivity.
  - assert (a < DX) by (assert (a <> DX) by tauto; lia).
    simpl andb. cbv iota.
    destruct (Z.leb_spec (2 * err) DX) as [C2 | C2].
    + destruct (Z.eqb_spec y y1) as [Hye | Hye].
      * (* on the last row a step along y is excluded by the error term *)
        exfalso. assert (b = DY) by tauto. lia.
      * assert (b < DY) by (assert (b <> DY) by tauto; lia).
        right. exists (b + 1), (mkLine (x + sx) (y + sy) (err + - DY + DX)).
        split; [ reflexivity | ]. cbn [lx ly lerr]. rewrite Nx, Ny.
        split; [ | lia ].
        split; [ repeat split; lia | ]. split; [ exact E11 | lia ].
    + right. exists b, (mkLine (x + sx) y (err + - DY)).
      split; [ reflexivity | ]. cbn [lx ly lerr]. rewrite Nx.
      split; [ | lia ].
      split; [ repeat split; lia | ]. split; [ exact E10 | lia ].
Qed.

(** The same on a segment that is at least as high as it is wide: every
    iteration steps along y. *)
Lemma lineStep_high (x0 y0 x1 y1 a b : Z) (s : lineState) :
  dotRange x0 y0 -> dotRange x1 y1 ->
  lineInv x0 y0 x1 y1 a b s ->
  Z.abs (x1 - x0) <= Z.abs (y1 - y0) ->
  2 * lerr s <= Z.abs (x1 - x0) ->
  (lineStep (Z.abs (x1 - x0)) (- Z.abs (y1 - y0))
     (lineSx x0 x1) (lineSy y0 y1) x1 y1 s = None /\
   b = Z.abs (y1 - y0)) \/
  (exists a' s',
     lineStep (Z.abs (x1 - x0)) (- Z.abs (y1 - y0))
       (lineSx x0 x1) (lineSy y0 y1) x1 y1 s = Some s' /\
     lineInv x0 y0 x1 y1 a' (b + 1) s' /\
     2 * lerr s' <= Z.abs (x1 - x0)).
Proof.
  intros [R0x R0y] [R1x R1y] [(Ha & Hb & Hx & Hy) [He Berr]] Hhigh Hup.
  destruct s as [x y err]. cbn [lx ly lerr] in Hx, Hy, He, Berr, Hup.
  unfold lineInv, lineBox. cbn [lx ly lerr].
  destruct (line_axis x0 x1 a x R0x R1x Ha Hx) as (HDX & Ex & Wx & Nx).
  destruct (line_axis y0 y1 b y R0y R1y Hb Hy) as (HDY & Ey & Wy & Ny).
  change (lineSx y0 y1) with (lineSy y0 y1) in Wy, Ny.
  pose proof (line_error_sign _ _ a b Ha Hb) as [F1 F2].
  rewrite <- He in F1, F2.
  set (DX := Z.abs (x1 - x0)) in *. set (DY := Z.abs (y1 - y0)) in *.
  set (sx := lineSx x0 x1) in *. set (sy := lineSy y0 y1) in *.
  clearbody DX DY sx sy.
  clear R0x R0y R1x R1y Hx Hy.
  unfold lineStep. cbn [lx ly lerr].
  rewrite Wx, Wy.
  rewrite (wrap64_id (2 * err)) by lia.
  rewrite (wrap64_id (err + - DY)) by lia.
  rewrite (wrap64_id (err + - DY + DX)) by lia.
  rewrite (wrap64_id (err + DX)) by lia.
  assert (E11 : err + - DY + DX = (b + 1 + 1) * DX - (a + 1 + 1) * DY) by lia.
  assert (E01 : err + DX = (b + 1 + 1) * DX - (a + 1) * DY) by lia.
  clear He Wx Wy.
  replace (2 * err <=? DX) with true by (symmetry; apply Z.leb_le; lia).
  destruct (Z.eqb_spec y y1) as [Hye | Hye].
  - left. split; [ | tauto ].
    destruct (Z.eqb_spec x x1) as [Hxe | Hxe]; simpl andb; cbv iota;
      [ reflexivity | ].
    destruct (2 * err >=? - DY); reflexivity.
  - assert (b < DY) by (assert (b <> DY) by tauto; lia).
    rewrite andb_false_r. cbv iota.
    destruct (Z.geb_spec (2 * err) (- DY)) as [C1 | C1].
    + destruct (Z.eqb_spec x x1) as [Hxe | Hxe].
      * (* on the last column a step along x is excluded by the error term *)
        exfalso. assert (a = DX) by tauto. lia.
      * assert (a < DX) by (assert (a <> DX) by tauto; lia).
        right. exists (a + 1), (mkLine (x + sx) (y + sy) (err + - DY + DX)).
        split; [ reflexivity | ]. cbn [lx ly lerr]. rewrite Nx, Ny.
        split; [ | lia ].
        split; [ repeat split; lia | ]. split; [ exact E11 | lia ].
    + right. exists a, (mkLine x (y + sy) (err + DX)).
      split; [ reflexivity | ]. cbn [lx ly lerr]. rewrite Ny.
      split; [ | lia ].
      split; [ repeat split; lia | ]. split; [ exact E01 | lia ].
Qed.

(** On a wide segment the loop plots one dot per column. *)
Lemma linePoints_wide (x0 y0 x1 y1 : Z) :
  dotRange x0 y0 -> dotRange x1 y1 ->
  Z.abs (y1 - y0) <= Z.abs (x1 - x0) ->
  forall (fuel : nat) (a b : Z) (s : lineState) (pts : list (Z * Z)),
    lineInv x0 y0 x1 y1 a b s ->
    - Z.abs (y1 - y0) <= 2 * lerr s ->
    linePoints (Z.abs (x1 - x0)) (- Z.abs (y1 - y0))
      (lineSx x0 x1) (lineSy y0 y1) x1 y1 fuel s = Some pts ->
    Z.of_nat (List.length pts) = Z.abs (x1 - x0) - a + 1.
Proof.
  intros R0 R1 Hwide.
  induction fuel as [ | k IH ]; intros a b s pts Hinv Hlow Hpts;
    [ discriminate | ].
  simpl in Hpts.
  destruct (lineStep_wide x0 y0 x1 y1 a b s R0 R1 Hinv Hwide Hlow)
    as [(Hstep & Ea) | (b' & s' & Hstep & Hinv' & Hlow')];
    rewrite Hstep in Hpts.
  - injection Hpts as <-. simpl. lia.
  - destruct (linePoints _ _ _ _ _ _ k s') as [r | ] eqn:Er; [ | discriminate ].
    injection Hpts as <-.
    pose proof (IH (a + 1) b' s' r Hinv' Hlow' Er) as Hr.
    simpl List.length. lia.
Qed.

(** On a high segment it plots one dot per row. *)
Lemma linePoints_high (x0 y0 x1 y1 : Z) :
  dotRange x0 y0 -> dotRange x1 y1 ->
  Z.abs (x1 - x0) <= Z.abs (y1 - y0) ->
  forall (fuel : nat) (a b : Z) (s : lineState) (pts : list (Z * Z)),
    lineInv x0 y0 x1 y1 a b s ->
    2 * lerr s <= Z.abs (x1 - x0) ->
    linePoints (Z.abs (x1 - x0)) (- Z.abs (y1 - y0))
      (lineSx x0 x1) (lineSy y0 y1) x1 y1 fuel s = Some pts ->
    Z.of_nat (List.length pts) = Z.abs (y1 - y0) - b + 1.
Proof.
  intros R0 R1 Hhigh.
  induction fuel as [ | k IH ]; intros a b s pts Hinv Hup Hpts;
    [ discriminate | ].
  simpl in Hpts.
  destruct (lineStep_high x0 y0 x1 y1 a b s R0 R1 Hinv Hhigh Hup)
    as [(Hstep & Eb) | (a' & s' & Hstep & Hinv' & Hup')];
    rewrite Hstep in Hpts.
  - injection Hpts as <-. simpl. lia.
  - destruct (linePoints _ _ _ _ _ _ k s') as [r | ] eqn:Er; [ | discriminate ].
    injection Hpts as <-.
    pose proof (IH a' (b + 1) s' r Hinv' Hup' Er) as Hr.
    simpl List.length. lia.
Qed.

(** [drawLine] plots as few dots as a path without gaps can have: between
    two dots it calls [plot] exactly [max(|x1-x0|, |y1-y0|) + 1] times,
    once per column of a segment that is wider than high and once per row
    of one that is higher than wide. *)
Theorem drawLine_dot_count (x0 y0 x1 y1 : Z) :
  dotRange x0 y0 -> dotRange x1 y1 ->
  exists pts,
    lineTrace x0 y0 x1 y1 = Some pts /\
    Z.of_nat (List.length pts)
    = Z.max (Z.abs (x1 - x0)) (Z.abs (y1 - y0)) + 1.
Proof.
  intros R0 R1.
  destruct (dotRange_int64 _ _ R0) as [I0x I0y].
  destruct (dotRange_int64 _ _ R1) as [I1x I1y].
  assert (HDX : Z.abs (x1 - x0) <= 2 ^ 52 /\ Z.abs (y1 - y0) <= 2 ^ 52).
  { unfold dotRange in *. lia. }
  assert (Hinit : lineInv x0 y0 x1 y1 0 0
                    (mkLine x0 y0 (Z.abs (x1 - x0) + - Z.abs (y1 - y0)))).
  { unfold lineInv, lineBox. cbn [lx ly lerr]. repeat split; lia. }
  destruct (linePoints_path x0 y0 x1 y1 R0 R1 (lineFuel x0 y0 x1 y1) 0 0 _ Hinit)
    as (pts & Hpts & _).
  { unfold lineFuel. lia. }
  assert (Htrace : lineTrace x0 y0 x1 y1 = Some pts).
  { unfold lineTrace. rewrite lineDx_exact, lineDy_exact by (try assumption; lia).
    rewrite wrap64_id by lia. exact Hpts. }
  exists pts. split; [ exact Htrace | ].
  destruct (Z.le_ge_cases (Z.abs (y1 - y0)) (Z.abs (x1 - x0))) as [Hwide | Hhigh].
  - rewrite (linePoints_wide x0 y0 x1 y1 R0 R1 Hwide _ 0 0 _ pts Hinit)
      by (cbn [lerr]; lia || exact Hpts).
    lia.
  - rewrite (linePoints_high x0 y0 x1 y1 R0 R1 Hhigh _ 0 0 _ pts Hinit)
      by (cbn [lerr]; lia || exact Hpts).
    lia.
Qed.

(** An instance: from (0, 5) to (2, 1), five dots. *)
Lemma drawLine_dot_count_witness :
  exists pts,
    lineTrace 0 5 2 1 = Some pts /\
    Z.of_nat (List.length pts) = Z.max (Z.abs (2 - 0)) (Z.abs (1 - 5)) + 1.
Proof.
  apply (drawLine_dot_count 0 5 2 1); unfold dotRange; simpl; lia.
Defined.

(** * Session metrics *)

Lemma normalPos_good (x : float64) (lo hi : Z) :
  normalPos x lo hi ->
  isFinite x = true /\ notNegative x = true /\ gtb x zero = true /\
  fle x zero = false.
Proof. intros (m & e & -> & _). repeat split. Qed.

(** [SessionMetrics] gives numbers that can be plotted: for counts that
    are not negative and a duration below [2^53] ms, each of the three
    metrics is a finite float64 that is not negative (never NaN, never an
    infinity), and all three are zero when the duration is zero or
    less. *)
Theorem SessionMetrics_defined (correct incorrect durationMs : Z) :
  0 <= correct -> 0 <= incorrect -> correct + incorrect < 2 ^ 53 ->
  durationMs < 2 ^ 53 ->
  let '(wpm, cpm, accuracy) :=
    SessionMetrics correct incorrect durationMs in
  (isFinite wpm = true /\ notNegative wpm = true) /\
  (isFinite cpm = true /\ notNegative cpm = true) /\
  (isFinite accuracy = true /\ notNegative accuracy = true) /\
  (durationMs <= 0 -> wpm = zero /\ cpm = zero /\ accuracy = zero).
Proof.
  intros Hc Hi Hsum Hdur. unfold SessionMetrics.
  destruct (Z.leb_spec durationMs 0) as [Hd | Hd].
  { repeat split; reflexivity. }
  set (minutes := div (of_int durationMs) (of_int 60000)).
  assert (Nd : normalPos (of_int durationMs) (-52) 0)
    by (apply (isInt_normal _ durationMs), of_int_isInt; lia).
  assert (N6 : normalPos (of_int 60000) (-52) 0)
    by (apply (isInt_normal _ 60000), of_int_isInt; lia).
  assert (N5 : normalPos (of_int 5) (-52) 0)
    by (apply (isInt_normal _ 5), of_int_isInt; lia).
  destruct (div_value _ _ _ _ _ _ Nd N6 ltac:(lia) ltac:(lia)) as [Nmin _].
  fold minutes in Nmin.
  destruct (normalPos_good _ _ _ Nmin) as (_ & _ & _ & Hle). rewrite Hle.
  rewrite wrap64_id by lia.
  destruct (Z.eq_dec correct 0) as [-> | Hc0].
  - (* nothing typed correctly: the three metrics are zero *)
    assert (Zmin : div zero minutes = zero).
    { destruct Nmin as (m & e & -> & _). reflexivity. }
    change (of_int 0) with zero. change (div zero (of_int 5)) with zero.
    rewrite Zmin.
    assert (Hacc : (if gtb (of_int (0 + incorrect)) zero
                    then div zero (of_int (0 + incorrect)) else zero) = zero).
    { destruct (Z.eq_dec incorrect 0) as [-> | Hi0]; [ reflexivity | ].
      assert (Ni : normalPos (of_int (0 + incorrect)) (-52) 0)
        by (apply (isInt_normal _ (0 + incorrect)), of_int_isInt; lia).
      destruct Ni as (m & e & -> & _). reflexivity. }
    rewrite Hacc. repeat split; try reflexivity; lia.
  - assert (Nc : normalPos (of_int correct) (-52) 0)
      by (apply (isInt_normal _ correct), of_int_isInt; lia).
    assert (Ns : normalPos (of_int (correct + incorrect)) (-52) 0)
      by (apply (isInt_normal _ (correct + incorrect)), of_int_isInt; lia).
    destruct (div_value _ _ _ _ _ _ Nc N5 ltac:(lia) ltac:(lia)) as [N1 _].
    destruct (div_value _ _ _ _ _ _ N1 Nmin ltac:(lia) ltac:(lia)) as [Nw _].
    destruct (div_value _ _ _ _ _ _ Nc Nmin ltac:(lia) ltac:(lia)) as [Np _].
    destruct (div_value _ _ _ _ _ _ Nc Ns ltac:(lia) ltac:(lia)) as [Na _].
    destruct (normalPos_good _ _ _ Ns) as (_ & _ & Hgt & _). rewrite Hgt.
    destruct (normalPos_good _ _ _ Nw) as (W1 & W2 & _).
    destruct (normalPos_good _ _ _ Np) as (P1 & P2 & _).
    destruct (normalPos_good _ _ _ Na) as (A1 & A2 & _).
    repeat split; try assumption; lia.
Qed.

(** An instance: 250 correct and 10 wrong characters in one minute. *)
Lemma SessionMetrics_defined_witness :
  let '(wpm, cpm, accuracy) := SessionMetrics 250 10 60000 in
  (isFinite wpm = true /\ notNegative wpm = true) /\
  (isFinite cpm = true /\ notNegative cpm = true) /\
  (isFinite accuracy = true /\ notNegative accuracy = true) /\
  (60000 <= 0 -> wpm = zero /\ cpm = zero /\ accuracy = zero).
Proof.
  apply (SessionMetrics_defined 250 10 60000); lia.
Defined.
